(** * customs-chatbot: the search and query engine

    A shallow embedding of [server/query.js] (query parser, filter-path
    table, path resolver, term flattener, collection search) and of
    [server/docIndex.js] (query tokens, snippet builder, document index,
    document search), followed by the properties of the specification
    that concern them.

    The client's engine ([src/query.ts]) with its lookup of an entity by
    id, the query router ([src/router.ts]), the older document index and
    the server's lookup of persons by name are embedded after them, and
    further properties of all of this code close the file.

    Conventions of the embedding.
    - A JavaScript string is the list of its UTF-16 code units ([list N]),
      so that [length] is JavaScript's [.length] and the ellipsis U+2026 is
      one unit.  [toLowerCase] is modelled on the ASCII letters; every other
      code unit is left as it is.  On ASCII strings ([ascii_only]) this is
      JavaScript's lower-casing.
    - A JSON value is a tree ([value]); a number is an integer rendered in
      decimal (fractions and exponents are outside the model).  Objects are
      association lists in property enumeration order, with distinct keys.
      A property read ([getProp]) finds the properties that a value has of
      its own; the names that the code reads from the data - the segments
      of the filter table's paths, the id keys - name no inherited member.
    - A [TypeError] raised by the code is the [Throw] outcome.  A lookup in
      an object literal of the code ([filters], [FILTER_PATHS]) finds the
      members inherited from [Object.prototype] as JavaScript does, and
      [String] applied to a value of the data raises where JavaScript's
      does ([String_raises]).
    - The file system, the PDF text extraction, the fuzzy-match library,
      [JSON.stringify], [encodeURIComponent] and the clock are inputs of
      the document index.
    - What a search writes is told on a second model, where objects and
      arrays are cells of a store and the spread copies references. *)

From Stdlib Require Import ZArith NArith Lia DecimalString.
From stdpp Require Import base option list strings gmap.

Set Default Proof Using "Type".
Local Set Warnings "-register-all".

(* ================================================================== *)
(** * JavaScript strings *)
(* ================================================================== *)

Abbreviation jstring := (list N).

(** [u "abc"] is the JavaScript string with the code units of the ASCII
    literal. *)
Definition u (s : string) : jstring :=
  map Ascii.N_of_ascii (String.list_ascii_of_string s).
Arguments u s%_stdpp.

Definition cu_quote : N := 34.
Definition cu_colon : N := 58.
Definition cu_dot : N := 46.
Definition cu_space : N := 32.
Definition cu_underscore : N := 95.
Definition cu_newline : N := 10.
Definition ellipsis : N := 8230.

(** [String.prototype.toLowerCase], ASCII part. *)
Definition lower_cu (c : N) : N :=
  if (65 <=? c)%N && (c <=? 90)%N then (c + 32)%N else c.

(** [String.prototype.toUpperCase], ASCII part. *)
Definition upper_cu (c : N) : N :=
  if (97 <=? c)%N && (c <=? 122)%N then (c - 32)%N else c.

Definition toLowerCase (s : jstring) : jstring := map lower_cu s.
Definition toUpperCase (s : jstring) : jstring := map upper_cu s.

(** A string of ASCII code units: on these [toLowerCase] and [toUpperCase]
    are JavaScript's, which on other strings also map the letters beyond
    ASCII and can change the length (U+0130 becomes two code units). *)
Definition ascii_only (s : jstring) : bool := forallb (λ c, (c <? 128)%N) s.

(** The code units matched by [\s] and removed by [trim]: ECMAScript's
    WhiteSpace and LineTerminator. *)
Definition is_ws (c : N) : bool :=
  ((9 <=? c) && (c <=? 13) || (c =? 32) || (c =? 160) || (c =? 5760)
   || (8192 <=? c) && (c <=? 8202) || (c =? 8232) || (c =? 8233)
   || (c =? 8239) || (c =? 8287) || (c =? 12288) || (c =? 65279))%N.

(** [.] in a regular expression without the [s] flag. *)
Definition is_line_terminator (c : N) : bool :=
  ((c =? 10) || (c =? 13) || (c =? 8232) || (c =? 8233))%N.

(** [[a-zA-Z_]]. *)
Definition is_key_char (c : N) : bool :=
  ((65 <=? c) && (c <=? 90) || (97 <=? c) && (c <=? 122) || (c =? 95))%N.

(** [\d]. *)
Definition is_digit (c : N) : bool := ((48 <=? c) && (c <=? 57))%N.

Fixpoint dropWhile (p : N → bool) (s : jstring) : jstring :=
  match s with
  | [] => []
  | c :: s' => if p c then dropWhile p s' else s
  end.

Fixpoint takeWhile (p : N → bool) (s : jstring) : jstring :=
  match s with
  | [] => []
  | c :: s' => if p c then c :: takeWhile p s' else []
  end.

Definition trimStart (s : jstring) : jstring := dropWhile is_ws s.
Definition trimEnd (s : jstring) : jstring := rev (dropWhile is_ws (rev s)).
Definition trim (s : jstring) : jstring := trimEnd (trimStart s).

Definition nonempty (s : jstring) : bool :=
  match s with [] => false | _ => true end.

Fixpoint startsWith (s p : jstring) {struct p} : bool :=
  match p, s with
  | [], _ => true
  | a :: p', b :: s' => (a =? b)%N && startsWith s' p'
  | _ :: _, [] => false
  end.

(** [s.indexOf(p)]: [None] stands for [-1]. *)
Fixpoint indexOf (s p : jstring) : option nat :=
  if startsWith s p then Some 0
  else match s with
       | [] => None
       | _ :: s' => S <$> indexOf s' p
       end.

(** [s.includes(p)]. *)
Definition includes (s p : jstring) : bool :=
  match indexOf s p with Some _ => true | None => false end.

(** [s.slice(a, b)] for [0 <= a] and [0 <= b]. *)
Definition slice (a b : nat) (s : jstring) : jstring := take (b - a) (drop a s).

(** [s.replace(/\s+/g, " ")]: [prev] tells that the previous code unit
    belonged to the run of white space being replaced. *)
Fixpoint collapse_from (prev : bool) (s : jstring) : jstring :=
  match s with
  | [] => []
  | c :: s' =>
      if is_ws c then
        if prev then collapse_from true s' else cu_space :: collapse_from true s'
      else c :: collapse_from false s'
  end.

Definition collapse (s : jstring) : jstring := collapse_from false s.

(** [xs.join(sep)]. *)
Fixpoint join (sep : jstring) (xs : list jstring) : jstring :=
  match xs with
  | [] => []
  | [x] => x
  | x :: xs' => x ++ sep ++ join sep xs'
  end.

(** [s.split(sep)] for a one-unit separator: at least one piece. *)
Fixpoint split_on (sep : N) (s : jstring) : list jstring :=
  match s with
  | [] => [[]]
  | c :: s' =>
      if (c =? sep)%N then [] :: split_on sep s'
      else match split_on sep s' with
           | [] => [[c]]
           | p :: ps => (c :: p) :: ps
           end
  end.

(** Decimal rendering of an integer, as [String(n)] gives it. *)
Definition dec (z : Z) : jstring := u (NilZero.string_of_int (Z.to_int z)).

(** Insertion into a [Set] of strings kept in insertion order. *)
Definition set_add (x : jstring) (s : list jstring) : list jstring :=
  if bool_decide (x ∈ s) then s else s ++ [x].

(** [[...new Set(xs)]]: first occurrences, in order. *)
Definition uniq (xs : list jstring) : list jstring := foldl (λ s x, set_add x s) [] xs.

(* ================================================================== *)
(** * JSON values and the outcome of a call *)
(* ================================================================== *)

Inductive value : Type :=
  | JUndef
  | JNull
  | JBool (b : bool)
  | JNum (z : Z)
  | JStr (s : jstring)
  | JArr (xs : list value)
  | JObj (kvs : list (jstring * value)).

Inductive outcome (A : Type) : Type :=
  | Ok (a : A)
  | Throw.
Arguments Ok {A} a.
Arguments Throw {A}.

Definition obind {A B} (m : outcome A) (k : A → outcome B) : outcome B :=
  match m with Ok a => k a | Throw => Throw end.

Notation "x ←! m ; k" := (obind m (λ x, k))
  (at level 20, m at level 100, k at level 200, right associativity,
   format "x  ←!  m ;  '/' k").

(** [l.map(f)] for a callback that can raise. *)
Fixpoint map_outcome {A B} (f : A → outcome B) (l : list A) : outcome (list B) :=
  match l with
  | [] => Ok []
  | x :: l' => y ←! f x; ys ←! map_outcome f l'; Ok (y :: ys)
  end.

Definition is_nullish (v : value) : bool :=
  match v with JUndef | JNull => true | _ => false end.

(** ToBoolean. *)
Definition truthy (v : value) : bool :=
  match v with
  | JUndef | JNull => false
  | JBool b => b
  | JNum z => negb (z =? 0)%Z
  | JStr s => nonempty s
  | JArr _ | JObj _ => true
  end.

(** [String(v)]: the string it returns, when it returns; [String_raises],
    below, tells when it raises instead. *)
Fixpoint js_String (v : value) : jstring :=
  match v with
  | JUndef => u "undefined"
  | JNull => u "null"
  | JBool true => u "true"
  | JBool false => u "false"
  | JNum z => dec z
  | JStr s => s
  | JArr xs =>
      join (u ",")
        ((fix each (l : list value) : list jstring :=
            match l with
            | [] => []
            | x :: l' => (if is_nullish x then [] else js_String x) :: each l'
            end) xs)
  | JObj _ => u "[object Object]"
  end.

(** [norm]: [String(s ?? '')], lower-cased, trimmed: the string it returns,
    when [String] returns. *)
Definition norm (v : value) : jstring :=
  trim (toLowerCase (if is_nullish v then [] else js_String v)).

Definition norm_str (s : jstring) : jstring := norm (JStr s).

(** [String(v)] raises a TypeError instead of returning [js_String v]: an
    object with a property [toString] of its own - in the data never a
    function - has no primitive value, and an array is printed through its
    elements. *)
Fixpoint String_raises (v : value) : bool :=
  match v with
  | JObj kvs => bool_decide (u "toString" ∈ kvs.*1)
  | JArr xs =>
      (fix some (l : list value) : bool :=
         match l with
         | [] => false
         | x :: l' => String_raises x || some l'
         end) xs
  | _ => false
  end.

(** The call [norm(v)] on any value of the data: it raises when [String]
    does, and returns [norm v] otherwise.  On a string, a number or a
    boolean it is [norm v]. *)
Definition call_norm (v : value) : outcome jstring :=
  if String_raises v then Throw else Ok (norm v).

Fixpoint assoc {A} (k : jstring) (kvs : list (jstring * A)) : option A :=
  match kvs with
  | [] => None
  | (k', v) :: rest => if bool_decide (k = k') then Some v else assoc k rest
  end.

(** The index [i < n] whose canonical rendering is [part], if any. *)
Fixpoint index_named (part : jstring) (n : nat) : option nat :=
  match n with
  | O => None
  | S m =>
      match index_named part m with
      | Some i => Some i
      | None => if bool_decide (dec (Z.of_nat m) = part) then Some m else None
      end
  end.

(** [v[part]] on a value that is neither [null] nor [undefined]: own
    properties of the JSON data ([length] and the indices of arrays and
    strings, the keys of objects).  Members inherited from the built-in
    prototypes are functions, which [value] does not represent; no path of
    the filter table names one. *)
Definition getProp (v : value) (part : jstring) : value :=
  match v with
  | JObj kvs => default JUndef (assoc part kvs)
  | JArr xs =>
      if bool_decide (part = u "length") then JNum (Z.of_nat (length xs))
      else match index_named part (length xs) with
           | Some i => default JUndef (xs !! i)
           | None => JUndef
           end
  | JStr s =>
      if bool_decide (part = u "length") then JNum (Z.of_nat (length s))
      else match index_named part (length s) with
           | Some i => match s !! i with Some c => JStr [c] | None => JUndef end
           | None => JUndef
           end
  | _ => JUndef
  end.

(* ================================================================== *)
(** * server/query.js *)
(* ================================================================== *)

(** ** flatten *)

(** [flatten(obj, prefix)]: one ["path=value"] string per scalar leaf. *)
Fixpoint flatten (obj : value) (prefix : jstring) : list jstring :=
  match obj with
  | JUndef | JNull => []
  | JArr xs =>
      (fix each (l : list value) (i : nat) : list jstring :=
         match l with
         | [] => []
         | v :: l' =>
             flatten v (prefix ++ u "[" ++ dec (Z.of_nat i) ++ u "]")
             ++ each l' (S i)
         end) xs O
  | JObj kvs =>
      (fix each (l : list (jstring * value)) : list jstring :=
         match l with
         | [] => []
         | (k, v) :: l' =>
             flatten v (if nonempty prefix then prefix ++ u "." ++ k else k)
             ++ each l'
         end) kvs
  | _ => [prefix ++ u "=" ++ js_String obj]
  end.

(** ** parseQuery *)

Inductive token_kind : Type := Quoted | Bare.

Definition not_quote (c : N) : bool := negb (c =? cu_quote)%N.
Definition not_ws (c : N) : bool := negb (is_ws c).

(** The token expression is: a double quote, one or more code units other
    than a double quote, a double quote; or else one or more code units
    that are not white space.  This is its first alternative at the start
    of [s], returning the body between the quotes. *)
Definition match_quoted (s : jstring) : option jstring :=
  match s with
  | c :: s1 =>
      if (c =? cu_quote)%N then
        match takeWhile not_quote s1, dropWhile not_quote s1 with
        | (_ :: _) as body, _ :: _ => Some body
        | _, _ => None
        end
      else None
  | [] => None
  end.

(** The second alternative: a run of code units that are not white space. *)
Definition match_bare (s : jstring) : option jstring :=
  match takeWhile not_ws s with
  | [] => None
  | t => Some t
  end.

(** One match of the expression at the start of [s]: the alternative taken
    and its capture (the body of a quoted span, or the bare run). *)
Definition match_token (s : jstring) : option (token_kind * jstring) :=
  match match_quoted s with
  | Some body => Some (Quoted, body)
  | None =>
      match match_bare s with
      | Some t => Some (Bare, t)
      | None => None
      end
  end.

(** The text of the whole match, [m[0]]. *)
Definition matched_text (m : token_kind * jstring) : jstring :=
  match m with
  | (Quoted, body) => cu_quote :: body ++ [cu_quote]
  | (Bare, t) => t
  end.

(** All matches of the global expression, left to right: [skip] counts the
    code units of the current match still to be passed over. *)
Fixpoint scan (s : jstring) (skip : nat) : list (token_kind * jstring) :=
  match s with
  | [] => []
  | _ :: s' =>
      match skip with
      | S k => scan s' k
      | O =>
          match match_token s with
          | Some m => m :: scan s' (length (matched_text m) - 1)
          | None => scan s' 0
          end
      end
  end.

(** [q.match(...) ?? []] with the global token expression. *)
Definition tokenize (q : jstring) : list jstring := matched_text <$> scan q 0.

Definition strip_leading_quote (t : jstring) : jstring :=
  match t with
  | c :: t' => if (c =? cu_quote)%N then t' else t
  | [] => []
  end.

Definition strip_trailing_quote (t : jstring) : jstring :=
  rev (strip_leading_quote (rev t)).

(** [t.replace(...)] removing a leading and a trailing double quote. *)
Definition stripQuotes (t : jstring) : jstring :=
  strip_trailing_quote (strip_leading_quote t).

(** [token.match(/^([a-zA-Z_]+):(.+)$/)]: the two captures. *)
Definition matchKV (token : jstring) : option (jstring * jstring) :=
  match takeWhile is_key_char token, dropWhile is_key_char token with
  | (_ :: _) as key, c :: ((_ :: _) as val) =>
      if (c =? cu_colon)%N && forallb (λ x, negb (is_line_terminator x)) val
      then Some (key, val) else None
  | _, _ => None
  end.

(** The property names every plain object inherits from
    [Object.prototype]. *)
Definition objectPrototypeKeys : list jstring :=
  [ u "constructor"; u "__defineGetter__"; u "__defineSetter__";
    u "hasOwnProperty"; u "__lookupGetter__"; u "__lookupSetter__";
    u "isPrototypeOf"; u "propertyIsEnumerable"; u "toString";
    u "valueOf"; u "__proto__"; u "toLocaleString" ].

Definition inherited (k : jstring) : bool :=
  bool_decide (k ∈ objectPrototypeKeys).

Record parsed : Type := Parsed {
  terms : list jstring;
  filters : list (jstring * list jstring)
}.

Definition empty_query : parsed := {| terms := []; filters := [] |}.

(** [filters[key].push(val)] on an own property [key]. *)
Fixpoint push_at (key val : jstring) (fs : list (jstring * list jstring))
  : list (jstring * list jstring) :=
  match fs with
  | [] => []
  | (k, vs) :: rest =>
      if bool_decide (key = k) then (k, vs ++ [val]) :: rest
      else (k, vs) :: push_at key val rest
  end.

(** [if (!filters[key]) filters[key] = []; filters[key].push(val)].  When
    [key] is not an own property but an inherited one, [filters[key]] is a
    built-in function or object: it is truthy, has no [push], and the call
    raises a TypeError. *)
Definition add_filter (key val : jstring) (fs : list (jstring * list jstring))
  : outcome (list (jstring * list jstring)) :=
  match assoc key fs with
  | Some _ => Ok (push_at key val fs)
  | None => if inherited key then Throw else Ok (fs ++ [(key, [val])])
  end.

Inductive token_class : Type :=
  | Filter (key val : jstring)
  | Term (t : jstring).

(** The body of the loop over the tokens, up to the update of the
    accumulators. *)
Definition classify (t : jstring) : token_class :=
  let token := stripQuotes t in
  match matchKV token with
  | Some (k, v) => Filter (norm_str k) (norm_str (stripQuotes v))
  | None => Term (norm_str token)
  end.

Definition parse_step (acc : parsed) (t : jstring) : outcome parsed :=
  match classify t with
  | Filter key val =>
      fs ←! add_filter key val (filters acc);
      Ok {| terms := terms acc; filters := fs |}
  | Term w => Ok {| terms := terms acc ++ [w]; filters := filters acc |}
  end.

Fixpoint parse_tokens (acc : parsed) (ts : list jstring) : outcome parsed :=
  match ts with
  | [] => Ok acc
  | t :: ts' => acc' ←! parse_step acc t; parse_tokens acc' ts'
  end.

Definition parseQuery (input : jstring) : outcome parsed :=
  let q := trim input in
  if nonempty q then parse_tokens empty_query (tokenize q)
  else Ok empty_query.

(** ** FILTER_PATHS *)

Definition FILTER_PATHS : list (jstring * list jstring) :=
  [ (u "name", [u "name.primary_name"; u "name.aliases"]);
    (u "alias", [u "name.aliases"]);
    (u "dob", [u "date_of_birth"]);
    (u "gender", [u "gender"]);
    (u "nationality", [u "nationality"]);
    (u "race", [u "race"]);
    (u "passport", [u "passport_numbers"]);
    (u "phone", [u "contact.mobile_numbers"]);
    (u "mobile", [u "contact.mobile_numbers"]);
    (u "address", [u "contact.address"]);
    (u "residency", [u "residency_status"]);
    (u "vehicle", [u "vehicle_number"]);
    (u "vehicle_number", [u "vehicle_number"]);
    (u "vehicle_type", [u "vehicle_type"]);
    (u "colour", [u "colour"]);
    (u "color", [u "colour"]);
    (u "owner", [u "registered_owner"]);
    (u "risk", [u "risk_notes"]);
    (u "source", [u "source"]);
    (u "confidence", [u "confidence_level"]);
    (u "received_date", [u "received_date"]);
    (u "case_type", [u "case_type"]);
    (u "status", [u "status"]);
    (u "opened_date", [u "opened_date"]);
    (u "entry_point", [u "entry_point"]);
    (u "destination", [u "destination"]);
    (u "departure_date", [u "departure_date"]);
    (u "return_date", [u "return_date"]);
    (u "arrival_date", [u "arrival_date"]);
    (u "pattern", [u "travel_pattern_flag"]) ].

(** What [FILTER_PATHS[k]] evaluates to. *)
Inductive table_entry : Type :=
  | Own (paths : list jstring)
  | Inherited
  | Missing.

Definition filter_paths (k : jstring) : table_entry :=
  match assoc k FILTER_PATHS with
  | Some paths => Own paths
  | None => if inherited k then Inherited else Missing
  end.

(** ** getByPath *)

(** [x ? x[part] : undefined]. *)
Definition proj (part : jstring) (x : value) : value :=
  if truthy x then getProp x part else JUndef.

(** What [flatMap] appends for one callback result. *)
Definition splice (v : value) : list value :=
  match v with
  | JArr ys => ys
  | _ => [v]
  end.

(** [xs.flatMap(f)]. *)
Definition flatMap (f : value → value) (xs : list value) : list value :=
  flat_map (λ x, splice (f x)) xs.

(** The loop over the segments, with its early return, and the final
    statements. *)
Fixpoint getByPath_from (cur : value) (parts : list jstring) : list value :=
  match parts with
  | [] =>
      match cur with
      | JUndef | JNull => []
      | JArr xs => xs
      | _ => [cur]
      end
  | part :: rest =>
      match cur with
      | JUndef | JNull => []
      | JArr xs => getByPath_from (JArr (flatMap (proj part) xs)) rest
      | _ => getByPath_from (getProp cur part) rest
      end
  end.

Definition getByPath (obj : value) (path : jstring) : list value :=
  getByPath_from obj (split_on cu_dot path).

(** ** passesFilters *)

(** [paths.flatMap((p) => getByPath(obj, p))]. *)
Definition resolved (obj : value) (paths : list jstring) : list value :=
  flat_map (getByPath obj) paths.

(** [paths.flatMap((p) => getByPath(obj, p)).map(norm).filter(Boolean)]. *)
Definition hay (obj : value) (paths : list jstring) : outcome (list jstring) :=
  hs ←! map_outcome call_norm (resolved obj paths);
  Ok (filter (λ h, Is_true (nonempty h)) hs).

(** [wantedVals.some((w) => hay.some((h) => h.includes(w)))]. *)
Definition some_match (wanted hs : list jstring) : bool :=
  existsb (λ w, existsb (λ h, includes h w) hs) wanted.

Fixpoint passesFilters (obj : value) (fs : list (jstring * list jstring))
  : outcome bool :=
  match fs with
  | [] => Ok true
  | (k, wantedVals) :: rest =>
      match filter_paths k with
      | Missing => passesFilters obj rest
      | Inherited => Throw
      | Own paths =>
          hs ←! hay obj paths;
          if some_match wantedVals hs then passesFilters obj rest
          else Ok false
      end
  end.

(** ** passesTerms *)

Definition passesTerms (obj : value) (ts : list jstring) : bool :=
  match ts with
  | [] => true
  | _ =>
      let flat := norm_str <$> flatten obj [] in
      forallb (λ t, existsb (λ f, includes f t) flat) ts
  end.

(** ** collectMatchedFields *)

(** The loop [for (const t of terms) if (val.includes(t)) matches.add(path)]. *)
Definition add_matches (val path : jstring) (ts : list jstring)
    (matches : list jstring) : list jstring :=
  foldl (λ m t, if includes val t then set_add path m else m) matches ts.

(** [walk(o, path)], threading the set [matches]. *)
Fixpoint walk (ts : list jstring) (o : value) (path : jstring)
    (matches : list jstring) : list jstring :=
  match o with
  | JUndef | JNull => matches
  | JArr xs =>
      (fix each (l : list value) (i : nat) (m : list jstring) : list jstring :=
         match l with
         | [] => m
         | v :: l' =>
             each l' (S i)
               (walk ts v (path ++ u "[" ++ dec (Z.of_nat i) ++ u "]") m)
         end) xs O matches
  | JObj kvs =>
      (fix each (l : list (jstring * value)) (m : list jstring) : list jstring :=
         match l with
         | [] => m
         | (k, v) :: l' =>
             each l'
               (walk ts v (if nonempty path then path ++ u "." ++ k else k) m)
         end) kvs matches
  | _ => add_matches (norm o) path ts matches
  end.

Definition collectMatchedFields (obj : value) (ts : list jstring) : list jstring :=
  walk ts obj [] [].

(** ** searchCollection *)

(** The own enumerable properties copied by [{...o}]. *)
Definition spread (o : value) : list (jstring * value) :=
  match o with
  | JObj kvs => kvs
  | JArr xs => imap (λ i x, (dec (Z.of_nat i), x)) xs
  | JStr s => imap (λ i c, (dec (Z.of_nat i), JStr [c])) s
  | _ => []
  end.

(** A property written in an object literal after a spread: it replaces
    the copied one in place or is added last. *)
Fixpoint set_prop {A} (k : jstring) (v : A) (kvs : list (jstring * A))
  : list (jstring * A) :=
  match kvs with
  | [] => [(k, v)]
  | (k', v') :: rest =>
      if bool_decide (k = k') then (k', v) :: rest
      else (k', v') :: set_prop k v rest
  end.

Definition strings (xs : list jstring) : value := JArr (JStr <$> xs).

(** [{...o, matchedTerms: terms, matchedFields: collectMatchedFields(o, terms)}]. *)
Definition decorate (o : value) (ts : list jstring) : value :=
  JObj (set_prop (u "matchedFields") (strings (collectMatchedFields o ts))
         (set_prop (u "matchedTerms") (strings ts) (spread o))).

(** The callback of [arr.map]: [None] is the [null] it returns. *)
Definition search_one (pq : parsed) (o : value) : outcome (option value) :=
  ok ←! passesFilters o (filters pq);
  if negb ok then Ok None
  else if negb (passesTerms o (terms pq)) then Ok None
  else Ok (Some (decorate o (terms pq))).

(** [arr.map(...).filter(Boolean)] for an already parsed query. *)
Definition searchParsed (arr : list value) (pq : parsed) : outcome (list value) :=
  rs ←! map_outcome (search_one pq) arr;
  Ok (omap id rs).

Definition searchCollection (arr : list value) (input : jstring)
  : outcome (list value) :=
  pq ←! parseQuery input;
  searchParsed arr pq.

(** ** searchAll *)

(** The arrays of [demoData.json], which holds the five of them. *)
Record dataset : Type := Dataset {
  persons : list value;
  vehicles : list value;
  first_info_reports : list value;
  cases : list value;
  trips : list value
}.

Definition searchAll (data : dataset) (input : jstring) : outcome dataset :=
  ps ←! searchCollection (persons data) input;
  vs ←! searchCollection (vehicles data) input;
  fis ←! searchCollection (first_info_reports data) input;
  cs ←! searchCollection (cases data) input;
  ts ←! searchCollection (trips data) input;
  Ok {| persons := ps; vehicles := vs; first_info_reports := fis;
        cases := cs; trips := ts |}.

(* ================================================================== *)
(** * server/docIndex.js *)
(* ================================================================== *)

(** ** parseQueryTokens *)

(** The loop over [re.exec(text)]: the capture of each match, trimmed,
    empty ones skipped. *)
Definition raw_tokens (text : jstring) : list jstring :=
  filter (λ t, Is_true (nonempty t)) ((λ m, trim (snd m)) <$> scan text 0).

(** A token, followed by its two sides when it has a colon that is neither
    its first nor its last code unit. *)
Definition expand (t : jstring) : list jstring :=
  match indexOf t [cu_colon] with
  | Some idx =>
      if (0 <? idx) && (idx <? length t - 1)
      then [t; take idx t; drop (S idx) t] else [t]
  | None => [t]
  end.

Definition parseQueryTokens (q : jstring) : list jstring :=
  let text := trim q in
  if nonempty text then
    uniq (filter (λ t, Is_true (nonempty t))
            (trim <$> flat_map expand (raw_tokens text)))
  else [].

(** ** buildSnippet *)

(** One turn of the loop that looks for the earliest occurrence: [best] is
    [bestIdx], with [None] for [-1]. *)
Definition best_step (lower : jstring) (best : option nat) (rawTok : jstring)
  : option nat :=
  let tok := toLowerCase rawTok in
  if length tok <? 2 then best
  else match indexOf lower tok with
       | Some idx =>
           match best with
           | None => Some idx
           | Some b => if idx <? b then Some idx else best
           end
       | None => best
       end.

Definition bestIdx (t : jstring) (tokens : list jstring) : option nat :=
  foldl (best_step (toLowerCase t)) None tokens.

Definition window_start (b : nat) : nat := b - 90.
Definition window_end (t : jstring) (b : nat) : nat := length t `min` (b + 180).

Definition buildSnippet (t : jstring) (tokens : list jstring) : jstring :=
  match bestIdx t tokens with
  | None =>
      let trimmed := trim (collapse t) in
      if 220 <? length trimmed then take 220 trimmed ++ [ellipsis] else trimmed
  | Some b =>
      let start := window_start b in
      let end_ := window_end t b in
      let snippet := trim (collapse (slice start end_ t)) in
      (if 0 <? start then [ellipsis] else [])
      ++ snippet
      ++ (if end_ <? length t then [ellipsis] else [])
  end.

(** ** inferDocMetaFromFilename and attachJsonMetadata *)

Definition endsWith_ci (s suffix : jstring) : bool :=
  startsWith (rev (toLowerCase s)) (rev suffix).

(** [filename.replace(...)] removing a final [.pdf] or [.docx], whatever
    the case of its letters. *)
Definition strip_extension (f : jstring) : jstring :=
  if endsWith_ci f (u ".pdf") then take (length f - 4) f
  else if endsWith_ci f (u ".docx") then take (length f - 5) f
  else f.

Definition all_digits (s : jstring) : bool := forallb is_digit s.

(** The identifier tests, all case-insensitive: [P-] and four digits,
    [V-] and three digits, [FI-] four digits [-] four digits, and the
    prefix [SC-]. *)
Definition is_person_id (id : jstring) : bool :=
  bool_decide (toUpperCase (take 2 id) = u "P-")
  && bool_decide (length id = 6) && all_digits (drop 2 id).

Definition is_vehicle_id (id : jstring) : bool :=
  bool_decide (toUpperCase (take 2 id) = u "V-")
  && bool_decide (length id = 5) && all_digits (drop 2 id).

Definition is_first_info_id (id : jstring) : bool :=
  bool_decide (toUpperCase (take 3 id) = u "FI-")
  && bool_decide (length id = 12)
  && all_digits (take 4 (drop 3 id))
  && bool_decide (take 1 (drop 7 id) = u "-")
  && all_digits (drop 8 id).

Definition is_case_id (id : jstring) : bool :=
  bool_decide (toUpperCase (take 3 id) = u "SC-").

Definition str_or_null (b : bool) (s : jstring) : value :=
  if b then JStr s else JNull.

Definition inferDocMetaFromFilename (filename : jstring) : value :=
  let base := strip_extension filename in
  let pieces := split_on cu_underscore base in
  let prefix := default [] (pieces !! 0) in
  let rest := pieces !! 1 in
  let id := default [] rest in
  JObj
    [ (u "filename", JStr filename);
      (u "entity_type", JStr prefix);
      (u "entity_id", JStr (default base rest));
      (u "person_id", str_or_null (is_person_id id) (toUpperCase id));
      (u "case_id", str_or_null (is_case_id id) (toUpperCase id));
      (u "vehicle_id", str_or_null (is_vehicle_id id) (toUpperCase id));
      (u "first_info_id", str_or_null (is_first_info_id id) (toUpperCase id));
      (u "trip_id",
        str_or_null (bool_decide (prefix = u "trips") && is_person_id id) base) ].

(** [xs.find((x) => x[key] === id)]; reading a property of [null] or
    [undefined] raises a TypeError. *)
Fixpoint find_by (key id : jstring) (xs : list value) : outcome (option value) :=
  match xs with
  | [] => Ok None
  | x :: xs' =>
      if is_nullish x then Throw
      else match getProp x key with
           | JStr s => if bool_decide (s = id) then Ok (Some x)
                       else find_by key id xs'
           | _ => find_by key id xs'
           end
  end.

(** The chain of [if ... else if] inside the [try]: the record to attach,
    if any. *)
Definition lookup_json_meta (meta : value) (data : dataset) : outcome (option value) :=
  if truthy (getProp meta (u "person_id")) then
    find_by (u "person_id") (js_String (getProp meta (u "person_id"))) (persons data)
  else if truthy (getProp meta (u "vehicle_id")) then
    find_by (u "vehicle_id") (js_String (getProp meta (u "vehicle_id"))) (vehicles data)
  else if truthy (getProp meta (u "case_id")) then
    find_by (u "case_id") (js_String (getProp meta (u "case_id"))) (cases data)
  else if truthy (getProp meta (u "first_info_id")) then
    find_by (u "first_info_id") (js_String (getProp meta (u "first_info_id")))
      (first_info_reports data)
  else Ok None.

Definition attachJsonMetadata (meta : value) (data : dataset) : value :=
  match lookup_json_meta meta data with
  | Ok (Some p) => JObj (set_prop (u "json_meta") p (spread meta))
  | Ok None | Throw => JObj (spread meta)
  end.

(** ** The index and its search *)

Record doc : Type := Doc {
  doc_id : jstring;
  filename : jstring;
  title : jstring;
  entity_type : value;
  entity_id : value;
  meta : value;
  text : jstring;
  public_path : jstring;
  search_blob : jstring
}.

(** What the documents directory gives: its listing ([None] when
    [readdir] rejects) and, for a file name, the text extracted from the
    file ([None] when reading the file or extracting its text throws). *)
Record docs_dir : Type := DocsDir {
  listing : option (list jstring);
  pdf_text : jstring → option jstring
}.

Section DocIndex.

(** The fuzzy-match library, [JSON.stringify], [encodeURIComponent]
    ([None] for a URIError) and the clock are outside the repository. *)
Variable score : Type.
Variable toFixed4 : score → score.
Variable JSON_stringify : value → jstring.
Variable encodeURIComponent : jstring → option jstring.
Variable now : jstring.

(** One result of [fuse.search]: [hit_score] is [None] when [r.score] is
    not a number. *)
Record fuse_hit : Type := FuseHit {
  item : doc;
  hit_score : option score
}.

(** [new Fuse(docs, options).search]. *)
Variable Fuse : list doc → jstring → list fuse_hit.

Record doc_index : Type := DocIndex {
  docs : list doc;
  fuse : jstring → list fuse_hit;
  built_at : jstring
}.

(** The body of the [try] for one file: [None] when something in it
    throws and the file is skipped. *)
Definition index_file (dir : docs_dir) (data : dataset) (name : jstring)
  : option doc :=
  txt ← pdf_text dir name;
  let m := attachJsonMetadata (inferDocMetaFromFilename name) data in
  let metaText :=
    if truthy (getProp m (u "json_meta"))
    then JSON_stringify (getProp m (u "json_meta")) else [] in
  enc ← encodeURIComponent name;
  Some {| doc_id := name; filename := name; title := name;
          entity_type := getProp m (u "entity_type");
          entity_id := getProp m (u "entity_id");
          meta := m; text := txt;
          public_path := u "/docs/" ++ enc;
          search_blob :=
            toLowerCase (name ++ [cu_newline] ++ metaText
                         ++ [cu_newline] ++ txt) |}.

Definition buildDocIndex (dir : docs_dir) (data : dataset) : doc_index :=
  let files := default [] (listing dir) in
  let pdfs := filter (λ f, Is_true (endsWith_ci f (u ".pdf"))) files in
  let ds := omap (index_file dir data) pdfs in
  {| docs := ds; fuse := Fuse ds; built_at := now |}.

(** [xs.slice(0, limit)] for an integer [limit]: a negative one counts
    from the end. *)
Definition slice_to {A} (limit : Z) (xs : list A) : list A :=
  if (limit <? 0)%Z
  then take (Z.to_nat (Z.of_nat (length xs) + limit)) xs
  else take (Z.to_nat limit) xs.

Record doc_result : Type := DocResult {
  r_doc_id : jstring;
  r_title : jstring;
  r_filename : jstring;
  r_entity_type : value;
  r_entity_id : value;
  r_meta : value;
  r_public_path : jstring;
  snippet : jstring;
  matched_terms : list jstring;
  r_score : option score
}.

Definition matched_terms_of (d : doc) (tokens : list jstring) : list jstring :=
  take 12
    (filter (λ t, Is_true (includes (search_blob d) (toLowerCase t)))
       (filter (λ t, 2 ≤ length t) (trim <$> tokens))).

Definition to_result (tokens : list jstring) (r : fuse_hit) : doc_result :=
  let d := item r in
  {| r_doc_id := doc_id d; r_title := title d; r_filename := filename d;
     r_entity_type := entity_type d; r_entity_id := entity_id d;
     r_meta := meta d; r_public_path := public_path d;
     snippet := buildSnippet (text d) tokens;
     matched_terms := matched_terms_of d tokens;
     r_score := toFixed4 <$> hit_score r |}.

(** [limit] is [None] when the options give none: the default is 20. *)
Definition searchDocuments (idx : doc_index) (query : jstring)
    (limit : option Z) : list doc_result :=
  match docs idx with
  | [] => []
  | _ =>
      let tokens := parseQueryTokens query in
      let q := trim (join [cu_space] tokens) in
      if nonempty q then
        to_result tokens <$> slice_to (default 20%Z limit) (fuse idx q)
      else []
  end.

End DocIndex.

Arguments FuseHit {score} item hit_score.
Arguments item {score} _.
Arguments hit_score {score} _.
Arguments DocIndex {score} docs fuse built_at.
Arguments docs {score} _.
Arguments fuse {score} _ _.
Arguments built_at {score} _.
Arguments buildDocIndex {score} JSON_stringify encodeURIComponent now Fuse dir data.
Arguments r_doc_id {score} _.
Arguments r_title {score} _.
Arguments r_filename {score} _.
Arguments r_entity_type {score} _.
Arguments r_entity_id {score} _.
Arguments r_meta {score} _.
Arguments r_public_path {score} _.
Arguments snippet {score} _.
Arguments matched_terms {score} _.
Arguments r_score {score} _.
Arguments to_result {score} toFixed4 tokens r.
Arguments searchDocuments {score} toFixed4 idx query limit.

(* ================================================================== *)
(** * The object store *)
(* ================================================================== *)

(** The same search with the objects in a store, to tell what a call
    writes.  A value is a primitive or a reference; an object or an array
    is a cell of the store.  The traversals of [query.js] only read, and are
    run on the tree read from the store ([reify]); the allocations of
    [searchCollection] are those of the array [terms], of each array of
    matched fields, of each result object, and of the arrays built by
    [map] and [filter]. *)

Definition loc : Type := positive.

Inductive hval : Type :=
  | HUndef
  | HNull
  | HBool (b : bool)
  | HNum (z : Z)
  | HStr (s : jstring)
  | HRef (l : loc).

Inductive cell : Type :=
  | CObj (fields : list (jstring * hval))
  | CArr (elems : list hval).

Abbreviation heap := (gmap loc cell).

Definition alloc (c : cell) (h : heap) : loc * heap :=
  let l := fresh (dom h) in (l, <[l := c]> h).

(** The tree below a value, read with at most [n] dereferences in depth:
    [None] when the depth is exceeded or a reference dangles. *)
Fixpoint reify (n : nat) (h : heap) (x : hval) : option value :=
  match x with
  | HUndef => Some JUndef
  | HNull => Some JNull
  | HBool b => Some (JBool b)
  | HNum z => Some (JNum z)
  | HStr s => Some (JStr s)
  | HRef l =>
      match n with
      | O => None
      | S n' =>
          match h !! l with
          | None => None
          | Some (CObj fs) =>
              JObj <$> mapM (λ kv, pair kv.1 <$> reify n' h kv.2) fs
          | Some (CArr xs) => JArr <$> mapM (reify n' h) xs
          end
      end
  end.

(** The own enumerable properties copied by a spread: the copy is shallow,
    the property values are shared with the source. *)
Definition hspread (h : heap) (o : hval) : list (jstring * hval) :=
  match o with
  | HRef l =>
      match h !! l with
      | Some (CObj fs) => fs
      | Some (CArr xs) => imap (λ i x, (dec (Z.of_nat i), x)) xs
      | None => []
      end
  | HStr s => imap (λ i c, (dec (Z.of_nat i), HStr [c])) s
  | _ => []
  end.

(** How a call ends: normally, by a TypeError, or because the store could
    not be read within the given depth. *)
Inductive run (A : Type) : Type :=
  | Done (a : A)
  | Raised
  | Unread.
Arguments Done {A} a.
Arguments Raised {A}.
Arguments Unread {A}.

(** The callback of [arr.map] on the element [o]; [lt] is the array
    [terms]. *)
Definition search_oneH (n : nat) (pq : parsed) (lt : loc) (o : hval) (h : heap)
  : run (option hval) * heap :=
  match reify n h o with
  | None => (Unread, h)
  | Some v =>
      match passesFilters v (filters pq) with
      | Throw => (Raised, h)
      | Ok false => (Done None, h)
      | Ok true =>
          if passesTerms v (terms pq) then
            let '(lf, h1) :=
              alloc (CArr (HStr <$> collectMatchedFields v (terms pq))) h in
            let '(lo, h2) :=
              alloc (CObj (set_prop (u "matchedFields") (HRef lf)
                             (set_prop (u "matchedTerms") (HRef lt)
                                (hspread h o)))) h1 in
            (Done (Some (HRef lo)), h2)
          else (Done None, h)
      end
  end.

Fixpoint map_run (n : nat) (pq : parsed) (lt : loc) (os : list hval) (h : heap)
  : run (list (option hval)) * heap :=
  match os with
  | [] => (Done [], h)
  | o :: os' =>
      match search_oneH n pq lt o h with
      | (Done r, h1) =>
          match map_run n pq lt os' h1 with
          | (Done rs, h2) => (Done (r :: rs), h2)
          | (Raised, h2) => (Raised, h2)
          | (Unread, h2) => (Unread, h2)
          end
      | (Raised, h1) => (Raised, h1)
      | (Unread, h1) => (Unread, h1)
      end
  end.

(** [searchCollection(arr, input)] on the store [h]. *)
Definition searchCollectionH (n : nat) (arr : hval) (input : jstring) (h : heap)
  : run hval * heap :=
  match parseQuery input with
  | Throw => (Raised, h)
  | Ok pq =>
      let '(lt, h0) := alloc (CArr (HStr <$> terms pq)) h in
      match arr with
      | HRef la =>
          match h0 !! la with
          | Some (CArr os) =>
              match map_run n pq lt os h0 with
              | (Done rs, h1) =>
                  let '(lm, h2) :=
                    alloc (CArr (default HNull <$> rs)) h1 in
                  let '(lr, h3) := alloc (CArr (omap id rs)) h2 in
                  (Done (HRef lr), h3)
              | (Raised, h1) => (Raised, h1)
              | (Unread, h1) => (Unread, h1)
              end
          | _ => (Raised, h0)
          end
      | _ => (Raised, h0)
      end
  end.

(* ================================================================== *)
(** * Notions and data used by the statements *)
(* ================================================================== *)

(** [p] occurs in [s] at position [i]. *)
Definition occurs_at (s p : jstring) (i : nat) : Prop :=
  ∃ r, drop i s = p ++ r ∧ i ≤ length s.

(** A string that [trim] leaves alone: it neither starts nor ends with
    white space. *)
Definition trimmed (s : jstring) : Prop :=
  match s with [] => True | y :: _ => is_ws y = false end
  ∧ match rev s with [] => True | z :: _ => is_ws z = false end.

(** Every code unit is its own lower case. *)
Definition lowered (s : jstring) : Prop := Forall (λ c, lower_cu c = c) s.

(** The person of the end-to-end example of the specification. *)
Definition person_P0001 : value :=
  JObj [ (u "person_id", JStr (u "P-0001"));
         (u "name", JObj [(u "primary_name", JStr (u "Tan Wei Ming"))]);
         (u "nationality", JStr (u "Malaysian"));
         (u "gender", JStr (u "male")) ].


(** The records of a collection that pass the term stage. *)
Definition term_stage (ts : list jstring) (arr : list value) : list value :=
  filter (λ o, Is_true (passesTerms o ts)) arr.

(** [w] is a substring of [s] up to the case of the letters. *)
Definition ci_substring (w s : jstring) : Prop :=
  ∃ a b, toLowerCase s = a ++ toLowerCase w ++ b.

(** What [parseQuery] guarantees of its filters: no key is a name
    inherited from [Object.prototype], and every value is lower-cased and
    trimmed. *)
Definition parsed_filters (fs : list (jstring * list jstring)) : Prop :=
  Forall (λ kv, inherited kv.1 = false ∧ Forall (λ w, lowered w ∧ trimmed w) kv.2) fs.

(** And of its terms: they are lower-cased and trimmed. *)
Definition parsed_terms (ts : list jstring) : Prop :=
  Forall (λ w, lowered w ∧ trimmed w) ts.

(** The hay of a record along the paths of a key, when [String] returns on
    every resolved value. *)
Definition hay_strings (o : value) (paths : list jstring) : list jstring :=
  filter (λ h, Is_true (nonempty h)) (norm <$> resolved o paths).

(** [String] returns on every value that the record resolves for the keys
    of the filters that the table knows. *)
Definition printable_for (fs : list (jstring * list jstring)) (o : value) : bool :=
  forallb (λ kv, match assoc kv.1 FILTER_PATHS with
                 | Some paths =>
                     forallb (λ v, negb (String_raises v)) (resolved o paths)
                 | None => true
                 end) fs.

(** The test of one key of the query, when the table knows it. *)
Definition key_passes (o : value) (kv : jstring * list jstring) : bool :=
  match assoc kv.1 FILTER_PATHS with
  | Some paths => some_match kv.2 (hay_strings o paths)
  | None => true
  end.

(** A record on which the conversion of a filter value to a string
    raises. *)
Definition person_unprintable : value :=
  JObj [ (u "gender", JObj [(u "toString", JNum 1)]);
         (u "nationality", JStr (u "Malaysian")) ].


(** What one element of an array met on the way contributes, followed on
    its own through the remaining segments: a falsy element or a missing
    property leaves an [undefined] entry, an array-valued property is
    spliced in by one level. *)
Fixpoint resolve_elem (parts : list jstring) (x : value) : list value :=
  match parts with
  | [] => [x]
  | part :: rest => flat_map (resolve_elem rest) (splice (proj part x))
  end.

(** The walk read as a recursion on the value. *)
Fixpoint resolve (parts : list jstring) (v : value) : list value :=
  match v with
  | JUndef | JNull => []
  | JArr xs => flat_map (resolve_elem parts) xs
  | _ =>
      match parts with
      | [] => [v]
      | part :: rest => resolve rest (getProp v part)
      end
  end.

(** [x[part]] when [x] is there at all. *)
Definition project (part : jstring) (x : value) : value :=
  if is_nullish x then JUndef else getProp x part.

(** The resolver as the specification words it: a null or absent value
    contributes nothing, wherever it is met. *)
Fixpoint resolve_spec (parts : list jstring) (v : value) : list value :=
  match v with
  | JUndef | JNull => []
  | JArr xs =>
      match parts with
      | [] => xs
      | part :: rest => flat_map (λ x, resolve_spec rest (project part x)) xs
      end
  | _ =>
      match parts with
      | [] => [v]
      | part :: rest => resolve_spec rest (getProp v part)
      end
  end.

(** The segments of the paths of the filter table: the property names
    that the resolver is asked for.  None of them names a member that the
    values of the data inherit from the built-in prototypes, so that on
    them [getProp] is JavaScript's property access. *)
Definition table_segments : list jstring :=
  flat_map (split_on cu_dot) (flat_map snd FILTER_PATHS).

(** A record whose contact is an array, with an element that lacks the
    mobile numbers. *)
Definition record_contact_address : value :=
  JObj [(u "contact", JArr [JObj [(u "address", JStr (u "12 Jalan Besar"))]])].

(** A record whose contacts hold their mobile numbers as a string, as an
    array, and as the first string again. *)
Definition record_contacts : value :=
  JObj [(u "contact",
         JArr [ JObj [(u "mobile_numbers", JStr (u "111"))];
                JObj [(u "mobile_numbers", JArr [JStr (u "222"); JStr (u "333")])];
                JObj [(u "mobile_numbers", JStr (u "111"))] ])].

(** A token that the loop considers (two code units or more) occurs, up to
    case, at position [i] of the text. *)
Definition token_at (t : jstring) (tokens : list jstring) (i : nat) : Prop :=
  ∃ tok, tok ∈ tokens ∧ 2 ≤ length tok
         ∧ occurs_at (toLowerCase t) (toLowerCase tok) i.

(** [b] is the earliest such position, or there is none. *)
Definition earliest_token (t : jstring) (tokens : list jstring)
    (b : option nat) : Prop :=
  match b with
  | Some i => token_at t tokens i ∧ ∀ j, token_at t tokens j → i ≤ j
  | None => ∀ j, ¬ token_at t tokens j
  end.

(** Ninety-five letters [x], then the letter [a]. *)
Definition text_x95_a : jstring := replicate 95 120%N ++ u "a".

(** The token, two hundred letters, then the phrase. *)
Definition text_two_tanjung : jstring :=
  u "tanjung" ++ replicate 200 120%N ++ u "Tanjung Pelepas".

(** The text of the example of the specification. *)
Definition text_shipment : jstring :=
  u "the shipment arrived at Tanjung Pelepas on March 3".

(** The phrase of that example. *)
Definition phrase : jstring := u "Tanjung Pelepas".

(** A fuzzy search that reports every document, without a score. *)
Definition Fuse_all (ds : list doc) (q : jstring) : list (fuse_hit Z) :=
  (λ d, FuseHit d None) <$> ds.

(** A serialiser that prints nothing. *)
Definition no_metadata (v : value) : jstring := [].

(** A directory whose files cannot be read. *)
Definition dir_unreadable : docs_dir :=
  {| listing := Some [u "persons_P-0001.pdf"; u "notes.txt"; u "cases_SC-1.PDF"];
     pdf_text := λ _, None |}.

(** A directory of three readable PDF files. *)
Definition dir_three : docs_dir :=
  {| listing := Some [u "persons_P-0001.pdf"; u "vehicles_V-001.pdf";
                     u "cases_SC-TOB-1.pdf"];
     pdf_text := λ _, Some (u "Tan Wei Ming arrived at Tanjung Pelepas") |}.

(** An empty dataset. *)
Definition no_data : dataset :=
  {| persons := []; vehicles := []; first_info_reports := [];
     cases := []; trips := [] |}.

(** The index of the three files. *)
Definition index_three : doc_index Z :=
  buildDocIndex no_metadata Some [] Fuse_all dir_three no_data.

(** A store with a collection of one person, whose name is an object of
    its own. *)
Definition heap_example : heap :=
  list_to_map
    [ (1%positive, CArr [HRef 2%positive]);
      (2%positive, CObj [ (u "name", HRef 3%positive);
                          (u "gender", HStr (u "male")) ]);
      (3%positive, CObj [ (u "primary_name", HStr (u "Tan Wei Ming")) ]) ].

(** The result entry [e] is an object that did not exist in [h] and that
    carries the two decorations in [h']. *)
Definition fresh_decorated (h h' : heap) (e : hval) : Prop :=
  ∃ l fs,
    e = HRef l ∧ h !! l = None ∧ h' !! l = Some (CObj fs)
    ∧ is_Some (assoc (u "matchedTerms") fs)
    ∧ is_Some (assoc (u "matchedFields") fs).

(** The tree of one property. *)
Definition reify_field (n : nat) (h : heap) (kv : jstring * hval)
  : option (jstring * value) := pair kv.1 <$> reify n h kv.2.

(** An element of the array built by [map] against what the callback
    returns on the tree. *)
Definition agrees (n : nat) (h : heap) (r : option hval) (d : option value) : Prop :=
  match r, d with
  | None, None => True
  | Some e, Some t => reify n h e = Some t
  | _, _ => False
  end.

(* ================================================================== *)
(** * src/query.ts *)
(* ================================================================== *)

(** The client's copy of the engine has the same [parseQuery],
    [passesFilters] and [passesTerms], over the same table of paths; its
    [searchCollection] returns the matching records themselves, and it
    adds the lookup of an entity by its id. *)

(** [arr.filter(keep)] for a test that can throw. *)
Fixpoint filter_outcome {A} (keep : A → outcome bool) (l : list A)
  : outcome (list A) :=
  match l with
  | [] => Ok []
  | x :: l' =>
      b ←! keep x;
      rest ←! filter_outcome keep l';
      Ok (if b then x :: rest else rest)
  end.

(** [passesFilters(o, filters) && passesTerms(o, terms)]. *)
Definition passes_both (pq : parsed) (o : value) : outcome bool :=
  ok ←! passesFilters o (filters pq);
  Ok (ok && passesTerms o (terms pq)).

(** [searchCollection] of [query.ts]. *)
Definition searchCollection_ts (arr : list value) (input : jstring)
  : outcome (list value) :=
  pq ←! parseQuery input;
  filter_outcome (passes_both pq) arr.

(** The object literal [map] of [getEntityById]. *)
Definition entity_collections (data : dataset) : list (jstring * list value) :=
  [ (u "person", persons data);
    (u "vehicle", vehicles data);
    (u "case", cases data);
    (u "fi", first_info_reports data);
    (u "trip", trips data) ].

(** The object literal [keyMap]. *)
Definition entity_keys : list (jstring * jstring) :=
  [ (u "person", u "person_id");
    (u "vehicle", u "vehicle_id");
    (u "case", u "case_id");
    (u "fi", u "first_info_id");
    (u "trip", u "trip_id") ].

(** [x?.[key]]. *)
Definition opt_prop (x : value) (key : jstring) : value :=
  if is_nullish x then JUndef else getProp x key.

(** [arr.find((x) => x?.[key] === id) ?? null] for a string [id]. *)
Fixpoint find_entity (key id : jstring) (xs : list value) : option value :=
  match xs with
  | [] => None
  | x :: xs' =>
      match opt_prop x key with
      | JStr s => if bool_decide (s = id) then Some x else find_entity key id xs'
      | _ => find_entity key id xs'
      end
  end.

(** [getEntityById(type, id)] on the dataset [data]: a [type] that the
    literal inherits from [Object.prototype] gives a value without
    [find], and the call raises a TypeError. *)
Definition getEntityById (data : dataset) (type id : jstring)
  : outcome (option value) :=
  match assoc type (entity_collections data) with
  | Some arr =>
      Ok (find_entity (default (u "undefined") (assoc type entity_keys)) id arr)
  | None => if inherited type then Throw else Ok None
  end.

(* ================================================================== *)
(** * The older document index *)
(* ================================================================== *)

(** The repository holds an older [docIndex], whose file-name parser and
    snippet builder differ from those of [server/docIndex.js]. *)

(** What [map[prefix]] evaluates to, for the object literal [map] of
    [parseDocFilename]: the entity type of a known prefix, a member
    inherited from [Object.prototype], or nothing. *)
Inductive entity_tag : Type :=
  | Entity (name : jstring)
  | BuiltIn.

Definition entity_of_prefix (prefix : jstring) : option entity_tag :=
  if bool_decide (prefix = u "persons") then Some (Entity (u "person"))
  else if bool_decide (prefix = u "vehicles") then Some (Entity (u "vehicle"))
  else if bool_decide (prefix = u "cases") then Some (Entity (u "case"))
  else if bool_decide (prefix = u "first_info_reports") then Some (Entity (u "fi"))
  else if bool_decide (prefix = u "trips") then Some (Entity (u "trip"))
  else if inherited prefix then Some BuiltIn
  else None.

(** [parseDocFilename(filename)]: [None] is [null]. *)
Definition parseDocFilename (filename : jstring) : option (entity_tag * jstring) :=
  let base :=
    if endsWith_ci filename (u ".pdf") then take (length filename - 4) filename
    else filename in
  match indexOf base [cu_underscore] with
  | None => None
  | Some idx =>
      match entity_of_prefix (take idx base) with
      | Some ty => Some (ty, drop (S idx) base)
      | None => None
      end
  end.

(** One turn of the loop of the older [buildSnippet], which takes the
    tokens as they are. *)
Definition best_step_legacy (lower : jstring) (best : option nat) (tok : jstring)
  : option nat :=
  match indexOf lower tok with
  | Some at_ =>
      match best with
      | None => Some at_
      | Some b => if at_ <? b then Some at_ else best
      end
  | None => best
  end.

(** The older [buildSnippet(text, tokens, windowSize)]. *)
Definition buildSnippet_legacy (t : jstring) (tokens : list jstring)
    (windowSize : nat) : jstring :=
  match foldl (best_step_legacy (toLowerCase t)) None tokens with
  | None => trim (collapse (take windowSize t))
  | Some b =>
      let start := b - windowSize / 3 in
      let end_ := length t `min` (start + windowSize) in
      trim (collapse (slice start end_ t))
  end.

(* ================================================================== *)
(** * src/router.ts *)
(* ================================================================== *)

Inductive QueryType : Type := Passport | Vehicle | Name.

(** [[A-Z]]. *)
Definition is_upper (c : N) : bool := ((65 <=? c) && (c <=? 90))%N.

(** [/^[A-Z]{1,2}\d{6,9}$/.test(q)]: the classes of the two runs are
    disjoint, so the letters matched are the whole leading run of capital
    letters. *)
Definition test_passport (q : jstring) : bool :=
  let letters := takeWhile is_upper q in
  let rest := dropWhile is_upper q in
  (1 <=? length letters) && (length letters <=? 2)
  && all_digits rest && (6 <=? length rest) && (length rest <=? 9).

(** The optional [\s] of the vehicle pattern. *)
Definition skip_one_space (s : jstring) : jstring :=
  match s with
  | c :: r => if is_ws c then r else s
  | [] => []
  end.

(** [/^[A-Z]{1,3}\s?\d{3,4}[A-Z]?$/.test(q)]. *)
Definition test_vehicle (q : jstring) : bool :=
  let letters := takeWhile is_upper q in
  let rest := skip_one_space (dropWhile is_upper q) in
  let digits := takeWhile is_digit rest in
  let tail := dropWhile is_digit rest in
  (1 <=? length letters) && (length letters <=? 3)
  && (3 <=? length digits) && (length digits <=? 4)
  && match tail with
     | [] => true
     | [c] => is_upper c
     | _ => false
     end.

Definition detectQueryType (input : jstring) : QueryType :=
  let q := trim input in
  if test_passport q then Passport
  else if test_vehicle q then Vehicle
  else Name.

(* ================================================================== *)
(** * The chat server *)
(* ================================================================== *)

(** [(v ?? []).map(norm)]: a value that is neither nullish nor an array
    has no [map], and the call raises a TypeError. *)
Definition map_norm (v : value) : outcome (list jstring) :=
  match v with
  | JUndef | JNull => Ok []
  | JArr xs => map_outcome call_norm xs
  | _ => Throw
  end.

(** The callback of the filter in [findPersonMatchesByName], for the
    normalised name [n]. *)
Definition name_matches (n : jstring) (p : value) : outcome bool :=
  let name := opt_prop p (u "name") in
  primary ←! call_norm (opt_prop name (u "primary_name"));
  aliases ←! map_norm (opt_prop name (u "aliases"));
  Ok (includes primary n || existsb (λ a, includes a n) aliases).

(** [findPersonMatchesByName(name)] on the dataset [data]. *)
Definition findPersonMatchesByName (data : dataset) (name : jstring)
  : outcome (list value) :=
  let n := norm_str name in
  if nonempty n then filter_outcome (name_matches n) (persons data)
  else Ok [].

(* ================================================================== *)
(** * Further notions used by the statements *)
(* ================================================================== *)

(** The scalar leaves of a value with their paths, in the order of the
    traversal that [flatten] and [collectMatchedFields] share. *)
Fixpoint leaves (obj : value) (prefix : jstring) : list (jstring * value) :=
  match obj with
  | JUndef | JNull => []
  | JArr xs =>
      (fix each (l : list value) (i : nat) : list (jstring * value) :=
         match l with
         | [] => []
         | v :: l' =>
             leaves v (prefix ++ u "[" ++ dec (Z.of_nat i) ++ u "]")
             ++ each l' (S i)
         end) xs O
  | JObj kvs =>
      (fix each (l : list (jstring * value)) : list (jstring * value) :=
         match l with
         | [] => []
         | (k, v) :: l' =>
             leaves v (if nonempty prefix then prefix ++ u "." ++ k else k)
             ++ each l'
         end) kvs
  | _ => [(prefix, obj)]
  end.

(** The flattened string of a leaf. *)
Definition render_leaf (pv : jstring * value) : jstring :=
  pv.1 ++ u "=" ++ js_String pv.2.

(** One of the terms occurs in the normalised value of the leaf. *)
Definition leaf_matches (ts : list jstring) (pv : jstring * value) : bool :=
  existsb (λ t, includes (norm pv.2) t) ts.

(** The set of matched paths after the leaves [l] have been visited. *)
Definition visit (ts : list jstring) (m : list jstring)
    (l : list (jstring * value)) : list jstring :=
  foldl (λ m pv, if leaf_matches ts pv then set_add pv.1 m else m) m l.

(** The number of values held by a filter object. *)
Definition count_values (fs : list (jstring * list jstring)) : nat :=
  sum_list_with (λ kv, length kv.2) fs.

(** A filter key as the parser writes it: lower-case letters and
    underscores, at least one. *)
Definition parsed_key (k : jstring) : Prop :=
  k ≠ [] ∧ Forall (λ c, is_key_char c = true ∧ lower_cu c = c) k.

(** The invariant of the accumulators over the loop. *)
Definition parser_invariant (n : nat) (acc : parsed) : Prop :=
  length (terms acc) + count_values (filters acc) = n
  ∧ NoDup (filters acc).*1
  ∧ Forall (λ kv, parsed_key kv.1 ∧ kv.2 ≠ []) (filters acc).

(** A record passes both stages of a parsed query. *)
Definition passes (pq : parsed) (o : value) : bool :=
  forallb (key_passes o) (filters pq) && passesTerms o (terms pq).

(** No own key of the filter object is an inherited name. *)
Definition own_keys_plain (acc : parsed) : Prop :=
  Forall (λ kv, inherited kv.1 = false) (filters acc).

(** A match with its capture in lower case. *)
Definition lower_match (m : token_kind * jstring) : token_kind * jstring :=
  (m.1, toLowerCase m.2).

(** A token that [searchDocuments] reports for a document with the search
    blob [blob]. *)
Definition reportable (blob : jstring) (t : jstring) : Prop :=
  2 ≤ length t ∧ Is_true (includes blob (toLowerCase t)).

(** A file of the listing that ends up in the index. *)
Definition indexable (encodeURIComponent : jstring → option jstring)
    (dir : docs_dir) (f : jstring) : Prop :=
  Is_true (endsWith_ci f (u ".pdf"))
  ∧ is_Some (pdf_text dir f) ∧ is_Some (encodeURIComponent f).

(** The property [k] of the inferred metadata of a file name. *)
Definition meta_field (f k : jstring) : value :=
  getProp (inferDocMetaFromFilename f) k.

(** A property that holds a value: neither [null] nor [undefined]. *)
Definition is_set (v : value) : Prop := is_nullish v = false.

(** The four properties of the metadata that name a record of the
    dataset, each with the collection [attachJsonMetadata] searches for
    it, in the order of its tests. *)
Definition record_links (data : dataset) : list (jstring * list value) :=
  [ (u "person_id", persons data);
    (u "vehicle_id", vehicles data);
    (u "case_id", cases data);
    (u "first_info_id", first_info_reports data) ].

Definition record_id_fields : list jstring :=
  [u "person_id"; u "vehicle_id"; u "case_id"; u "first_info_id"].

(** The strings a pattern of the router stands for: capital letters, then
    white space, then digits, then capital letters, each run with its
    bounds. *)
Definition plate_like (q : jstring) (l1 l2 s2 d1 d2 t2 : nat) : Prop :=
  ∃ L S D T, q = L ++ S ++ D ++ T
    ∧ Forall (λ c, is_upper c = true) L ∧ l1 ≤ length L ≤ l2
    ∧ Forall (λ c, is_ws c = true) S ∧ length S ≤ s2
    ∧ Forall (λ c, is_digit c = true) D ∧ d1 ≤ length D ≤ d2
    ∧ Forall (λ c, is_upper c = true) T ∧ length T ≤ t2.

(** A person record whose name has the shape of the dataset: the record
    is an object, its [name] is no array, the primary name is no array
    and the aliases, if any, are an array. *)
Definition plain_name (p : value) : bool :=
  match p with
  | JObj _ =>
      let name := getProp p (u "name") in
      match name with
      | JArr _ => false
      | _ =>
          match opt_prop name (u "primary_name"), opt_prop name (u "aliases") with
          | JArr _, _ => false
          | _, (JUndef | JNull | JArr _) => true
          | _, _ => false
          end
      end
  | _ => false
  end.

(** The records of a collection that a parsed query returns. *)
Definition hits (pq : parsed) (arr : list value) : list value :=
  (λ o, decorate o (terms pq)) <$> filter (λ o, Is_true (passes pq o)) arr.

(** The five collections of a dataset. *)
Definition collections (data : dataset) : list (list value) :=
  [persons data; vehicles data; first_info_reports data; cases data; trips data].

(* ================================================================== *)
(** * Properties *)
(* ================================================================== *)

(** ** Strings *)

Lemma startsWith_app (p r : jstring) : startsWith (p ++ r) p = true.
Proof. induction p as [|a p IH]; simpl; [done|]. rewrite N.eqb_refl. exact IH. Qed.

Lemma startsWith_inv (s p : jstring) :
  startsWith s p = true → ∃ r, s = p ++ r.
Proof.
  revert s. induction p as [|a p IH]; intros s H; simpl in *.
  - by exists s.
  - destruct s as [|b s]; [done|].
    apply andb_true_iff in H as [Hab H]. apply N.eqb_eq in Hab as ->.
    destruct (IH _ H) as [r ->]. by exists r.
Qed.

Lemma startsWith_iff (s p : jstring) :
  startsWith s p = true ↔ ∃ r, s = p ++ r.
Proof.
  split; [apply startsWith_inv|]. intros [r ->]. apply startsWith_app.
Qed.

Lemma indexOf_Some (s p : jstring) (i : nat) :
  indexOf s p = Some i →
  occurs_at s p i ∧ ∀ j, occurs_at s p j → i ≤ j.
Proof.
  revert i. induction s as [|c s IH]; intros i; simpl.
  - destruct (startsWith [] p) eqn:E; [|done].
    intros [= <-]. apply startsWith_inv in E as [r Hr].
    split; [exists r; simpl; split; [done|lia] | intros; lia].
  - destruct (startsWith (c :: s) p) eqn:E.
    + intros [= <-]. apply startsWith_inv in E as [r Hr].
      split; [exists r; simpl; split; [done|lia] | intros; lia].
    + destruct (indexOf s p) as [k|] eqn:Ek; [|done].
      intros [= <-]. destruct (IH k eq_refl) as [[r [Hr Hk]] Hmin].
      split; [exists r; simpl; split; [done|lia]|].
      intros [|j] [r' [Hr' Hj]].
      * simpl in Hr'. rewrite Hr', startsWith_app in E. done.
      * simpl in *. assert (k ≤ j); [|lia]. apply Hmin. exists r'. split; [done|lia].
Qed.

Lemma indexOf_None (s p : jstring) :
  indexOf s p = None → ∀ j, ¬ occurs_at s p j.
Proof.
  induction s as [|c s IH]; simpl.
  - destruct (startsWith [] p) eqn:E; [done|]. intros _ j [r [Hr Hj]].
    assert (j = 0) as -> by (simpl in Hj; lia). simpl in Hr.
    rewrite Hr, startsWith_app in E. done.
  - destruct (startsWith (c :: s) p) eqn:E; [done|].
    destruct (indexOf s p) eqn:Ek; [done|]. intros _ [|j] [r [Hr Hj]].
    + simpl in Hr. rewrite Hr, startsWith_app in E. done.
    + simpl in *. apply (IH eq_refl j). exists r. split; [done|lia].
Qed.

Lemma occurs_at_split (s p : jstring) (i : nat) :
  occurs_at s p i ↔ ∃ a b, s = a ++ p ++ b ∧ length a = i.
Proof.
  split.
  - intros [r [Hr Hi]]. exists (take i s), r. split.
    + by rewrite <- Hr, take_drop.
    + rewrite length_take. lia.
  - intros (a & b & -> & <-). exists b. split.
    + by rewrite drop_app_length.
    + rewrite length_app. lia.
Qed.

Lemma includes_iff (s p : jstring) :
  includes s p = true ↔ ∃ a b, s = a ++ p ++ b.
Proof.
  unfold includes. split.
  - destruct (indexOf s p) as [i|] eqn:E; [|done]. intros _.
    apply indexOf_Some in E as [H _]. apply occurs_at_split in H as (a & b & ? & _).
    by exists a, b.
  - intros (a & b & ->). destruct (indexOf _ p) eqn:E; [done|].
    exfalso. apply (indexOf_None _ _ E (length a)).
    apply occurs_at_split. by exists a, b.
Qed.

Lemma includes_nil (s : jstring) : includes s [] = true.
Proof. apply includes_iff. by exists [], s. Qed.

Lemma dropWhile_length (p : N → bool) (s : jstring) :
  length (dropWhile p s) ≤ length s.
Proof. induction s as [|c s IH]; simpl; [lia|]. destruct (p c); simpl; lia. Qed.

Lemma trim_length (s : jstring) : length (trim s) ≤ length s.
Proof.
  unfold trim, trimEnd, trimStart. rewrite length_rev.
  etrans; [apply dropWhile_length|]. rewrite length_rev. apply dropWhile_length.
Qed.

Lemma collapse_from_length (f : bool) (s : jstring) :
  length (collapse_from f s) ≤ length s.
Proof.
  revert f. induction s as [|c s IH]; intros f; simpl; [lia|].
  pose proof (IH true). pose proof (IH false).
  destruct (is_ws c); [destruct f|]; simpl; lia.
Qed.

(** ** Trimming *)

Lemma dropWhile_app_stop (p : N → bool) (a r : jstring) (y : N) :
  p y = false → dropWhile p (a ++ y :: r) = dropWhile p a ++ y :: r.
Proof.
  intros Hy. induction a as [|c a IH]; simpl; [by rewrite Hy|].
  by destruct (p c).
Qed.

Lemma dropWhile_head (p : N → bool) (s r : jstring) (y : N) :
  dropWhile p s = y :: r → p y = false.
Proof.
  induction s as [|c s IH]; simpl; [done|].
  destruct (p c) eqn:E; [done|]. by intros [= <- _].
Qed.

Lemma dropWhile_suffix (p : N → bool) (s : jstring) :
  ∃ a, s = a ++ dropWhile p s.
Proof.
  induction s as [|c s [a IH]]; simpl; [by exists []|].
  destruct (p c); [|by exists []]. exists (c :: a). simpl. by f_equal.
Qed.

Lemma dropWhile_id (p : N → bool) (s : jstring) :
  match s with [] => True | y :: _ => p y = false end → dropWhile p s = s.
Proof. destruct s as [|y s]; simpl; [done|]. by intros ->. Qed.

Lemma trimmed_trim_id (s : jstring) : trimmed s → trim s = s.
Proof.
  intros [H1 H2]. unfold trim, trimStart, trimEnd.
  rewrite (dropWhile_id _ s H1), (dropWhile_id _ (rev s) H2). apply rev_involutive.
Qed.

Lemma trim_trimmed (s : jstring) : trimmed (trim s).
Proof.
  unfold trim, trimEnd, trimStart, trimmed. rewrite rev_involutive.
  set (t := dropWhile is_ws s).
  assert (Ht : match t with [] => True | y :: _ => is_ws y = false end).
  { destruct t as [|y r] eqn:E; [done|]. by apply (dropWhile_head _ s r). }
  split.
  - destruct (dropWhile_suffix is_ws (rev t)) as [a Ha].
    destruct (dropWhile is_ws (rev t)) as [|z r] eqn:E; simpl; [done|].
    apply (f_equal (@rev N)) in Ha. rewrite rev_involutive, rev_app_distr in Ha.
    simpl in Ha. destruct (rev r ++ [z]) as [|y q] eqn:Eq.
    { by destruct (rev r). }
    simpl in Ha. rewrite Ha in Ht. done.
  - destruct (dropWhile is_ws (rev t)) as [|z r] eqn:E; [done|].
    by apply (dropWhile_head _ (rev t) r).
Qed.

Lemma trim_idemp (s : jstring) : trim (trim s) = trim s.
Proof. apply trimmed_trim_id, trim_trimmed. Qed.

Lemma trim_substring (s : jstring) : ∃ a b, s = a ++ trim s ++ b.
Proof.
  unfold trim, trimEnd, trimStart.
  destruct (dropWhile_suffix is_ws s) as [a Ha].
  destruct (dropWhile_suffix is_ws (rev (dropWhile is_ws s))) as [b Hb].
  exists a, (rev b). rewrite <- rev_app_distr, <- Hb, rev_involutive. done.
Qed.

(** A trimmed, non-empty string occurs in [trim x] as soon as it occurs in
    [x]. *)
Lemma substring_trim (w x : jstring) :
  w ≠ [] → trimmed w →
  (∃ a b, x = a ++ w ++ b) → ∃ a b, trim x = a ++ w ++ b.
Proof.
  intros Hne [Hh Hl] (a & b & ->).
  unfold trim, trimStart, trimEnd.
  assert (E1 : dropWhile is_ws (a ++ w ++ b) = dropWhile is_ws a ++ w ++ b).
  { destruct w as [|y w']; [done|]. by apply dropWhile_app_stop. }
  rewrite E1. set (a' := dropWhile is_ws a).
  destruct (rev w) as [|z q] eqn:Eq.
  { apply (f_equal length) in Eq. rewrite length_rev in Eq.
    destruct w; [done|discriminate]. }
  assert (E2 : rev (a' ++ w ++ b) = rev b ++ z :: (q ++ rev a')).
  { by rewrite !rev_app_distr, Eq, <- app_assoc. }
  rewrite E2, dropWhile_app_stop by done.
  exists a', (rev (dropWhile is_ws (rev b))).
  assert (E3 : rev (z :: (q ++ rev a')) = a' ++ w).
  { change (z :: (q ++ rev a')) with ((z :: q) ++ rev a').
    by rewrite <- Eq, rev_app_distr, !rev_involutive. }
  by rewrite rev_app_distr, E3, <- app_assoc.
Qed.

Lemma includes_trim_iff (w x : jstring) :
  w ≠ [] → trimmed w →
  includes (trim x) w = true ↔ includes x w = true.
Proof.
  intros Hne Hw. rewrite !includes_iff. split.
  - intros (a & b & Hab). destruct (trim_substring x) as (a' & b' & Hx).
    exists (a' ++ a), (b ++ b'). rewrite Hx at 1. rewrite Hab.
    by rewrite <- !app_assoc.
  - by apply substring_trim.
Qed.

(** ** Lower case *)

Lemma lower_cu_idemp (c : N) : lower_cu (lower_cu c) = lower_cu c.
Proof.
  unfold lower_cu.
  destruct ((65 <=? c)%N && (c <=? 90)%N) eqn:E; [|by rewrite E].
  apply andb_true_iff in E as [E1 E2].
  apply N.leb_le in E1, E2.
  destruct ((65 <=? c + 32)%N && (c + 32 <=? 90)%N) eqn:E'; [|done].
  apply andb_true_iff in E' as [_ E']. apply N.leb_le in E'. lia.
Qed.

Lemma toLowerCase_idemp (s : jstring) : toLowerCase (toLowerCase s) = toLowerCase s.
Proof.
  unfold toLowerCase. rewrite map_map. apply map_ext. apply lower_cu_idemp.
Qed.

Lemma toLowerCase_app (s t : jstring) :
  toLowerCase (s ++ t) = toLowerCase s ++ toLowerCase t.
Proof. apply map_app. Qed.

Lemma toLowerCase_length (s : jstring) : length (toLowerCase s) = length s.
Proof. apply length_map. Qed.

Lemma lowered_toLowerCase (s : jstring) : lowered (toLowerCase s).
Proof.
  unfold lowered, toLowerCase. apply Forall_forall. intros c Hc.
  apply list_elem_of_In, in_map_iff in Hc as (c' & <- & _). apply lower_cu_idemp.
Qed.

Lemma lowered_id (s : jstring) : lowered s → toLowerCase s = s.
Proof.
  unfold lowered, toLowerCase. induction 1 as [|c s Hc _ IH]; simpl; [done|].
  by rewrite Hc, IH.
Qed.

Lemma lowered_dropWhile (p : N → bool) (s : jstring) :
  lowered s → lowered (dropWhile p s).
Proof.
  unfold lowered. induction 1 as [|c s Hc Hs IH]; simpl; [constructor|].
  destruct (p c); [done|by constructor].
Qed.

Lemma lowered_trim (s : jstring) : lowered s → lowered (trim s).
Proof.
  intros H. unfold trim, trimEnd, trimStart, lowered.
  apply Forall_rev. apply lowered_dropWhile. apply Forall_rev.
  by apply lowered_dropWhile.
Qed.

Lemma norm_str_lowered (s : jstring) : lowered (norm_str s).
Proof. apply lowered_trim, lowered_toLowerCase. Qed.

Lemma norm_str_trimmed (s : jstring) : trimmed (norm_str s).
Proof. apply trim_trimmed. Qed.

(** ** The blank query *)

Lemma map_outcome_ok {A B} (f : A → outcome B) (g : A → B) (l : list A) :
  (∀ x, f x = Ok (g x)) → map_outcome f l = Ok (g <$> l).
Proof.
  intros Hf. induction l as [|x l IH]; simpl; [done|].
  by rewrite Hf, IH.
Qed.

Lemma omap_id_Some {A B} (g : A → B) (l : list A) :
  omap id ((λ x, Some (g x)) <$> l) = g <$> l.
Proof. induction l as [|x l IH]; csimpl; [done|]. by f_equal. Qed.

Lemma searchParsed_empty_query (arr : list value) :
  searchParsed arr empty_query = Ok ((λ o, decorate o []) <$> arr).
Proof.
  unfold searchParsed.
  rewrite (map_outcome_ok _ (λ o, Some (decorate o []))); [|done].
  simpl. by rewrite omap_id_Some.
Qed.

Lemma parseQuery_blank (input : jstring) :
  trim input = [] → parseQuery input = Ok empty_query.
Proof. intros Hblank. unfold parseQuery. by rewrite Hblank. Qed.

Lemma searchCollection_blank (arr : list value) (input : jstring) :
  trim input = [] →
  searchCollection arr input = Ok ((λ o, decorate o []) <$> arr).
Proof.
  intros Hblank. unfold searchCollection. rewrite (parseQuery_blank _ Hblank).
  apply searchParsed_empty_query.
Qed.

(** C1 (amended).  For an empty or white-space-only query string,
    [parseQuery] yields no term and no filter, and [searchCollection] then
    returns every record of the collection, each decorated with an empty
    list of matched terms and an empty list of matched fields; [searchAll]
    does so for each of the five collections. *)
Theorem blank_query_returns_every_record (arr : list value) (input : jstring) :
  trim input = [] →
  parseQuery input = Ok empty_query
  ∧ searchCollection arr input = Ok ((λ o, decorate o []) <$> arr)
  ∧ ∀ data, searchAll data input =
      Ok {| persons := (λ o, decorate o []) <$> persons data;
            vehicles := (λ o, decorate o []) <$> vehicles data;
            first_info_reports := (λ o, decorate o []) <$> first_info_reports data;
            cases := (λ o, decorate o []) <$> cases data;
            trips := (λ o, decorate o []) <$> trips data |}.
Proof.
  intros Hblank. split_and!.
  - by apply parseQuery_blank.
  - by apply searchCollection_blank.
  - intros data. unfold searchAll. by rewrite !(searchCollection_blank _ _ Hblank).
Qed.

Lemma blank_query_returns_every_record_witness :
  trim (u "   ") = []
  ∧ searchCollection [person_P0001] (u "   ") = Ok [decorate person_P0001 []].
Proof.
  split; [reflexivity|].
  apply (blank_query_returns_every_record [person_P0001] (u "   ")). reflexivity.
Defined.

Lemma blank_query_not_empty_result :
  parseQuery [] = Ok empty_query
  ∧ searchCollection [person_P0001] [] = Ok [decorate person_P0001 []]
  ∧ searchCollection [person_P0001] [] ≠ Ok [].
Proof. split_and!; [reflexivity|reflexivity|]. vm_compute. discriminate. Qed.

(** ** Tests over lists *)

Lemma existsb_elem_of {A} (f : A → bool) (l : list A) :
  existsb f l = true ↔ ∃ x, x ∈ l ∧ f x = true.
Proof.
  rewrite existsb_exists. split; intros (x & H1 & H2); exists x;
    (split; [by apply list_elem_of_In|done]).
Qed.

Lemma forallb_elem_of {A} (f : A → bool) (l : list A) :
  forallb f l = true ↔ ∀ x, x ∈ l → f x = true.
Proof.
  rewrite forallb_forall. split; intros H x Hx; apply H; by apply list_elem_of_In.
Qed.

Lemma passesTerms_iff (o : value) (ts : list jstring) :
  passesTerms o ts = true ↔
  ∀ t, t ∈ ts → ∃ f, f ∈ flatten o [] ∧ includes (norm_str f) t = true.
Proof.
  destruct ts as [|t0 ts].
  - simpl. split; [|done]. intros _ t Ht. by apply elem_of_nil in Ht.
  - unfold passesTerms. rewrite forallb_elem_of. apply forall_proper; intros t.
    apply forall_proper; intros Ht. rewrite existsb_elem_of. split.
    + intros (f' & Hf' & Hinc). apply list_elem_of_fmap in Hf' as (f & -> & Hf).
      by exists f.
    + intros (f & Hf & Hinc). exists (norm_str f). split; [|done].
      apply list_elem_of_fmap. by exists f.
Qed.

(** ** Parsed queries *)

Lemma assoc_None_not_elem {A} (k : jstring) (kvs : list (jstring * A)) (v : A) :
  assoc k kvs = None → (k, v) ∉ kvs.
Proof.
  induction kvs as [|[k' v'] kvs IH]; simpl; [intros _ H; by apply elem_of_nil in H|].
  case_bool_decide as E; [done|]. intros Hn H. apply elem_of_cons in H as [[= -> ->]|H]; [done|].
  by apply IH.
Qed.

Lemma push_at_parsed (k v : jstring) (fs : list (jstring * list jstring)) :
  lowered v → trimmed v → parsed_filters fs → parsed_filters (push_at k v fs).
Proof.
  intros Hl Ht. unfold parsed_filters. induction 1 as [|[k' ws] fs [Hk Hws] Hfs IH]; simpl; [constructor|].
  case_bool_decide; constructor; simpl in *; try done.
  split; [done|]. apply Forall_app. split; [done|]. by constructor.
Qed.

Lemma add_filter_parsed (k v : jstring) (fs fs' : list (jstring * list jstring)) :
  lowered v → trimmed v → parsed_filters fs →
  add_filter k v fs = Ok fs' → parsed_filters fs'.
Proof.
  intros Hl Ht Hfs. unfold add_filter. destruct (assoc k fs).
  - intros [= <-]. by apply push_at_parsed.
  - destruct (inherited k) eqn:E; [done|]. intros [= <-].
    apply Forall_app. split; [done|]. constructor; [|constructor].
    simpl. split; [done|]. by constructor.
Qed.

Lemma parse_step_parsed (acc acc' : parsed) (t : jstring) :
  parsed_filters (filters acc) ∧ parsed_terms (terms acc) →
  parse_step acc t = Ok acc' →
  parsed_filters (filters acc') ∧ parsed_terms (terms acc').
Proof.
  intros [Hfs Hts]. unfold parse_step, classify.
  destruct (matchKV (stripQuotes t)) as [[k v]|].
  - destruct (add_filter _ _ _) as [fs|] eqn:E; simpl; [|done].
    intros [= <-]. simpl. split; [|done].
    eapply add_filter_parsed; [| |done|exact E].
    + apply norm_str_lowered.
    + apply norm_str_trimmed.
  - intros [= <-]. simpl. split; [done|].
    apply Forall_app. split; [done|]. constructor; [|constructor].
    split; [apply norm_str_lowered|apply norm_str_trimmed].
Qed.

Lemma parse_tokens_parsed (acc pq : parsed) (ts : list jstring) :
  parsed_filters (filters acc) ∧ parsed_terms (terms acc) →
  parse_tokens acc ts = Ok pq →
  parsed_filters (filters pq) ∧ parsed_terms (terms pq).
Proof.
  revert acc. induction ts as [|t ts IH]; intros acc Hacc; simpl.
  - by intros [= <-].
  - destruct (parse_step acc t) as [acc'|] eqn:E; simpl; [|done].
    apply IH. by eapply parse_step_parsed.
Qed.

Lemma parseQuery_parsed_both (input : jstring) (pq : parsed) :
  parseQuery input = Ok pq →
  parsed_filters (filters pq) ∧ parsed_terms (terms pq).
Proof.
  unfold parseQuery. destruct (nonempty (trim input)).
  - apply parse_tokens_parsed. split; constructor.
  - intros [= <-]. split; constructor.
Qed.

Lemma parseQuery_parsed (input : jstring) (pq : parsed) :
  parseQuery input = Ok pq → parsed_filters (filters pq).
Proof. intros H. by apply parseQuery_parsed_both in H as [? _]. Qed.

Lemma parseQuery_parsed_terms (input : jstring) (pq : parsed) :
  parseQuery input = Ok pq → parsed_terms (terms pq).
Proof. intros H. by apply parseQuery_parsed_both in H as [_ ?]. Qed.

(** ** The filter stage *)

Lemma map_call_norm (vs : list value) :
  map_outcome call_norm vs
  = if forallb (λ v, negb (String_raises v)) vs then Ok (norm <$> vs) else Throw.
Proof.
  induction vs as [|v vs IH]; [done|]. cbn [map_outcome forallb]. unfold call_norm at 1.
  destruct (String_raises v); [done|]. cbn [obind negb andb]. rewrite IH.
  by destruct (forallb _ vs).
Qed.

Lemma hay_spec (o : value) (paths : list jstring) :
  hay o paths
  = if forallb (λ v, negb (String_raises v)) (resolved o paths)
    then Ok (hay_strings o paths) else Throw.
Proof.
  unfold hay, hay_strings. rewrite map_call_norm. by destruct (forallb _ _).
Qed.

Lemma hay_Ok (o : value) (paths : list jstring) (hs : list jstring) :
  hay o paths = Ok hs →
  hs = hay_strings o paths
  ∧ forallb (λ v, negb (String_raises v)) (resolved o paths) = true.
Proof. rewrite hay_spec. destruct (forallb _ _); [|done]. by intros [= <-]. Qed.

Lemma passesFilters_parsed (o : value) (fs : list (jstring * list jstring)) :
  Forall (λ kv, inherited kv.1 = false) fs →
  printable_for fs o = true →
  passesFilters o fs = Ok (forallb (key_passes o) fs).
Proof.
  induction 1 as [|[k ws] fs Hk _ IH]; [done|].
  cbn [printable_for passesFilters forallb]. unfold filter_paths, key_passes.
  cbn [fst snd] in *. intros [Hp Hps]%andb_true_iff.
  destruct (assoc k FILTER_PATHS) as [paths|].
  - rewrite hay_spec, Hp. cbn [obind].
    destruct (some_match ws (hay_strings o paths)); [by apply IH|done].
  - rewrite Hk. by apply IH.
Qed.





(** The filter stage returns [true] exactly when, for every key that the
    table knows, the hay is computed and one of the values matches it. *)
Lemma passesFilters_true_iff (o : value) (fs : list (jstring * list jstring)) :
  Forall (λ kv, inherited kv.1 = false) fs →
  passesFilters o fs = Ok true ↔
  ∀ k ws paths, (k, ws) ∈ fs → assoc k FILTER_PATHS = Some paths →
    ∃ hs, hay o paths = Ok hs ∧ some_match ws hs = true.
Proof.
  induction 1 as [|[k ws] fs Hk _ IH].
  - split; [|done]. intros _ k ws paths Hin. by apply elem_of_nil in Hin.
  - cbn [passesFilters]. unfold filter_paths. cbn [fst] in Hk.
    destruct (assoc k FILTER_PATHS) as [paths|] eqn:Ek.
    + destruct (hay o paths) as [hs|] eqn:Eh; cbn [obind].
      * destruct (some_match ws hs) eqn:Em.
        -- rewrite IH. split.
           ++ intros H k' ws' paths' Hin Hk'.
              apply elem_of_cons in Hin as [[= -> ->]|Hin]; [|by eapply H].
              exists hs. split; [congruence|done].
           ++ intros H k' ws' paths' Hin. apply H. by right.
        -- split; [done|]. intros H.
           destruct (H k ws paths) as (hs' & Hhs' & Hm); [left|done|]. congruence.
      * split; [done|]. intros H.
        destruct (H k ws paths) as (hs' & Hhs' & Hm); [left|done|]. congruence.
    + rewrite Hk, IH. split.
      * intros H k' ws' paths' Hin Hk'.
        apply elem_of_cons in Hin as [[= -> ->]|Hin]; [congruence|by eapply H].
      * intros H k' ws' paths' Hin. apply H. by right.
Qed.

(** ** All keys, any value *)



(** A normalised query value that is not empty matches the normalised hay
    value exactly when it occurs, up to case, in the string of the
    resolved value. *)
Lemma ci_substring_norm (w : jstring) (v : value) :
  w ≠ [] → lowered w → trimmed w →
  ci_substring w (norm v)
  ↔ ci_substring w (if is_nullish v then [] else js_String v).
Proof.
  intros Hne Hl Ht. unfold ci_substring, norm.
  set (s := if is_nullish v then [] else js_String v).
  rewrite (lowered_id w Hl), (lowered_id (trim _)) by apply lowered_trim, lowered_toLowerCase.
  rewrite <- !includes_iff. by apply includes_trim_iff.
Qed.

(** ** Keys that the table does not know *)

(** A key that the table does not know and that no object inherits is
    passed over by the filter stage. *)
Lemma passesFilters_unknown_key (o : value) (k : jstring) (ws : list jstring)
    (before after : list (jstring * list jstring)) :
  filter_paths k = Missing →
  passesFilters o (before ++ (k, ws) :: after) = passesFilters o (before ++ after).
Proof.
  intros Hk. induction before as [|[k' ws'] before IH].
  - cbn [app passesFilters]. by rewrite Hk.
  - cbn [app passesFilters]. rewrite IH. done.
Qed.

(** C5 (the code at the failing input).  The key [constructor] is not in
    the filter-path table, yet the query [constructor:x] does not return
    the result of the query without that filter: parsing it raises a
    TypeError, and so does the filter stage on a filter list holding that
    key. *)
Theorem inherited_filter_key_raises :
  filter_paths (u "constructor") = Inherited
  ∧ assoc (u "constructor") FILTER_PATHS = None
  ∧ parseQuery (u "constructor:x") = Throw
  ∧ (∀ arr, searchCollection arr (u "constructor:x") = Throw)
  ∧ (∀ arr, searchCollection arr [] = Ok ((λ o, decorate o []) <$> arr))
  ∧ (∀ o ws, passesFilters o [(u "constructor", ws)] = Throw).
Proof.
  split_and!; try reflexivity.
  intros arr. by apply searchCollection_blank.
Qed.

(** ** The term stage *)

(** A normalised term occurs in the normalised flattened string exactly
    when it occurs, up to case, in the flattened string itself. *)
Lemma includes_norm_str_ci (w f : jstring) :
  lowered w → trimmed w →
  includes (norm_str f) w = true ↔ ci_substring w f.
Proof.
  intros Hl Ht. unfold ci_substring. rewrite (lowered_id w Hl).
  destruct w as [|c w'].
  - rewrite includes_nil. split; [|done]. intros _. by exists [], (toLowerCase f).
  - unfold norm_str, norm. cbn [is_nullish js_String].
    rewrite includes_trim_iff by done. apply includes_iff.
Qed.

(** C4.  A record passes the term stage exactly when every free term is a
    substring of one of its flattened [path=value] strings, compared as
    the code compares them (lower-cased and trimmed); for the terms of a
    parsed query this is being a substring, up to case, of a flattened
    string.  So a record that passes with one more term passes without it,
    and the records of a collection that pass with the longer list are
    among those that pass with the shorter one, in the same order. *)
Theorem adding_a_term_never_grows (o : value) (ts : list jstring) (t : jstring) :
  (passesTerms o ts = true ↔
     ∀ w, w ∈ ts → ∃ f a b, f ∈ flatten o [] ∧ norm_str f = a ++ w ++ b)
  ∧ (∀ input pq, parseQuery input = Ok pq →
       (passesTerms o (terms pq) = true ↔
          ∀ w, w ∈ terms pq → ∃ f, f ∈ flatten o [] ∧ ci_substring w f))
  ∧ (passesTerms o (ts ++ [t]) = true → passesTerms o ts = true)
  ∧ ∀ arr, sublist (term_stage (ts ++ [t]) arr) (term_stage ts arr).
Proof.
  assert (Hmono : ∀ x, passesTerms x (ts ++ [t]) = true → passesTerms x ts = true).
  { intros x. rewrite !passesTerms_iff. intros H w Hw. apply H.
    apply elem_of_app. by left. }
  split_and!.
  - rewrite passesTerms_iff. apply forall_proper; intros w.
    apply forall_proper; intros Hw. split.
    + intros (f & Hf & Hinc). apply includes_iff in Hinc as (a & b & Hab).
      by exists f, a, b.
    + intros (f & a & b & Hf & Hab). exists f. split; [done|].
      apply includes_iff. by exists a, b.
  - intros input pq Hparse. apply parseQuery_parsed_terms in Hparse.
    rewrite passesTerms_iff. apply forall_proper; intros w.
    apply forall_proper; intros Hw.
    eapply Forall_forall in Hparse as [Hl Ht]; [|exact Hw].
    split; intros (f & Hf & H); exists f; (split; [done|]);
      by apply (includes_norm_str_ci w f Hl Ht).
  - apply Hmono.
  - intros arr. unfold term_stage. induction arr as [|x arr IH]; [done|].
    rewrite !filter_cons. destruct (decide (Is_true (passesTerms x (ts ++ [t])))) as [H|H].
    + apply Is_true_true in H. apply Hmono in H.
      rewrite decide_True by (by apply Is_true_true). by apply sublist_skip.
    + destruct (decide _); [by apply sublist_cons|done].
Qed.

Lemma adding_a_term_never_grows_witness :
  passesTerms person_P0001 ([u "tan"] ++ [u "wei"]) = true
  ∧ passesTerms person_P0001 [u "tan"] = true.
Proof.
  split; [reflexivity|].
  apply (adding_a_term_never_grows person_P0001 [u "tan"] (u "wei")). reflexivity.
Defined.

(** ** Tokens *)

Lemma takeWhile_dropWhile (p : N → bool) (s : jstring) :
  takeWhile p s ++ dropWhile p s = s.
Proof. induction s as [|c s IH]; simpl; [done|]. destruct (p c); simpl; by f_equal. Qed.

Lemma takeWhile_app_stop (p : N → bool) (a r : jstring) (y : N) :
  Forall (λ c, p c = true) a → p y = false →
  takeWhile p (a ++ y :: r) = a ∧ dropWhile p (a ++ y :: r) = y :: r.
Proof.
  intros Ha Hy. induction Ha as [|c a Hc _ IH]; simpl.
  - by rewrite Hy.
  - rewrite Hc. destruct IH as [-> ->]. done.
Qed.







Lemma length_le_scan_nil (s : jstring) (k : nat) :
  length s ≤ k → scan s k = [].
Proof.
  revert k. induction s as [|c s IH]; intros k Hk; simpl; [done|].
  destruct k as [|k]; simpl in Hk; [lia|]. apply IH. lia.
Qed.













(** ** The path resolver, element by element *)

Lemma flat_map_singleton {A} (l : list A) : flat_map (λ x, [x]) l = l.
Proof. induction l as [|x l IH]; simpl; [done|]. by rewrite IH. Qed.

Lemma flat_map_flat_map {A B C} (f : A → list B) (g : B → list C) (l : list A) :
  flat_map g (flat_map f l) = flat_map (λ x, flat_map g (f x)) l.
Proof.
  induction l as [|x l IH]; simpl; [done|].
  by rewrite flat_map_app, IH.
Qed.

Lemma getByPath_from_array (parts : list jstring) (xs : list value) :
  getByPath_from (JArr xs) parts = flat_map (resolve_elem parts) xs.
Proof.
  revert xs. induction parts as [|part rest IH]; intros xs.
  - simpl. by rewrite flat_map_singleton.
  - cbn [getByPath_from resolve_elem]. rewrite IH. unfold flatMap.
    apply flat_map_flat_map.
Qed.

Lemma getByPath_from_resolve (parts : list jstring) (v : value) :
  getByPath_from v parts = resolve parts v.
Proof.
  revert v. induction parts as [|part rest IH]; intros v.
  - destruct v; try done. simpl. by rewrite flat_map_singleton.
  - destruct v; try done; try (cbn [getByPath_from resolve]; apply IH).
    apply getByPath_from_array.
Qed.

Lemma table_paths_segments (k path : jstring) (paths : list jstring) :
  assoc k FILTER_PATHS = Some paths → path ∈ paths →
  Forall (λ p, p ∈ table_segments) (split_on cu_dot path).
Proof.
  intros Hk Hp. apply Forall_forall. intros p Hin. unfold table_segments.
  apply list_elem_of_In, in_flat_map. exists path.
  split; [|by apply list_elem_of_In].
  apply in_flat_map. exists (k, paths). split; [|by apply list_elem_of_In].
  clear Hp Hin. induction FILTER_PATHS as [|[k' ps] l IH]; [done|].
  cbn [assoc] in Hk. case_bool_decide as E.
  - injection Hk as ->. subst. by left.
  - right. by apply IH.
Qed.

Lemma resolver_keeps_absent_entries :
  Forall (λ p, p ∈ table_segments) (split_on cu_dot (u "contact.mobile_numbers"))
  ∧ getProp (JObj [(u "address", JStr (u "12 Jalan Besar"))]) (u "mobile_numbers")
    = JUndef
  ∧ getByPath record_contact_address (u "contact.mobile_numbers") = [JUndef]
  ∧ resolve_spec (split_on cu_dot (u "contact.mobile_numbers")) record_contact_address
    = []
  ∧ getByPath record_contact_address (u "contact.mobile_numbers") ≠ [].
Proof.
  split_and!; try reflexivity.
  - apply (bool_decide_unpack _). vm_compute. exact I.
  - vm_compute. discriminate.
Qed.

(** C3 (amended).  For every record and every path made of segments of
    the paths of the filter table - the paths the resolver is called with
    are among them - the path resolver returns what following each element
    of an array on its own through the remaining segments gives,
    concatenated in order and not deduplicated: an array-valued property
    is spliced in by one level, and an element that is falsy or lacks the
    segment leaves an [undefined] entry.  The result is empty when the
    value reached outside any array is null or absent. *)
Theorem resolver_fans_out_element_wise (obj : value) (parts : list jstring) :
  Forall (λ p, p ∈ table_segments) parts →
  getByPath_from obj parts = resolve parts obj
  ∧ (is_nullish obj = true → getByPath_from obj parts = [])
  ∧ (∀ xs, getByPath_from (JArr xs) parts = flat_map (resolve_elem parts) xs)
  ∧ (∀ xs ys,
       getByPath_from (JArr (xs ++ ys)) parts
       = getByPath_from (JArr xs) parts ++ getByPath_from (JArr ys) parts)
  ∧ (∀ k paths path,
       assoc k FILTER_PATHS = Some paths → path ∈ paths →
       Forall (λ p, p ∈ table_segments) (split_on cu_dot path)
       ∧ getByPath obj path = resolve (split_on cu_dot path) obj)
  ∧ getByPath record_contacts (u "contact.mobile_numbers")
    = [JStr (u "111"); JStr (u "222"); JStr (u "333"); JStr (u "111")].
Proof.
  intros _. split_and!.
  - apply getByPath_from_resolve.
  - intros Hv. destruct obj; try done; by destruct parts.
  - intros xs. apply getByPath_from_array.
  - intros xs ys. rewrite !getByPath_from_array. apply flat_map_app.
  - intros k paths path Hk Hp. split; [by eapply table_paths_segments|].
    apply getByPath_from_resolve.
  - reflexivity.
Qed.

Lemma resolver_fans_out_element_wise_witness :
  Forall (λ p, p ∈ table_segments) [u "contact"; u "mobile_numbers"]
  ∧ getByPath_from record_contacts [u "contact"; u "mobile_numbers"]
    = [JStr (u "111"); JStr (u "222"); JStr (u "333"); JStr (u "111")]
  ∧ getByPath_from (JArr [record_contacts; JNull; record_contact_address])
      [u "contact"; u "mobile_numbers"]
    = [JStr (u "111"); JStr (u "222"); JStr (u "333"); JStr (u "111");
       JUndef; JUndef].
Proof.
  assert (H : Forall (λ p, p ∈ table_segments) [u "contact"; u "mobile_numbers"]).
  { apply (bool_decide_unpack _). vm_compute. exact I. }
  split_and!; [exact H| |].
  - rewrite (proj1 (resolver_fans_out_element_wise record_contacts
                      [u "contact"; u "mobile_numbers"] H)).
    reflexivity.
  - rewrite (proj1 (proj2 (proj2 (resolver_fans_out_element_wise JNull
                      [u "contact"; u "mobile_numbers"] H)))).
    reflexivity.
Defined.

(** ** The snippet builder *)

Lemma token_at_snoc (t : jstring) (done : list jstring) (tok : jstring) (i : nat) :
  token_at t (done ++ [tok]) i ↔
  token_at t done i
  ∨ (2 ≤ length tok ∧ occurs_at (toLowerCase t) (toLowerCase tok) i).
Proof.
  unfold token_at. split.
  - intros (x & Hx & Hl & Ho). apply elem_of_app in Hx as [Hx|Hx].
    + left. by exists x.
    + apply list_elem_of_singleton in Hx as ->. by right.
  - intros [(x & Hx & Hl & Ho)|[Hl Ho]].
    + exists x. split_and!; [|done..]. apply elem_of_app. by left.
    + exists tok. split_and!; [|done..]. apply elem_of_app. right.
      by apply list_elem_of_singleton.
Qed.

Lemma best_step_earliest (t : jstring) (done : list jstring) (tok : jstring)
    (acc : option nat) :
  earliest_token t done acc →
  earliest_token t (done ++ [tok]) (best_step (toLowerCase t) acc tok).
Proof.
  intros Hacc. unfold best_step. rewrite toLowerCase_length.
  destruct (length tok <? 2) eqn:Hlen.
  { apply Nat.ltb_lt in Hlen.
    destruct acc as [b|]; simpl in *.
    - destruct Hacc as [Hb Hmin]. split.
      + apply token_at_snoc. by left.
      + intros j Hj. apply token_at_snoc in Hj as [Hj|[? _]]; [by apply Hmin|lia].
    - intros j Hj. apply token_at_snoc in Hj as [Hj|[? _]]; [by apply (Hacc j)|lia]. }
  apply Nat.ltb_ge in Hlen.
  destruct (indexOf (toLowerCase t) (toLowerCase tok)) as [idx|] eqn:Hidx.
  - apply indexOf_Some in Hidx as [Hocc Hfirst].
    destruct acc as [b|]; simpl in Hacc.
    + destruct Hacc as [Hb Hmin]. destruct (idx <? b) eqn:Hlt.
      * apply Nat.ltb_lt in Hlt. split.
        -- apply token_at_snoc. by right.
        -- intros j Hj. apply token_at_snoc in Hj as [Hj|[_ Hj]].
           ++ specialize (Hmin j Hj). lia.
           ++ by apply Hfirst.
      * apply Nat.ltb_ge in Hlt. split.
        -- apply token_at_snoc. by left.
        -- intros j Hj. apply token_at_snoc in Hj as [Hj|[_ Hj]].
           ++ by apply Hmin.
           ++ specialize (Hfirst j Hj). lia.
    + split.
      * apply token_at_snoc. by right.
      * intros j Hj. apply token_at_snoc in Hj as [Hj|[_ Hj]].
        -- by destruct (Hacc j).
        -- by apply Hfirst.
  - pose proof (indexOf_None _ _ Hidx) as Hnone.
    destruct acc as [b|]; simpl in *.
    + destruct Hacc as [Hb Hmin]. split.
      * apply token_at_snoc. by left.
      * intros j Hj. apply token_at_snoc in Hj as [Hj|[_ Hj]]; [by apply Hmin|].
        by destruct (Hnone j).
    + intros j Hj. apply token_at_snoc in Hj as [Hj|[_ Hj]]; [by apply (Hacc j)|].
      by destruct (Hnone j).
Qed.

Lemma foldl_best_step_earliest (t : jstring) (todo done : list jstring)
    (acc : option nat) :
  earliest_token t done acc →
  earliest_token t (done ++ todo) (foldl (best_step (toLowerCase t)) acc todo).
Proof.
  revert done acc. induction todo as [|tok todo IH]; intros done acc Hacc; simpl.
  - by rewrite app_nil_r.
  - replace (done ++ tok :: todo) with ((done ++ [tok]) ++ todo)
      by (by rewrite <- app_assoc).
    apply IH. by apply best_step_earliest.
Qed.

Lemma bestIdx_earliest (t : jstring) (tokens : list jstring) :
  earliest_token t tokens (bestIdx t tokens).
Proof.
  unfold bestIdx. apply (foldl_best_step_earliest t tokens [] None).
  intros j (x & Hx & _). by apply elem_of_nil in Hx.
Qed.

Lemma collapse_from_app_stop (f : bool) (a r : jstring) (y : N) :
  is_ws y = false →
  collapse_from f (a ++ y :: r) = collapse_from f a ++ y :: collapse_from false r.
Proof.
  intros Hy. revert f. induction a as [|c a IH]; intros f; simpl.
  - by rewrite Hy.
  - destruct (is_ws c); [destruct f|]; simpl; by rewrite IH.
Qed.

Lemma slice_length (a b : nat) (s : jstring) : length (slice a b s) ≤ b - a.
Proof. unfold slice. rewrite length_take. lia. Qed.

Lemma slice_around (pre mid post : jstring) (a b : nat) :
  a ≤ length pre → length pre + length mid ≤ b →
  ∃ x y, slice a b (pre ++ mid ++ post) = x ++ mid ++ y.
Proof.
  intros Ha Hb. unfold slice.
  rewrite drop_app_le by done.
  exists (drop a pre), (take (b - a - length (drop a pre) - length mid) post).
  rewrite take_app_ge by (rewrite length_drop; lia). f_equal.
  rewrite take_app_ge by (rewrite length_drop; lia). f_equal.
Qed.

Lemma collapse_keeps_phrase (f : bool) (x y : jstring) :
  collapse_from f (x ++ phrase ++ y)
  = collapse_from f x ++ phrase ++ collapse_from false y.
Proof.
  change (x ++ phrase ++ y) with (x ++ 84%N :: (u "anjung Pelepas" ++ y)).
  rewrite collapse_from_app_stop by reflexivity. reflexivity.
Qed.

Lemma phrase_trimmed : trimmed phrase.
Proof. split; reflexivity. Qed.

Lemma snippet_length (t : jstring) (tokens : list jstring) :
  length (buildSnippet t tokens) ≤ 272.
Proof.
  unfold buildSnippet. destruct (bestIdx t tokens) as [b|].
  - rewrite !length_app.
    pose proof (trim_length (collapse (slice (window_start b) (window_end t b) t))).
    pose proof (collapse_from_length false (slice (window_start b) (window_end t b) t)).
    pose proof (slice_length (window_start b) (window_end t b) t).
    unfold collapse in *. unfold window_start, window_end in *.
    destruct (0 <? b - 90); destruct (_ <? length t); simpl; lia.
  - destruct (220 <? length (trim (collapse t))) eqn:E.
    + rewrite length_app, length_take. cbn [length]. lia.
    + apply Nat.ltb_ge in E. lia.
Qed.

Lemma snippet_contains_phrase (pre post : jstring) (tokens : list jstring) :
  bestIdx (pre ++ phrase ++ post) tokens = Some (length pre) →
  includes (toLowerCase (buildSnippet (pre ++ phrase ++ post) tokens))
    (u "tanjung pelepas") = true.
Proof.
  intros Hb. unfold buildSnippet. rewrite Hb.
  set (t := pre ++ phrase ++ post).
  destruct (slice_around pre phrase post (window_start (length pre))
              (window_end t (length pre))) as (x & y & Hs).
  { unfold window_start. lia. }
  { unfold window_end, t. rewrite !length_app.
    change (length phrase) with 15. lia. }
  fold t in Hs. rewrite Hs. unfold collapse. rewrite collapse_keeps_phrase.
  destruct (substring_trim phrase
              (collapse_from false x ++ phrase ++ collapse_from false y))
    as (a & c & ->); [done|apply phrase_trimmed|by eexists _, _|].
  apply includes_iff.
  exists (toLowerCase ((if 0 <? window_start (length pre) then [ellipsis] else []) ++ a)),
         (toLowerCase (c ++ (if window_end t (length pre) <? length t
                             then [ellipsis] else []))).
  change (u "tanjung pelepas") with (toLowerCase phrase).
  rewrite !toLowerCase_app. by rewrite <- !app_assoc.
Qed.

Lemma short_token_falls_back_and_early_match_hides_phrase :
  indexOf (toLowerCase text_x95_a) (toLowerCase (u "a")) = Some 95
  ∧ buildSnippet text_x95_a [u "a"] = text_x95_a
  ∧ buildSnippet text_x95_a [u "a"] ≠ ellipsis :: slice 5 96 text_x95_a
  ∧ includes text_two_tanjung (u "Tanjung Pelepas") = true
  ∧ includes (toLowerCase (buildSnippet text_two_tanjung [u "tanjung"]))
      (u "tanjung pelepas") = false.
Proof.
  split_and!; try (vm_compute; reflexivity). vm_compute. discriminate.
Qed.

(** C7 (amended).  For an ASCII text and ASCII tokens, the snippet is built
    around the earliest occurrence, up to case, of a query token of two
    code units or more: the text from 90 code units before that occurrence
    to 180 after its start, with runs of white space collapsed, trimmed,
    and with an ellipsis at each end where the window stops short of the
    text's end.  When no such token occurs, it is the collapsed and
    trimmed text, cut to 220 code units and followed by an ellipsis when
    it was longer.  It never exceeds 270 code units and two ellipses.
    When the earliest occurrence is the start of [Tanjung Pelepas] in the
    text, the snippet contains [tanjung pelepas] up to case. *)
Theorem snippet_is_window_at_earliest_token (t : jstring) (tokens : list jstring) :
  ascii_only t = true → Forall (λ tok, ascii_only tok = true) tokens →
  earliest_token t tokens (bestIdx t tokens)
  ∧ (∀ b, bestIdx t tokens = Some b →
       buildSnippet t tokens
       = (if bool_decide (90 < b) then [ellipsis] else [])
         ++ trim (collapse (slice (b - 90) (length t `min` (b + 180)) t))
         ++ (if bool_decide (b + 180 < length t) then [ellipsis] else []))
  ∧ (bestIdx t tokens = None →
       buildSnippet t tokens
       = if bool_decide (220 < length (trim (collapse t)))
         then take 220 (trim (collapse t)) ++ [ellipsis]
         else trim (collapse t))
  ∧ length (buildSnippet t tokens) ≤ 272
  ∧ (∀ pre post,
       t = pre ++ u "Tanjung Pelepas" ++ post →
       bestIdx t tokens = Some (length pre) →
       includes (toLowerCase (buildSnippet t tokens)) (u "tanjung pelepas") = true)
  ∧ buildSnippet text_shipment [u "tanjung"] = text_shipment.
Proof.
  intros _ _. split_and!.
  - apply bestIdx_earliest.
  - intros b Hb. unfold buildSnippet. rewrite Hb. unfold window_start, window_end.
    f_equal; [|f_equal].
    + destruct (0 <? b - 90) eqn:E; case_bool_decide; try done.
      * apply Nat.ltb_lt in E. lia.
      * apply Nat.ltb_ge in E. lia.
    + destruct (_ <? length t) eqn:E; case_bool_decide; try done.
      * apply Nat.ltb_lt in E. lia.
      * apply Nat.ltb_ge in E. lia.
  - intros Hb. unfold buildSnippet. rewrite Hb.
    destruct (220 <? _) eqn:E; case_bool_decide; try done.
    + apply Nat.ltb_lt in E. lia.
    + apply Nat.ltb_ge in E. lia.
  - apply snippet_length.
  - intros pre post -> Hb. by apply snippet_contains_phrase.
  - vm_compute. reflexivity.
Qed.

Lemma snippet_is_window_at_earliest_token_witness :
  ascii_only text_shipment = true
  ∧ Forall (λ tok, ascii_only tok = true) [u "tanjung"]
  ∧ bestIdx text_shipment [u "tanjung"] = Some 24
  ∧ includes (toLowerCase (buildSnippet text_shipment [u "tanjung"]))
      (u "tanjung pelepas") = true.
Proof.
  assert (H1 : ascii_only text_shipment = true) by (vm_compute; reflexivity).
  assert (H2 : Forall (λ tok, ascii_only tok = true) [u "tanjung"])
    by (by repeat constructor).
  split_and!; [exact H1|exact H2|vm_compute; reflexivity|].
  apply (proj1 (proj2 (proj2 (proj2 (proj2
           (snippet_is_window_at_earliest_token text_shipment [u "tanjung"] H1 H2)))))
           (u "the shipment arrived at ") (u " on March 3")).
  - vm_compute. reflexivity.
  - vm_compute. reflexivity.
Defined.

(** ** The document index *)

Lemma omap_all_None {A B} (f : A → option B) (l : list A) :
  (∀ x, x ∈ l → f x = None) → omap f l = [].
Proof.
  induction l as [|x l IH]; intros Hn; csimpl; [done|].
  rewrite (Hn x) by (by left). apply IH. intros y Hy. apply Hn. by right.
Qed.

Lemma set_add_elem (x y : jstring) (s : list jstring) :
  x ∈ set_add y s → x ∈ s ∨ x = y.
Proof.
  unfold set_add. case_bool_decide; [by left|].
  intros Hx. apply elem_of_app in Hx as [Hx|Hx]; [by left|].
  right. by apply list_elem_of_singleton in Hx.
Qed.

Lemma foldl_set_add_elem (x : jstring) (l acc : list jstring) :
  x ∈ foldl (λ s y, set_add y s) acc l → x ∈ acc ∨ x ∈ l.
Proof.
  revert acc. induction l as [|y l IH]; intros acc; simpl; [by left|].
  intros H. apply IH in H as [H|H].
  - apply set_add_elem in H as [H| ->]; [by left|]. right. by left.
  - right. by right.
Qed.

Lemma uniq_elem (x : jstring) (l : list jstring) : x ∈ uniq l → x ∈ l.
Proof.
  intros H. apply foldl_set_add_elem in H as [H|H]; [|done].
  by apply elem_of_nil in H.
Qed.

(** Every token of a query is already trimmed. *)
Lemma parseQueryTokens_trimmed (q t : jstring) :
  t ∈ parseQueryTokens q → trim t = t.
Proof.
  unfold parseQueryTokens. destruct (nonempty (trim q)).
  - intros H. apply uniq_elem, list_elem_of_filter in H as [_ H].
    apply list_elem_of_fmap in H as (x & -> & _). apply trim_idemp.
  - intros H. by apply elem_of_nil in H.
Qed.

Lemma slice_to_length {A} (limit : Z) (xs : list A) :
  (0 ≤ limit)%Z → (Z.of_nat (length (slice_to limit xs)) ≤ limit)%Z.
Proof.
  intros H. unfold slice_to. destruct (limit <? 0)%Z eqn:E; [lia|].
  rewrite length_take. lia.
Qed.

Lemma slice_to_elem {A} (limit : Z) (xs : list A) (x : A) :
  x ∈ slice_to limit xs → x ∈ xs.
Proof.
  unfold slice_to. destruct (limit <? 0)%Z; apply subseteq_take.
Qed.

Section DocSearch.

Context {score : Type}.
Variable toFixed4 : score → score.
Variable JSON_stringify : value → jstring.
Variable encodeURIComponent : jstring → option jstring.
Variable now : jstring.
Variable Fuse : list doc → jstring → list (fuse_hit score).

(** C8.  When no PDF file of the directory can be read, building the index
    gives an index with no document, and every search of that index
    returns the empty list, whatever the query and the limit. *)
Theorem index_without_readable_pdf_is_empty (dir : docs_dir) (data : dataset) :
  (∀ f, f ∈ default [] (listing dir) →
        endsWith_ci f (u ".pdf") = true → pdf_text dir f = None) →
  docs (buildDocIndex JSON_stringify encodeURIComponent now Fuse dir data) = []
  ∧ ∀ q limit,
      searchDocuments toFixed4
        (buildDocIndex JSON_stringify encodeURIComponent now Fuse dir data)
        q limit = [].
Proof.
  intros Hnone.
  assert (E : docs (buildDocIndex JSON_stringify encodeURIComponent now Fuse dir data) = []).
  { unfold buildDocIndex. cbn [docs]. apply omap_all_None.
    intros f Hf. apply list_elem_of_filter in Hf as [Hpdf Hf].
    unfold index_file. rewrite (Hnone f Hf); [done|]. by apply Is_true_true. }
  split; [exact E|]. intros q limit. unfold searchDocuments. by rewrite E.
Qed.

(** C10 (amended).  For every index and query, and every limit that is
    not negative (20 when none is given), [searchDocuments] returns at
    most that many results; each result has at most 12 matched terms, each
    of them a query token of two code units or more whose lower case
    occurs in the search blob of the result's document. *)
Theorem search_results_are_bounded (idx : doc_index score) (q : jstring)
    (limit : option Z) :
  (0 ≤ default 20 limit)%Z →
  (Z.of_nat (length (searchDocuments toFixed4 idx q limit)) ≤ default 20 limit)%Z
  ∧ ∀ r, r ∈ searchDocuments toFixed4 idx q limit →
      length (matched_terms r) ≤ 12
      ∧ ∃ hit,
          hit ∈ fuse idx (trim (join [cu_space] (parseQueryTokens q)))
          ∧ r = to_result toFixed4 (parseQueryTokens q) hit
          ∧ ∀ t, t ∈ matched_terms r →
              t ∈ parseQueryTokens q
              ∧ 2 ≤ length t
              ∧ includes (search_blob (item hit)) (toLowerCase t) = true.
Proof.
  intros Hlimit. unfold searchDocuments.
  destruct (docs idx) as [|d ds].
  { split; [simpl; lia|]. intros r Hr. by apply elem_of_nil in Hr. }
  destruct (nonempty _).
  2:{ split; [simpl; lia|]. intros r Hr. by apply elem_of_nil in Hr. }
  split.
  - rewrite length_fmap. by apply slice_to_length.
  - intros r Hr. apply list_elem_of_fmap in Hr as (hit & -> & Hhit).
    apply slice_to_elem in Hhit. split.
    + cbn [to_result matched_terms]. unfold matched_terms_of.
      rewrite length_take. lia.
    + exists hit. split_and!; [done..|].
      intros t Ht. cbn [to_result matched_terms] in Ht. unfold matched_terms_of in Ht.
      apply subseteq_take in Ht.
      apply list_elem_of_filter in Ht as [Hblob Ht].
      apply list_elem_of_filter in Ht as [Hlen Ht].
      apply list_elem_of_fmap in Ht as (t' & -> & Ht').
      rewrite (parseQueryTokens_trimmed q t' Ht') in *.
      split_and!; [done..|]. by apply Is_true_true.
Qed.

End DocSearch.

Lemma index_without_readable_pdf_is_empty_witness :
  docs (buildDocIndex no_metadata Some [] Fuse_all dir_unreadable no_data) = []
  ∧ searchDocuments id
      (buildDocIndex no_metadata Some [] Fuse_all dir_unreadable no_data)
      (u "tan") (Some 5%Z) = [].
Proof.
  destruct (index_without_readable_pdf_is_empty id no_metadata Some [] Fuse_all
              dir_unreadable no_data) as [H1 H2].
  - intros f _ _. reflexivity.
  - split; [exact H1|apply H2].
Defined.

Lemma search_results_are_bounded_witness :
  (0 ≤ default 20 (Some 2))%Z
  ∧ (Z.of_nat (length (searchDocuments id index_three (u "tan") (Some 2%Z))) ≤ 2)%Z.
Proof.
  split; [simpl; lia|].
  apply (search_results_are_bounded id index_three (u "tan") (Some 2%Z)).
  simpl. lia.
Defined.

Lemma negative_limit_exceeds_bound :
  length (docs index_three) = 3
  ∧ length (searchDocuments id index_three (u "tan") (Some (-1)%Z)) = 2
  ∧ ¬ (Z.of_nat (length (searchDocuments id index_three (u "tan") (Some (-1)%Z)))
       ≤ -1)%Z.
Proof.
  assert (E : length (searchDocuments id index_three (u "tan") (Some (-1)%Z)) = 2)
    by (vm_compute; reflexivity).
  split_and!; [vm_compute; reflexivity|exact E|]. rewrite E. lia.
Qed.

(** ** The store *)

Lemma alloc_spec (c : cell) (h h' : heap) (l : loc) :
  alloc c h = (l, h') → h !! l = None ∧ h' = <[l := c]> h.
Proof.
  unfold alloc. intros [= <- <-]. split; [|done].
  apply not_elem_of_dom, is_fresh.
Qed.

Lemma alloc_subseteq (c : cell) (h h' : heap) (l : loc) :
  alloc c h = (l, h') → h ⊆ h'.
Proof.
  intros H. apply alloc_spec in H as [Hl ->]. by apply insert_subseteq.
Qed.

Lemma alloc_lookup (c : cell) (h h' : heap) (l : loc) :
  alloc c h = (l, h') → h' !! l = Some c.
Proof. intros H. apply alloc_spec in H as [_ ->]. apply lookup_insert_eq. Qed.

Lemma assoc_set_prop_eq {A} (k : jstring) (v : A) (fs : list (jstring * A)) :
  assoc k (set_prop k v fs) = Some v.
Proof.
  induction fs as [|[k' v'] fs IH]; simpl.
  - by rewrite bool_decide_eq_true_2.
  - case_bool_decide as E; simpl.
    + by rewrite bool_decide_eq_true_2.
    + by rewrite bool_decide_eq_false_2.
Qed.

Lemma assoc_set_prop_is_Some {A} (k k' : jstring) (v : A) (fs : list (jstring * A)) :
  is_Some (assoc k fs) → is_Some (assoc k (set_prop k' v fs)).
Proof.
  induction fs as [|[k0 v0] fs IH]; simpl; [by intros [? ?]|].
  case_bool_decide as E1; case_bool_decide as E2; simpl;
    rewrite ?bool_decide_eq_true_2, ?bool_decide_eq_false_2 by congruence; eauto.
Qed.

Lemma search_oneH_spec (n : nat) (pq : parsed) (lt : loc) (o : hval)
    (h h' : heap) (r : run (option hval)) :
  search_oneH n pq lt o h = (r, h') →
  h ⊆ h'
  ∧ ∀ e, r = Done (Some e) → fresh_decorated h h' e.
Proof.
  unfold search_oneH.
  destruct (reify n h o) as [v|]; [|by intros [= <- <-]].
  destruct (passesFilters v (filters pq)) as [[|]|]; try by intros [= <- <-].
  destruct (passesTerms v (terms pq)); [|by intros [= <- <-]].
  destruct (alloc (CArr _) h) as [lf h1] eqn:E1.
  destruct (alloc (CObj _) h1) as [lo h2] eqn:E2.
  intros [= <- <-].
  pose proof (alloc_subseteq _ _ _ _ E1) as S1.
  pose proof (alloc_subseteq _ _ _ _ E2) as S2.
  split; [by etrans|].
  intros e [= <-]. eexists lo, _. split_and!; [done| |by eapply alloc_lookup|..].
  - apply alloc_spec in E2 as [Hlo _].
    destruct (h !! lo) eqn:El; [|done].
    eapply lookup_weaken in El; [|exact S1]. congruence.
  - apply assoc_set_prop_is_Some. rewrite assoc_set_prop_eq. eauto.
  - rewrite assoc_set_prop_eq. eauto.
Qed.

Lemma fresh_decorated_mono (h0 h h' h'' : heap) (e : hval) :
  h0 ⊆ h → h' ⊆ h'' → fresh_decorated h h' e → fresh_decorated h0 h'' e.
Proof.
  intros S0 S1 (l & fs & -> & Hl & Hl' & Ht & Hf). exists l, fs.
  split_and!; [done| |by eapply lookup_weaken|done..].
  destruct (h0 !! l) eqn:E; [|done]. eapply lookup_weaken in E; [|exact S0]. congruence.
Qed.

Lemma map_run_spec (n : nat) (pq : parsed) (lt : loc) (os : list hval)
    (h h' : heap) (r : run (list (option hval))) :
  map_run n pq lt os h = (r, h') →
  h ⊆ h'
  ∧ ∀ rs, r = Done rs →
      length rs = length os
      ∧ ∀ e, Some e ∈ rs → fresh_decorated h h' e.
Proof.
  revert h h' r. induction os as [|o os IH]; intros h h' r; simpl.
  - intros [= <- <-]. split; [done|]. intros rs [= <-]. split; [done|].
    intros e He. by apply elem_of_nil in He.
  - destruct (search_oneH n pq lt o h) as [r1 h1] eqn:E1.
    apply search_oneH_spec in E1 as [S1 F1].
    destruct r1 as [x| |]; try (intros [= <- <-]; split; [done|intros; done]).
    destruct (map_run n pq lt os h1) as [r2 h2] eqn:E2.
    apply IH in E2 as [S2 F2].
    destruct r2 as [rs| |]; intros [= <- <-];
      (split; [by etrans|]); try done.
    intros rs' [= <-]. destruct (F2 rs eq_refl) as [Hlen Hrs].
    split; [simpl; by rewrite Hlen|].
    intros e He. apply elem_of_cons in He as [He|He].
    + subst x. apply (fresh_decorated_mono h h h1 h2); [done|exact S2|]. by apply F1.
    + apply (fresh_decorated_mono h h1 h2 h2); [exact S1|done|]. by apply Hrs.
Qed.

Lemma elem_of_omap_id {A} (x : A) (l : list (option A)) :
  x ∈ omap id l → Some x ∈ l.
Proof.
  intros H. apply list_elem_of_omap in H as (y & Hy & Hx). simpl in Hx. by subst y.
Qed.

(** C9.  A run of [searchCollection] on a store leaves every cell of the
    store as it was, the records and the collection array among them; when
    it ends normally, its result is an array that did not exist before,
    whose entries are objects that did not exist before and that carry
    the properties [matchedTerms] and [matchedFields]. *)
Theorem search_leaves_the_store_unchanged (n : nat) (arr : hval)
    (input : jstring) (h : heap) :
  h ⊆ (searchCollectionH n arr input h).2
  ∧ (∀ l c, h !! l = Some c → (searchCollectionH n arr input h).2 !! l = Some c)
  ∧ ∀ a, (searchCollectionH n arr input h).1 = Done a →
      ∃ la entries,
        a = HRef la ∧ h !! la = None
        ∧ (searchCollectionH n arr input h).2 !! la = Some (CArr entries)
        ∧ ∀ e, e ∈ entries →
            fresh_decorated h (searchCollectionH n arr input h).2 e.
Proof.
  assert (Hmain :
    h ⊆ (searchCollectionH n arr input h).2
    ∧ ∀ a, (searchCollectionH n arr input h).1 = Done a →
      ∃ la entries,
        a = HRef la ∧ h !! la = None
        ∧ (searchCollectionH n arr input h).2 !! la = Some (CArr entries)
        ∧ ∀ e, e ∈ entries →
            fresh_decorated h (searchCollectionH n arr input h).2 e).
  { unfold searchCollectionH.
    destruct (parseQuery input) as [pq|]; [|by split].
    destruct (alloc (CArr (HStr <$> terms pq)) h) as [lt h0] eqn:E0.
    pose proof (alloc_subseteq _ _ _ _ E0) as S0.
    destruct arr as [| | | | |la]; try by split.
    destruct (h0 !! la) as [[fs|os]|]; try by split.
    destruct (map_run n pq lt os h0) as [r h1] eqn:E1.
    apply map_run_spec in E1 as [S1 F1].
    destruct r as [rs| |]; try (split; [by etrans|done]).
    destruct (alloc (CArr (default HNull <$> rs)) h1) as [lm h2] eqn:E2.
    destruct (alloc (CArr (omap id rs)) h2) as [lr h3] eqn:E3.
    pose proof (alloc_subseteq _ _ _ _ E2) as S2.
    pose proof (alloc_subseteq _ _ _ _ E3) as S3.
    assert (S : h ⊆ h3) by (etrans; [exact S0|]; etrans; [exact S1|]; by etrans).
    split; [exact S|]. cbn [fst snd].
    intros a [= <-]. exists lr, (omap id rs). split_and!; [done| |by eapply alloc_lookup|].
    - apply alloc_spec in E3 as [Hlr _].
      destruct (h !! lr) eqn:El; [|done].
      assert (h ⊆ h2) by (etrans; [exact S0|]; by etrans).
      eapply lookup_weaken in El; [|done]. congruence.
    - intros e He. apply elem_of_omap_id in He.
      destruct (F1 rs eq_refl) as [_ Hrs].
      apply (fresh_decorated_mono h h0 h1 h3); [exact S0| |by apply Hrs]. by etrans. }
  destruct Hmain as [Hsub Hres]. split_and!; [done| |done].
  intros l c Hl. by eapply lookup_weaken.
Qed.

Lemma search_leaves_the_store_unchanged_witness :
  heap_example !! 2%positive
  = Some (CObj [(u "name", HRef 3%positive); (u "gender", HStr (u "male"))])
  ∧ (searchCollectionH 3 (HRef 1%positive) (u "tan") heap_example).2 !! 2%positive
    = Some (CObj [(u "name", HRef 3%positive); (u "gender", HStr (u "male"))]).
Proof.
  split; [reflexivity|].
  apply (proj1 (proj2 (search_leaves_the_store_unchanged 3 (HRef 1%positive)
                         (u "tan") heap_example))).
  reflexivity.
Defined.

(** ** The store and the trees agree *)

Local Arguments reify : simpl never.
Local Arguments alloc : simpl never.

Lemma reify_ref (n : nat) (h : heap) (l : loc) :
  reify (S n) h (HRef l) =
  match h !! l with
  | None => None
  | Some (CObj fs) => JObj <$> mapM (reify_field n h) fs
  | Some (CArr xs) => JArr <$> mapM (reify n h) xs
  end.
Proof. reflexivity. Qed.

Lemma reify_mono (n : nat) (h h' : heap) (x : hval) (v : value) :
  h ⊆ h' → reify n h x = Some v → reify n h' x = Some v.
Proof.
  intros Hsub. revert x v. induction n as [|n IH]; intros x v.
  { by destruct x. }
  destruct x; try done. rewrite !reify_ref.
  destruct (h !! l) as [c|] eqn:El; [|done].
  rewrite (lookup_weaken _ _ _ _ El Hsub). destruct c as [fs|xs].
  - intros H. apply fmap_Some in H as (kvs & H & ->).
    apply mapM_Some in H. rewrite (proj2 (mapM_Some (reify_field n h') fs kvs)); [done|].
    eapply Forall2_impl; [exact H|]. intros [k y] kv. unfold reify_field. simpl.
    intros Hy. apply fmap_Some in Hy as (w & Hw & ->). by rewrite (IH _ _ Hw).
  - intros H. apply fmap_Some in H as (vs & H & ->).
    apply mapM_Some in H. rewrite (proj2 (mapM_Some (reify n h') xs vs)); [done|].
    eapply Forall2_impl; [exact H|]. intros y w. apply IH.
Qed.

Lemma mapM_reify_strings (n : nat) (h : heap) (ts : list jstring) :
  mapM (reify n h) (HStr <$> ts) = Some (JStr <$> ts).
Proof.
  apply mapM_Some. induction ts as [|t ts IH]; csimpl; constructor; [|done].
  by destruct n.
Qed.

Lemma reify_strings (n : nat) (h : heap) (l : loc) (ts : list jstring) :
  h !! l = Some (CArr (HStr <$> ts)) →
  reify (S n) h (HRef l) = Some (strings ts).
Proof.
  intros Hl. rewrite reify_ref, Hl, mapM_reify_strings. done.
Qed.

Lemma mapM_set_prop (g : hval → option value) (k : jstring) (x : hval)
    (y : value) (fs : list (jstring * hval)) (kvs : list (jstring * value)) :
  g x = Some y →
  mapM (λ kv, pair kv.1 <$> g kv.2) fs = Some kvs →
  mapM (λ kv, pair kv.1 <$> g kv.2) (set_prop k x fs) = Some (set_prop k y kvs).
Proof.
  intros Hx. rewrite !mapM_Some. intros H.
  induction H as [|[k1 x1] [k2 y2] fs kvs H1 H IH]; simpl.
  - constructor; [|constructor]. simpl. by rewrite Hx.
  - simpl in H1. apply fmap_Some in H1 as (w & Hw & [= -> ->]).
    case_bool_decide; constructor; simpl; try done.
    + by rewrite Hx.
    + by rewrite Hw.
Qed.

Lemma mapM_imap_elems (g : hval → option value) (xs : list hval)
    (vs : list value) (f : nat → jstring) :
  mapM g xs = Some vs →
  mapM (λ kv, pair kv.1 <$> g kv.2) (imap (λ i x, (f i, x)) xs)
  = Some (imap (λ i v, (f i, v)) vs).
Proof.
  rewrite !mapM_Some. intros H. revert f.
  induction H as [|x v xs vs Hx H IH]; intros f; simpl; constructor.
  - simpl. by rewrite Hx.
  - apply (IH (f ∘ S)).
Qed.

Lemma mapM_imap_chars (g : hval → option value) (s : jstring) (f : nat → jstring) :
  (∀ c, g (HStr [c]) = Some (JStr [c])) →
  mapM (λ kv, pair kv.1 <$> g kv.2) (imap (λ i c, (f i, HStr [c])) s)
  = Some (imap (λ i c, (f i, JStr [c])) s).
Proof.
  intros Hg. rewrite mapM_Some. revert f.
  induction s as [|c s IH]; intros f; simpl; constructor.
  - simpl. by rewrite Hg.
  - apply (IH (f ∘ S)).
Qed.

(** The properties copied by the spread of [o] read as those of the
    spread of its tree. *)
Lemma hspread_spread (n : nat) (h : heap) (o : hval) (v : value) :
  reify (S n) h o = Some v →
  mapM (reify_field n h) (hspread h o) = Some (spread v).
Proof.
  destruct o; try (intros [= <-]; done).
  - intros [= <-]. unfold hspread, spread.
    apply (mapM_imap_chars (reify n h) s (λ i, dec (Z.of_nat i))).
    intros c. by destruct n.
  - rewrite reify_ref. unfold hspread. destruct (h !! l) as [[fs|xs]|]; [| |done].
    + intros H. apply fmap_Some in H as (kvs & H & ->). done.
    + intros H. apply fmap_Some in H as (vs & H & ->).
      by apply (mapM_imap_elems (reify n h) xs vs (λ i, dec (Z.of_nat i))).
Qed.

Lemma agrees_mono (n : nat) (h h' : heap) (r : option hval) (d : option value) :
  h ⊆ h' → agrees n h r d → agrees n h' r d.
Proof.
  intros Hsub. destruct r, d; simpl; try done. by apply reify_mono.
Qed.

Lemma search_oneH_agrees (n : nat) (pq : parsed) (lt : loc) (o : hval)
    (h : heap) (v : value) :
  reify (S (S n)) h o = Some v →
  h !! lt = Some (CArr (HStr <$> terms pq)) →
  match search_one pq v with
  | Throw => (search_oneH (S (S n)) pq lt o h).1 = Raised
  | Ok d =>
      ∃ r, (search_oneH (S (S n)) pq lt o h).1 = Done r
           ∧ agrees (S (S n)) (search_oneH (S (S n)) pq lt o h).2 r d
  end.
Proof.
  intros Hv Hlt. unfold search_oneH, search_one. rewrite Hv.
  destruct (passesFilters v (filters pq)) as [[|]|]; cbn [obind negb fst snd];
    [|by exists None|done].
  destruct (passesTerms v (terms pq)); cbn [negb fst snd]; [|by exists None].
  destruct (alloc (CArr _) h) as [lf h1] eqn:E1.
  destruct (alloc (CObj _) h1) as [lo h2] eqn:E2.
  pose proof (alloc_subseteq _ _ _ _ E1) as S1.
  pose proof (alloc_subseteq _ _ _ _ E2) as S2.
  pose proof (alloc_lookup _ _ _ _ E1) as L1.
  pose proof (alloc_lookup _ _ _ _ E2) as L2.
  eexists. split; [done|]. cbn [agrees snd].
  rewrite reify_ref, L2. unfold decorate.
  assert (Hs : mapM (reify_field (S n) h2) (hspread h o) = Some (spread v)).
  { pose proof (hspread_spread _ _ _ _ Hv) as H.
    apply mapM_Some in H. apply mapM_Some.
    eapply Forall2_impl; [exact H|]. intros [k x] kv. unfold reify_field.
    cbn [fst snd]. intros Hx. apply fmap_Some in Hx as (w & Hw & ->).
    rewrite (reify_mono _ h h2 _ _ (transitivity S1 S2) Hw). done. }
  unfold reify_field in *.
  erewrite (mapM_set_prop (reify (S n) h2)); [done| |].
  - apply reify_strings. by apply (lookup_weaken _ _ _ _ L1).
  - apply mapM_set_prop; [|exact Hs].
    apply reify_strings. apply (lookup_weaken h); [done|by etrans].
Qed.

Lemma map_run_agrees (n : nat) (pq : parsed) (lt : loc) (os : list hval)
    (vs : list value) (h : heap) :
  Forall2 (λ o v, reify (S (S n)) h o = Some v) os vs →
  h !! lt = Some (CArr (HStr <$> terms pq)) →
  match map_outcome (search_one pq) vs with
  | Throw => (map_run (S (S n)) pq lt os h).1 = Raised
  | Ok ds =>
      ∃ rs, (map_run (S (S n)) pq lt os h).1 = Done rs
            ∧ Forall2 (agrees (S (S n)) (map_run (S (S n)) pq lt os h).2) rs ds
  end.
Proof.
  revert vs h. induction os as [|o os IH]; intros vs h Hall Hlt.
  - apply Forall2_nil_inv_l in Hall as ->. simpl. exists []. by split.
  - apply Forall2_cons_inv_l in Hall as (v & vs' & Hv & Hvs & ->).
    cbn [map_outcome map_run].
    pose proof (search_oneH_agrees n pq lt o h v Hv Hlt) as H1.
    destruct (search_oneH (S (S n)) pq lt o h) as [r1 h1] eqn:E1.
    pose proof (search_oneH_spec _ _ _ _ _ _ _ E1) as [S1 _].
    destruct (search_one pq v) as [d|]; simpl in *; [|by rewrite H1].
    destruct H1 as (r & -> & Hr).
    assert (Hvs1 : Forall2 (λ o v, reify (S (S n)) h1 o = Some v) os vs').
    { eapply Forall2_impl; [exact Hvs|]. intros ? ?. by apply reify_mono. }
    specialize (IH vs' h1 Hvs1 (lookup_weaken _ _ _ _ Hlt S1)).
    destruct (map_run (S (S n)) pq lt os h1) as [r2 h2] eqn:E2.
    pose proof (map_run_spec _ _ _ _ _ _ _ E2) as [S2 _].
    destruct (map_outcome (search_one pq) vs') as [ds|]; simpl in *.
    + destruct IH as (rs & -> & Hrs). exists (r :: rs). split; [done|].
      constructor; [|done]. by apply (agrees_mono _ h1).
    + by rewrite IH.
Qed.

Lemma mapM_omap_agrees (n : nat) (h : heap) (rs : list (option hval))
    (ds : list (option value)) :
  Forall2 (agrees n h) rs ds →
  mapM (reify n h) (omap id rs) = Some (omap id ds).
Proof.
  intros H. apply mapM_Some.
  induction H as [|r d rs ds Hr _ IH]; csimpl; [constructor|].
  destruct r, d; simpl in *; try done. by constructor.
Qed.

(** On a store whose array [la] holds elements that read as the trees
    [vs], the search over the store ends as the search over [vs] does: by
    the same TypeError, or with an array that reads as its result. *)
Lemma searchCollectionH_agrees (n : nat) (la : loc) (os : list hval)
    (vs : list value) (input : jstring) (h : heap) :
  h !! la = Some (CArr os) →
  Forall2 (λ o v, reify (S (S n)) h o = Some v) os vs →
  match searchCollection vs input with
  | Throw => (searchCollectionH (S (S n)) (HRef la) input h).1 = Raised
  | Ok ds =>
      ∃ a, (searchCollectionH (S (S n)) (HRef la) input h).1 = Done a
           ∧ reify (S (S (S n))) (searchCollectionH (S (S n)) (HRef la) input h).2 a
             = Some (JArr ds)
  end.
Proof.
  intros Hla Hall. unfold searchCollection, searchCollectionH.
  destruct (parseQuery input) as [pq|]; cbn [obind]; [|done].
  destruct (alloc (CArr (HStr <$> terms pq)) h) as [lt h0] eqn:E0.
  pose proof (alloc_subseteq _ _ _ _ E0) as S0.
  pose proof (alloc_lookup _ _ _ _ E0) as L0.
  rewrite (lookup_weaken _ _ _ _ Hla S0).
  assert (Hall0 : Forall2 (λ o v, reify (S (S n)) h0 o = Some v) os vs).
  { eapply Forall2_impl; [exact Hall|]. intros ? ?. by apply reify_mono. }
  pose proof (map_run_agrees n pq lt os vs h0 Hall0 L0) as H.
  unfold searchParsed.
  destruct (map_run (S (S n)) pq lt os h0) as [r h1] eqn:E1.
  destruct (map_outcome (search_one pq) vs) as [ds|]; cbn [obind fst snd] in *;
    [|by rewrite H].
  destruct H as (rs & -> & Hrs).
  destruct (alloc (CArr (default HNull <$> rs)) h1) as [lm h2] eqn:E2.
  destruct (alloc (CArr (omap id rs)) h2) as [lr h3] eqn:E3.
  pose proof (alloc_subseteq _ _ _ _ E2) as S2.
  pose proof (alloc_subseteq _ _ _ _ E3) as S3.
  exists (HRef lr). split; [done|]. cbn [snd].
  rewrite reify_ref, (alloc_lookup _ _ _ _ E3).
  rewrite (mapM_omap_agrees _ _ rs ds); [done|].
  eapply Forall2_impl; [exact Hrs|]. intros r d. apply agrees_mono. by etrans.
Qed.

(* ================================================================== *)
(** * Further properties of the code *)
(* ================================================================== *)

(** ** Leaves *)

Lemma value_ind_nested (P : value → Prop) :
  P JUndef → P JNull → (∀ b, P (JBool b)) → (∀ z, P (JNum z)) →
  (∀ s, P (JStr s)) →
  (∀ xs, Forall P xs → P (JArr xs)) →
  (∀ kvs, Forall (λ kv, P kv.2) kvs → P (JObj kvs)) →
  ∀ v, P v.
Proof.
  intros HU HN HB HZ HS HA HO.
  exact (fix IH (v : value) : P v :=
           match v with
           | JUndef => HU
           | JNull => HN
           | JBool b => HB b
           | JNum z => HZ z
           | JStr s => HS s
           | JArr xs =>
               HA xs ((fix all (l : list value) : Forall P l :=
                         match l with
                         | [] => Forall_nil_2 P
                         | x :: l' => Forall_cons_2 P x l' (IH x) (all l')
                         end) xs)
           | JObj kvs =>
               HO kvs ((fix all (l : list (jstring * value))
                          : Forall (λ kv, P kv.2) l :=
                          match l with
                          | [] => Forall_nil_2 _
                          | kv :: l' => Forall_cons_2 _ kv l' (IH kv.2) (all l')
                          end) kvs)
           end).
Qed.

Lemma flatten_leaves (o : value) (prefix : jstring) :
  flatten o prefix = render_leaf <$> leaves o prefix.
Proof.
  revert prefix. induction o as [ | |b|z|s|xs IH|kvs IH] using value_ind_nested;
    intros prefix; try done.
  - cbn [flatten leaves]. generalize 0.
    induction IH as [|x xs Hx _ IHxs]; intros i; [done|].
    rewrite fmap_app, <- Hx, <- IHxs. done.
  - cbn [flatten leaves].
    induction IH as [|[k x] kvs Hx _ IHkvs]; [done|].
    rewrite fmap_app, <- Hx, <- IHkvs. done.
Qed.

Lemma leaves_scalar (o : value) (prefix p : jstring) (v : value) :
  (p, v) ∈ leaves o prefix →
  match v with JBool _ | JNum _ | JStr _ => True | _ => False end.
Proof.
  revert prefix. induction o as [ | |b|z|s|xs IH|kvs IH] using value_ind_nested;
    intros prefix; cbn [leaves]; intros H.
  - by apply elem_of_nil in H.
  - by apply elem_of_nil in H.
  - apply list_elem_of_singleton in H. by injection H as -> ->.
  - apply list_elem_of_singleton in H. by injection H as -> ->.
  - apply list_elem_of_singleton in H. by injection H as -> ->.
  - revert H. generalize 0. induction IH as [|x xs Hx _ IHxs]; intros i H.
    + by apply elem_of_nil in H.
    + apply elem_of_app in H as [H|H]; [by eapply Hx|by eapply IHxs].
  - induction IH as [|[k x] kvs Hx _ IHkvs].
    + by apply elem_of_nil in H.
    + apply elem_of_app in H as [H|H]; [by eapply Hx|by apply IHkvs].
Qed.

Lemma set_add_idemp (x : jstring) (s : list jstring) :
  set_add x (set_add x s) = set_add x s.
Proof.
  unfold set_add. destruct (bool_decide (x ∈ s)) eqn:E.
  - by rewrite E.
  - rewrite bool_decide_eq_true_2; [done|].
    apply elem_of_app. right. by apply list_elem_of_singleton.
Qed.

Lemma set_add_iff (x y : jstring) (s : list jstring) :
  x ∈ set_add y s ↔ x ∈ s ∨ x = y.
Proof.
  unfold set_add. case_bool_decide as E.
  - split; [by left|]. by intros [?| ->].
  - rewrite elem_of_app, list_elem_of_singleton. done.
Qed.

Lemma set_add_NoDup (y : jstring) (s : list jstring) :
  NoDup s → NoDup (set_add y s).
Proof.
  intros Hs. unfold set_add. case_bool_decide as E; [done|].
  apply NoDup_app. split_and!; [done| |apply NoDup_singleton].
  intros x Hx Hy. apply list_elem_of_singleton in Hy as ->. done.
Qed.

Lemma add_matches_spec (val path : jstring) (ts m : list jstring) :
  add_matches val path ts m
  = if existsb (λ t, includes val t) ts then set_add path m else m.
Proof.
  unfold add_matches. revert m. induction ts as [|t ts IH]; intros m; simpl; [done|].
  rewrite IH. destruct (includes val t); simpl; [|done].
  destruct (existsb _ ts); [apply set_add_idemp|done].
Qed.

Lemma walk_leaves (ts : list jstring) (o : value) (path : jstring)
    (m : list jstring) :
  walk ts o path m = visit ts m (leaves o path).
Proof.
  revert path m. induction o as [ | |b|z|s|xs IH|kvs IH] using value_ind_nested;
    intros path m; try done;
    try (cbn [walk leaves]; unfold visit; simpl; apply add_matches_spec).
  - cbn [walk leaves]. generalize 0. revert m.
    induction IH as [|x xs Hx _ IHxs]; intros m i; [done|].
    unfold visit in *. rewrite foldl_app, <- Hx. apply IHxs.
  - cbn [walk leaves]. revert m.
    induction IH as [|[k x] kvs Hx _ IHkvs]; intros m; [done|].
    unfold visit in *. rewrite foldl_app, <- Hx. apply IHkvs.
Qed.

Lemma visit_iff (ts : list jstring) (l : list (jstring * value))
    (m : list jstring) (p : jstring) :
  p ∈ visit ts m l ↔
  p ∈ m ∨ ∃ v, (p, v) ∈ l ∧ leaf_matches ts (p, v) = true.
Proof.
  unfold visit. revert m. induction l as [|[q w] l IH]; intros m; simpl.
  - split; [by left|]. intros [?|(v & H & _)]; [done|]. by apply elem_of_nil in H.
  - rewrite IH. destruct (leaf_matches ts (q, w)) eqn:E; simpl.
    + rewrite set_add_iff. split.
      * intros [[?| ->]|(v & H & Hm)]; [by left| |].
        -- right. exists w. split; [by left|done].
        -- right. exists v. split; [by right|done].
      * intros [?|(v & H & Hm)]; [by left; left|].
        apply elem_of_cons in H as [[= -> ->]|H]; [left; by right|].
        right. by exists v.
    + split.
      * intros [?|(v & H & Hm)]; [by left|]. right. exists v. split; [by right|done].
      * intros [?|(v & H & Hm)]; [by left|].
        apply elem_of_cons in H as [[= -> ->]|H]; [congruence|].
        right. by exists v.
Qed.

Lemma visit_NoDup (ts : list jstring) (l : list (jstring * value))
    (m : list jstring) :
  NoDup m → NoDup (visit ts m l).
Proof.
  unfold visit. revert m. induction l as [|pv l IH]; intros m Hm; simpl; [done|].
  apply IH. destruct (leaf_matches ts pv); [by apply set_add_NoDup|done].
Qed.

(** X1: the matched fields are, without repetition, the paths of the
    scalar leaves whose normalised value contains one of the terms; each
    is the path of one of the flattened strings of the record. *)
Theorem matched_fields_are_matching_leaf_paths (o : value) (ts : list jstring) :
  NoDup (collectMatchedFields o ts)
  ∧ (∀ p, p ∈ collectMatchedFields o ts ↔
          ∃ v t, (p, v) ∈ leaves o [] ∧ t ∈ ts ∧ includes (norm v) t = true)
  ∧ flatten o [] = render_leaf <$> leaves o []
  ∧ (∀ p, p ∈ collectMatchedFields o ts →
          ∃ v, p ++ u "=" ++ js_String v ∈ flatten o []).
Proof.
  assert (Hiff : ∀ p, p ∈ collectMatchedFields o ts ↔
            ∃ v t, (p, v) ∈ leaves o [] ∧ t ∈ ts ∧ includes (norm v) t = true).
  { intros p. unfold collectMatchedFields. rewrite walk_leaves, visit_iff.
    unfold leaf_matches. split.
    - intros [H|(v & Hv & Hm)]; [by apply elem_of_nil in H|].
      apply existsb_elem_of in Hm as (t & Ht & Hinc). by exists v, t.
    - intros (v & t & Hv & Ht & Hinc). right. exists v. split; [done|].
      apply existsb_elem_of. by exists t. }
  split_and!.
  - unfold collectMatchedFields. rewrite walk_leaves. apply visit_NoDup, NoDup_nil_2.
  - exact Hiff.
  - apply flatten_leaves.
  - intros p Hp. apply Hiff in Hp as (v & t & Hv & _). exists v.
    rewrite flatten_leaves. apply list_elem_of_fmap. by exists (p, v).
Qed.

Lemma matched_fields_are_matching_leaf_paths_witness :
  u "name.primary_name" ∈ collectMatchedFields person_P0001 [u "tan"]
  ∧ ∃ v, u "name.primary_name" ++ u "=" ++ js_String v ∈ flatten person_P0001 [].
Proof.
  assert (H : u "name.primary_name" ∈ collectMatchedFields person_P0001 [u "tan"]).
  { apply (bool_decide_unpack _). vm_compute. exact I. }
  split; [exact H|].
  exact (proj2 (proj2 (proj2
           (matched_fields_are_matching_leaf_paths person_P0001 [u "tan"])))
           (u "name.primary_name") H).
Defined.

(** ** What the parser keeps *)

Lemma assoc_push_at_eq (k v : jstring) (fs : list (jstring * list jstring))
    (ws : list jstring) :
  assoc k fs = Some ws → assoc k (push_at k v fs) = Some (ws ++ [v]).
Proof.
  induction fs as [|[k' ws'] fs IH]; simpl; [done|].
  case_bool_decide as E; simpl.
  - intros [= ->]. by rewrite bool_decide_eq_true_2.
  - intros H. rewrite bool_decide_eq_false_2 by done. by apply IH.
Qed.

Lemma assoc_push_at_ne (k k' v : jstring) (fs : list (jstring * list jstring)) :
  k' ≠ k → assoc k' (push_at k v fs) = assoc k' fs.
Proof.
  intros Hne. induction fs as [|[k0 ws0] fs IH]; simpl; [done|].
  destruct (bool_decide (k = k0)) eqn:E; simpl.
  - apply bool_decide_eq_true in E as <-. by rewrite bool_decide_eq_false_2.
  - by rewrite IH.
Qed.

Lemma assoc_app_None {A} (k : jstring) (fs gs : list (jstring * A)) :
  assoc k fs = None → assoc k (fs ++ gs) = assoc k gs.
Proof.
  induction fs as [|[k0 v0] fs IH]; simpl; [done|].
  case_bool_decide; [done|exact IH].
Qed.

Lemma assoc_app_Some {A} (k : jstring) (fs gs : list (jstring * A)) (v : A) :
  assoc k fs = Some v → assoc k (fs ++ gs) = Some v.
Proof.
  induction fs as [|[k0 v0] fs IH]; simpl; [done|].
  case_bool_decide; [done|exact IH].
Qed.

Lemma push_at_keys (k v : jstring) (fs : list (jstring * list jstring)) :
  (push_at k v fs).*1 = fs.*1.
Proof.
  induction fs as [|[k0 ws0] fs IH]; [done|]. cbn [push_at].
  case_bool_decide; csimpl; [done|by f_equal].
Qed.

Lemma count_values_cons (k : jstring) (ws : list jstring)
    (fs : list (jstring * list jstring)) :
  count_values ((k, ws) :: fs) = length ws + count_values fs.
Proof. reflexivity. Qed.

Lemma push_at_count (k v : jstring) (fs : list (jstring * list jstring)) :
  is_Some (assoc k fs) → count_values (push_at k v fs) = S (count_values fs).
Proof.
  induction fs as [|[k0 ws0] fs IH]; [by intros [? ?]|].
  cbn [push_at assoc]. case_bool_decide as E.
  - intros _. rewrite !count_values_cons, length_app. simpl. lia.
  - intros H. rewrite !count_values_cons, IH by done. lia.
Qed.

Lemma assoc_None_keys {A} (k : jstring) (fs : list (jstring * A)) :
  assoc k fs = None ↔ k ∉ fs.*1.
Proof.
  induction fs as [|[k0 v0] fs IH]; simpl.
  - split; [intros _ H; by apply elem_of_nil in H|done].
  - case_bool_decide as E.
    + split; [done|]. intros H. destruct H. subst. by left.
    + rewrite IH, not_elem_of_cons. split; [by intros ?|by intros [_ ?]].
Qed.

(** X2: [filters[key].push(val)], read back: on success the key holds its
    former values followed by the new one, and every other key holds what
    it held. *)
Theorem add_filter_appends_value (k v : jstring)
    (fs fs' : list (jstring * list jstring)) :
  add_filter k v fs = Ok fs' →
  assoc k fs' = Some (default [] (assoc k fs) ++ [v])
  ∧ ∀ k', k' ≠ k → assoc k' fs' = assoc k' fs.
Proof.
  unfold add_filter. destruct (assoc k fs) as [ws|] eqn:E.
  - intros [= <-]. split.
    + by apply assoc_push_at_eq.
    + intros k' Hne. by apply assoc_push_at_ne.
  - destruct (inherited k); [done|]. intros [= <-]. split.
    + rewrite assoc_app_None by done. simpl. by rewrite bool_decide_eq_true_2.
    + intros k' Hne. destruct (assoc k' fs) as [ws'|] eqn:E'.
      * by apply assoc_app_Some.
      * rewrite assoc_app_None by done. simpl. by rewrite bool_decide_eq_false_2.
Qed.

Lemma add_filter_appends_value_witness :
  add_filter (u "gender") (u "f") [(u "gender", [u "male"])]
  = Ok [(u "gender", [u "male"; u "f"])]
  ∧ assoc (u "gender") [(u "gender", [u "male"; u "f"])]
    = Some (default [] (assoc (u "gender") [(u "gender", [u "male"])]) ++ [u "f"]).
Proof.
  split; [reflexivity|].
  apply (add_filter_appends_value (u "gender") (u "f")
           [(u "gender", [u "male"])] [(u "gender", [u "male"; u "f"])]).
  reflexivity.
Defined.

Lemma is_ws_printable (c : N) : (33 ≤ c ≤ 126)%N → is_ws c = false.
Proof.
  intros Hc. unfold is_ws.
  replace (c <=? 13)%N with false by (symmetry; apply N.leb_gt; lia).
  replace (c =? 32)%N with false by (symmetry; apply N.eqb_neq; lia).
  replace (c =? 160)%N with false by (symmetry; apply N.eqb_neq; lia).
  replace (c =? 5760)%N with false by (symmetry; apply N.eqb_neq; lia).
  replace (8192 <=? c)%N with false by (symmetry; apply N.leb_gt; lia).
  replace (c =? 8232)%N with false by (symmetry; apply N.eqb_neq; lia).
  replace (c =? 8233)%N with false by (symmetry; apply N.eqb_neq; lia).
  replace (c =? 8239)%N with false by (symmetry; apply N.eqb_neq; lia).
  replace (c =? 8287)%N with false by (symmetry; apply N.eqb_neq; lia).
  replace (c =? 12288)%N with false by (symmetry; apply N.eqb_neq; lia).
  replace (c =? 65279)%N with false by (symmetry; apply N.eqb_neq; lia).
  by rewrite andb_false_r.
Qed.

Lemma is_key_char_range (c : N) : is_key_char c = true → (65 ≤ c ≤ 122)%N.
Proof.
  unfold is_key_char. intros H.
  apply orb_true_iff in H as [H|H]; [apply orb_true_iff in H as [H|H]|].
  - apply andb_true_iff in H as [H1 H2]. apply N.leb_le in H1, H2. lia.
  - apply andb_true_iff in H as [H1 H2]. apply N.leb_le in H1, H2. lia.
  - apply N.eqb_eq in H. lia.
Qed.

Lemma lower_cu_cases (c : N) :
  ((65 ≤ c ≤ 90)%N ∧ lower_cu c = (c + 32)%N)
  ∨ (¬ (65 ≤ c ≤ 90)%N ∧ lower_cu c = c).
Proof.
  unfold lower_cu. destruct (N.leb_spec 65 c); destruct (N.leb_spec c 90); simpl;
    (left; split; [lia|done]) || (right; split; [lia|done]).
Qed.

Lemma is_key_char_lower (c : N) : is_key_char (lower_cu c) = is_key_char c.
Proof.
  destruct (lower_cu_cases c) as [[Hc ->]|[_ ->]]; [|done].
  unfold is_key_char.
  replace (65 <=? c)%N with true by (symmetry; apply N.leb_le; lia).
  replace (c <=? 90)%N with true by (symmetry; apply N.leb_le; lia).
  replace (97 <=? c + 32)%N with true by (symmetry; apply N.leb_le; lia).
  replace (c + 32 <=? 122)%N with true by (symmetry; apply N.leb_le; lia).
  simpl. by rewrite orb_true_r.
Qed.

Lemma is_ws_lower (c : N) : is_ws (lower_cu c) = is_ws c.
Proof.
  destruct (lower_cu_cases c) as [[Hc ->]|[_ ->]]; [|done].
  rewrite !is_ws_printable by lia. done.
Qed.

Lemma norm_str_key (k : jstring) :
  k ≠ [] → Forall (λ c, is_key_char c = true) k → parsed_key (norm_str k).
Proof.
  intros Hne Hk.
  assert (Hl : Forall (λ c, is_key_char c = true ∧ lower_cu c = c) (toLowerCase k)).
  { unfold toLowerCase. apply Forall_fmap. eapply Forall_impl; [exact Hk|].
    intros c Hc. cbn. rewrite is_key_char_lower, lower_cu_idemp. done. }
  assert (Hws : ∀ c, is_key_char c = true → is_ws c = false).
  { intros c Hc. apply is_key_char_range in Hc. apply is_ws_printable. lia. }
  unfold norm_str, norm. cbn [is_nullish js_String].
  rewrite trimmed_trim_id.
  - split; [by destruct k|done].
  - split.
    + destruct (toLowerCase k) as [|y r] eqn:E; [done|].
      apply Forall_cons in Hl as [[Hy _] _]. by apply Hws.
    + destruct (rev (toLowerCase k)) as [|y r] eqn:E; [done|].
      apply Forall_rev in Hl. rewrite E in Hl.
      apply Forall_cons in Hl as [[Hy _] _]. by apply Hws.
Qed.

Lemma takeWhile_Forall (p : N → bool) (s : jstring) :
  Forall (λ c, p c = true) (takeWhile p s).
Proof.
  induction s as [|c s IH]; simpl; [constructor|].
  destruct (p c) eqn:E; by constructor.
Qed.

Lemma matchKV_key (t k v : jstring) :
  matchKV t = Some (k, v) →
  k ≠ [] ∧ Forall (λ c, is_key_char c = true) k.
Proof.
  unfold matchKV. pose proof (takeWhile_Forall is_key_char t) as HF.
  destruct (takeWhile is_key_char t) as [|c k'] eqn:E; [done|].
  destruct (dropWhile is_key_char t) as [|d [|e r]]; try done.
  destruct (_ && _); [|done]. intros [= <- <-]. done.
Qed.

Lemma classify_Filter_key (t k v : jstring) :
  classify t = Filter k v → parsed_key k.
Proof.
  unfold classify. destruct (matchKV (stripQuotes t)) as [[k0 v0]|] eqn:E; [|done].
  intros [= <- <-]. apply matchKV_key in E as [Hne Hk]. by apply norm_str_key.
Qed.

Lemma count_values_app (fs gs : list (jstring * list jstring)) :
  count_values (fs ++ gs) = count_values fs + count_values gs.
Proof. apply sum_list_with_app. Qed.

Lemma push_at_Forall (P : jstring → Prop) (k v : jstring)
    (fs : list (jstring * list jstring)) :
  Forall (λ kv, P kv.1 ∧ kv.2 ≠ []) fs →
  Forall (λ kv, P kv.1 ∧ kv.2 ≠ []) (push_at k v fs).
Proof.
  induction 1 as [|[k0 ws0] fs [H1 H2] Hfs IH]; cbn [push_at]; [constructor|].
  cbn [fst snd] in *. case_bool_decide.
  - constructor; [|exact Hfs]. cbn [fst snd]. split; [done|]. by destruct ws0.
  - constructor; [|exact IH]. by cbn [fst snd].
Qed.

Lemma parse_step_invariant (n : nat) (acc acc' : parsed) (t : jstring) :
  parser_invariant n acc → parse_step acc t = Ok acc' →
  parser_invariant (S n) acc'.
Proof.
  intros (Hn & Hnd & Hk). unfold parse_step.
  destruct (classify t) as [k v|w] eqn:Ec.
  - apply classify_Filter_key in Ec.
    unfold add_filter. destruct (assoc k (filters acc)) as [ws|] eqn:E.
    + intros [= <-]. unfold parser_invariant. cbn [terms filters]. split_and!.
      * rewrite push_at_count by (rewrite E; eauto). lia.
      * by rewrite push_at_keys.
      * by apply push_at_Forall.
    + destruct (inherited k); [done|]. intros [= <-]. unfold parser_invariant. cbn [terms filters].
      split_and!.
      * rewrite count_values_app, count_values_cons. simpl. lia.
      * rewrite fmap_app. apply NoDup_app. split_and!; [done| |apply NoDup_singleton].
        intros x Hx Hy. apply list_elem_of_singleton in Hy. simpl in Hy. subst x.
        by apply assoc_None_keys in E.
      * apply Forall_app. split; [done|]. constructor; [|constructor]. done.
  - intros [= <-]. unfold parser_invariant. cbn [terms filters]. split_and!; [|done..].
    rewrite length_app. simpl. lia.
Qed.

Lemma parse_tokens_invariant (n : nat) (acc pq : parsed) (ts : list jstring) :
  parser_invariant n acc → parse_tokens acc ts = Ok pq →
  parser_invariant (n + length ts) pq.
Proof.
  revert n acc. induction ts as [|t ts IH]; intros n acc Hacc; simpl.
  - intros [= <-]. by rewrite Nat.add_0_r.
  - destruct (parse_step acc t) as [acc'|] eqn:E; simpl; [|done].
    intros H. replace (n + S (length ts)) with (S n + length ts) by lia.
    eapply IH; [|exact H]. by eapply parse_step_invariant.
Qed.

(** X3: every token of a query becomes one term or one filter value, and
    the filter keys are distinct, each a non-empty run of lower-case
    letters and underscores holding at least one value. *)
Theorem parseQuery_accounts_for_every_token (input : jstring) (pq : parsed) :
  parseQuery input = Ok pq →
  length (terms pq) + count_values (filters pq) = length (tokenize (trim input))
  ∧ NoDup (filters pq).*1
  ∧ ∀ k ws, (k, ws) ∈ filters pq → parsed_key k ∧ ws ≠ [].
Proof.
  unfold parseQuery. intros H.
  assert (Hinv : parser_invariant (length (tokenize (trim input))) pq).
  { destruct (nonempty (trim input)) eqn:E.
    - apply (parse_tokens_invariant 0 empty_query) in H; [done|].
      split_and!; [done|constructor|constructor].
    - injection H as <-. destruct (trim input); [|done].
      split_and!; [done|constructor|constructor]. }
  destruct Hinv as (Hn & Hnd & Hk). split_and!; [done..|].
  intros k ws Hin. by eapply Forall_forall in Hk; [|exact Hin].
Qed.

Lemma parseQuery_accounts_for_every_token_witness :
  parseQuery (u "tan gender:male gender:f")
  = Ok {| terms := [u "tan"]; filters := [(u "gender", [u "male"; u "f"])] |}
  ∧ length [u "tan"] + count_values [(u "gender", [u "male"; u "f"])]
    = length (tokenize (trim (u "tan gender:male gender:f"))).
Proof.
  split; [reflexivity|].
  apply (parseQuery_accounts_for_every_token (u "tan gender:male gender:f")
           {| terms := [u "tan"]; filters := [(u "gender", [u "male"; u "f"])] |}).
  reflexivity.
Defined.

(** ** When the parser raises *)

Lemma inherited_parsed_key (k : jstring) :
  parsed_key k → inherited k = true →
  k = u "constructor" ∨ k = u "__proto__".
Proof.
  intros [_ Hk] Hin. unfold inherited in Hin. apply bool_decide_eq_true in Hin.
  assert (Hl : toLowerCase k = k).
  { apply lowered_id. eapply Forall_impl; [exact Hk|]. by intros c [_ ?]. }
  unfold objectPrototypeKeys in Hin.
  repeat (apply elem_of_cons in Hin as [->|Hin];
          [first [by left | by right | vm_compute in Hl; discriminate]|]).
  by apply elem_of_nil in Hin.
Qed.

Lemma parse_step_Throw (acc : parsed) (t : jstring) :
  own_keys_plain acc →
  parse_step acc t = Throw ↔ ∃ k v, classify t = Filter k v ∧ inherited k = true.
Proof.
  intros Hacc. unfold parse_step. destruct (classify t) as [k v|w].
  - unfold add_filter. destruct (assoc k (filters acc)) as [ws|] eqn:E.
    + split; [done|]. intros (k' & v' & [= <- <-] & Hin).
      assert (Hk : k ∈ (filters acc).*1).
      { destruct (decide (k ∈ (filters acc).*1)) as [?|Hn]; [done|].
        apply assoc_None_keys in Hn. congruence. }
      apply list_elem_of_fmap in Hk as ([k0 ws0] & -> & Hk).
      eapply Forall_forall in Hacc; [|exact Hk]. simpl in *. congruence.
    + destruct (inherited k) eqn:Hin; simpl.
      * split; [|done]. intros _. by exists k, v.
      * split; [done|]. intros (k' & v' & [= <- <-] & ?). congruence.
  - split; [done|]. by intros (k & v & ? & _).
Qed.

Lemma push_at_Forall_keys (P : jstring → Prop) (k v : jstring)
    (fs : list (jstring * list jstring)) :
  Forall (λ kv, P kv.1) fs → Forall (λ kv, P kv.1) (push_at k v fs).
Proof.
  induction 1 as [|[k0 ws0] fs H0 Hfs IH]; cbn [push_at]; [constructor|].
  case_bool_decide; by constructor.
Qed.

Lemma parse_step_own_keys (acc acc' : parsed) (t : jstring) :
  own_keys_plain acc → parse_step acc t = Ok acc' → own_keys_plain acc'.
Proof.
  intros Hacc. unfold parse_step. destruct (classify t) as [k v|w].
  - unfold add_filter. destruct (assoc k (filters acc)) as [ws|] eqn:E.
    + intros [= <-]. unfold own_keys_plain in *. cbn [filters].
      by apply (push_at_Forall_keys (λ k, inherited k = false)).
    + destruct (inherited k) eqn:Hin; [done|]. intros [= <-].
      unfold own_keys_plain in *. cbn [filters]. apply Forall_app. split; [done|].
      by constructor.
  - by intros [= <-].
Qed.

Lemma parse_tokens_Throw (acc : parsed) (ts : list jstring) :
  own_keys_plain acc →
  parse_tokens acc ts = Throw ↔
  ∃ t k v, t ∈ ts ∧ classify t = Filter k v ∧ inherited k = true.
Proof.
  revert acc. induction ts as [|t ts IH]; intros acc Hacc; simpl.
  - split; [done|]. intros (t & k & v & H & _). by apply elem_of_nil in H.
  - destruct (parse_step acc t) as [acc'|] eqn:E; simpl.
    + rewrite IH by (by eapply parse_step_own_keys). split.
      * intros (t' & k & v & Ht & Hc & Hin). exists t', k, v. split; [by right|done].
      * intros (t' & k & v & Ht & Hc & Hin).
        apply elem_of_cons in Ht as [->|Ht]; [|by exists t', k, v].
        assert (parse_step acc t = Throw); [|congruence].
        apply parse_step_Throw; [done|]. by exists k, v.
    + split; [|done]. intros _.
      apply parse_step_Throw in E as (k & v & Hc & Hin); [|done].
      exists t, k, v. split; [by left|done].
Qed.

(** X4: parsing a query raises (a TypeError) exactly when one of its tokens
    is a filter whose key, lower-cased, is [constructor] or [__proto__];
    every other query is parsed. *)
Theorem parseQuery_raises_on_inherited_keys_only (input : jstring) :
  parseQuery input = Throw ↔
  ∃ t v, t ∈ tokenize (trim input)
         ∧ (classify t = Filter (u "constructor") v
            ∨ classify t = Filter (u "__proto__") v).
Proof.
  unfold parseQuery. destruct (nonempty (trim input)) eqn:Ene.
  - rewrite parse_tokens_Throw by constructor. split.
    + intros (t & k & v & Ht & Hc & Hin). exists t, v. split; [done|].
      destruct (inherited_parsed_key k) as [-> | ->]; [|done|by left|by right].
      by eapply classify_Filter_key.
    + intros (t & v & Ht & [Hc|Hc]); eexists t, _, v; (split_and!; [done|exact Hc|done]).
  - split; [done|]. intros (t & v & Ht & _).
    destruct (trim input); [|done]. by apply elem_of_nil in Ht.
Qed.

Lemma parseQuery_raises_on_inherited_keys_only_witness :
  parseQuery (u "gender:male __proto__:x") = Throw.
Proof.
  apply (proj2 (parseQuery_raises_on_inherited_keys_only (u "gender:male __proto__:x"))).
  exists (u "__proto__:x"), (u "x"). split; [|by right].
  apply (bool_decide_unpack _). vm_compute. exact I.
Defined.

(** ** What a search returns *)

Lemma passesFilters_Ok (o : value) (fs : list (jstring * list jstring)) (b : bool) :
  Forall (λ kv, inherited kv.1 = false) fs →
  passesFilters o fs = Ok b → b = forallb (key_passes o) fs.
Proof.
  induction 1 as [|[k ws] fs Hk _ IH]; [by intros [= <-]|].
  cbn [passesFilters forallb]. unfold filter_paths, key_passes.
  cbn [fst snd] in *.
  destruct (assoc k FILTER_PATHS) as [paths|].
  - destruct (hay o paths) as [hs|] eqn:Eh; cbn [obind]; [|done].
    apply hay_Ok in Eh as [-> _].
    destruct (some_match ws (hay_strings o paths)); [exact IH|by intros [= <-]].
  - rewrite Hk. exact IH.
Qed.

Lemma map_outcome_filter (pq : parsed) (arr : list value) :
  Forall (λ kv, inherited kv.1 = false) (filters pq) →
  Forall (λ o, printable_for (filters pq) o = true) arr →
  map_outcome (search_one pq) arr
  = Ok ((λ o, if passes pq o then Some (decorate o (terms pq)) else None) <$> arr).
Proof.
  intros Hk. induction 1 as [|o arr Ho _ IH]; [done|].
  cbn [map_outcome]. rewrite IH. unfold search_one, passes.
  rewrite (passesFilters_parsed o _ Hk Ho). csimpl.
  by destruct (forallb _ _), (passesTerms o (terms pq)).
Qed.

Lemma map_outcome_search_Ok (pq : parsed) (arr : list value)
    (rs : list (option value)) :
  Forall (λ kv, inherited kv.1 = false) (filters pq) →
  map_outcome (search_one pq) arr = Ok rs →
  rs = (λ o, if passes pq o then Some (decorate o (terms pq)) else None) <$> arr.
Proof.
  intros Hk. revert rs. induction arr as [|o arr IH]; intros rs; [by intros [= <-]|].
  cbn [map_outcome]. unfold search_one at 1.
  destruct (passesFilters o (filters pq)) as [b|] eqn:Eb; cbn [obind]; [|done].
  apply (passesFilters_Ok o _ b Hk) in Eb.
  destruct (map_outcome (search_one pq) arr) as [rs'|]; cbn [obind];
    [|by destruct (negb b), (negb (passesTerms o (terms pq)))].
  rewrite (IH rs' eq_refl). csimpl.
  change (passes pq o)
    with (forallb (key_passes o) (filters pq) && passesTerms o (terms pq)).
  rewrite <- Eb.
  by destruct b, (passesTerms o (terms pq)); cbn; intros [= <-].
Qed.

Lemma omap_filter_decorate (pq : parsed) (arr : list value) :
  omap id ((λ o, if passes pq o then Some (decorate o (terms pq)) else None) <$> arr)
  = (λ o, decorate o (terms pq)) <$> filter (λ o, Is_true (passes pq o)) arr.
Proof.
  induction arr as [|o arr IH]; [done|]. rewrite filter_cons.
  destruct (decide (Is_true (passes pq o))) as [H|H]; csimpl.
  - apply Is_true_true in H. rewrite H. csimpl. by f_equal.
  - apply Is_true_false in H. rewrite H. exact IH.
Qed.



(** X6: the server's search is the client's search followed by the
    decoration: both raise on the same queries and collections, and
    otherwise the server returns the client's records, decorated. *)
Theorem server_search_decorates_client_search (arr : list value) (input : jstring) :
  searchCollection arr input
  = (pq ←! parseQuery input;
     rs ←! searchCollection_ts arr input;
     Ok ((λ o, decorate o (terms pq)) <$> rs)).
Proof.
  unfold searchCollection, searchCollection_ts, searchParsed.
  destruct (parseQuery input) as [pq|]; cbn [obind]; [|done].
  induction arr as [|o arr IH]; [done|].
  cbn [map_outcome filter_outcome]. unfold search_one at 1, passes_both at 1.
  destruct (passesFilters o (filters pq)) as [[|]|]; cbn [obind negb andb]; [| |done].
  - destruct (passesTerms o (terms pq)); cbn [negb obind];
      destruct (map_outcome (search_one pq) arr) as [ys|];
      destruct (filter_outcome (passes_both pq) arr) as [rs|];
      cbn [obind] in *; try done; injection IH as IH; csimpl; by rewrite IH.
  - destruct (map_outcome (search_one pq) arr) as [ys|];
      destruct (filter_outcome (passes_both pq) arr) as [rs|];
      cbn [obind] in *; try done; injection IH as IH; csimpl; by rewrite IH.
Qed.

(** ** The decoration, read back *)

Lemma assoc_set_prop_ne {A} (k k' : jstring) (v : A) (fs : list (jstring * A)) :
  k ≠ k' → assoc k (set_prop k' v fs) = assoc k fs.
Proof.
  intros Hne. induction fs as [|[k0 v0] fs IH]; cbn [set_prop assoc].
  - by rewrite bool_decide_eq_false_2.
  - destruct (bool_decide (k' = k0)) eqn:E; cbn [assoc].
    + apply bool_decide_eq_true in E as <-. by rewrite !bool_decide_eq_false_2.
    + by rewrite IH.
Qed.

(** X7: a result carries the query's terms under [matchedTerms] and the
    matched paths under [matchedFields], whatever the record held under
    those names, and every other property of the record as it was. *)
Theorem decoration_overrides_and_keeps (o : value) (ts : list jstring) :
  getProp (decorate o ts) (u "matchedTerms") = strings ts
  ∧ getProp (decorate o ts) (u "matchedFields")
    = strings (collectMatchedFields o ts)
  ∧ ∀ k kvs, o = JObj kvs →
      k ≠ u "matchedTerms" → k ≠ u "matchedFields" →
      getProp (decorate o ts) k = getProp o k.
Proof.
  unfold decorate. cbn [getProp]. split_and!.
  - rewrite assoc_set_prop_ne by (vm_compute; discriminate).
    by rewrite assoc_set_prop_eq.
  - by rewrite assoc_set_prop_eq.
  - intros k kvs -> H1 H2. cbn [spread getProp].
    by rewrite !assoc_set_prop_ne.
Qed.

Lemma decoration_overrides_and_keeps_witness :
  u "gender" ≠ u "matchedTerms" ∧ u "gender" ≠ u "matchedFields"
  ∧ getProp (decorate person_P0001 [u "tan"]) (u "gender") = JStr (u "male").
Proof.
  assert (H1 : u "gender" ≠ u "matchedTerms") by (vm_compute; discriminate).
  assert (H2 : u "gender" ≠ u "matchedFields") by (vm_compute; discriminate).
  split_and!; [exact H1|exact H2|].
  rewrite (proj2 (proj2 (decoration_overrides_and_keeps person_P0001 [u "tan"]))
             (u "gender") _ eq_refl H1 H2).
  reflexivity.
Defined.

(** ** The algebra of filters *)

Lemma forallb_Permutation {A} (f : A → bool) (l l' : list A) :
  l ≡ₚ l' → forallb f l = forallb f l'.
Proof.
  induction 1 as [|x l l' _ IH|x y l|l l' l'' _ IH1 _ IH2]; simpl.
  - done.
  - by rewrite IH.
  - destruct (f x), (f y); done.
  - by rewrite IH1.
Qed.

Lemma passesFilters_app (o : value) (fs gs : list (jstring * list jstring)) :
  passesFilters o (fs ++ gs)
  = (b ←! passesFilters o fs; if b then passesFilters o gs else Ok false).
Proof.
  induction fs as [|[k ws] fs IH]; cbn [app passesFilters obind].
  - by destruct (passesFilters o gs) as [[|]|].
  - destruct (filter_paths k); [|done|exact IH].
    destruct (hay o paths) as [hs|]; cbn [obind]; [|done].
    destruct (some_match ws hs); [exact IH|done].
Qed.

Lemma printable_for_app (o : value) (fs gs : list (jstring * list jstring)) :
  printable_for (fs ++ gs) o = printable_for fs o && printable_for gs o.
Proof. unfold printable_for. apply forallb_app. Qed.

(** X8: the filter stage on two lists of filters put together is the stage
    on the first and, if it accepts, the stage on the second; a record is
    accepted by the whole exactly when it is accepted by both parts, and
    whatever the order of the filters, so that one more filter can only
    remove records.  When [String] returns on every value that the filters
    resolve, also the rejection does not depend on the order; otherwise it
    does: the stage returns [false] at the first filter that fails and
    raises at the first whose value cannot be printed. *)
Theorem filters_commute_and_conjoin (o : value)
    (fs gs : list (jstring * list jstring)) :
  Forall (λ kv, inherited kv.1 = false) (fs ++ gs) →
  passesFilters o (fs ++ gs)
  = (b ←! passesFilters o fs; if b then passesFilters o gs else Ok false)
  ∧ (passesFilters o (fs ++ gs) = Ok true ↔
     passesFilters o fs = Ok true ∧ passesFilters o gs = Ok true)
  ∧ (∀ hs, fs ++ gs ≡ₚ hs →
       passesFilters o hs = Ok true ↔ passesFilters o (fs ++ gs) = Ok true)
  ∧ (printable_for (fs ++ gs) o = true →
     ∀ hs, fs ++ gs ≡ₚ hs → passesFilters o hs = passesFilters o (fs ++ gs))
  ∧ passesFilters person_unprintable
      [(u "nationality", [u "zz"]); (u "gender", [u "x"])] = Ok false
  ∧ passesFilters person_unprintable
      [(u "gender", [u "x"]); (u "nationality", [u "zz"])] = Throw.
Proof.
  intros Hk. split_and!; [| | | |reflexivity..].
  - apply passesFilters_app.
  - rewrite passesFilters_app.
    destruct (passesFilters o fs) as [[|]|]; cbn [obind]; split; try done;
      by intros [? ?].
  - intros hs Hp.
    assert (Hk' : Forall (λ kv, inherited kv.1 = false) hs) by (by rewrite <- Hp).
    rewrite (passesFilters_true_iff o _ Hk), (passesFilters_true_iff o _ Hk').
    split; intros H k ws paths Hin; apply H; [by rewrite <- Hp|by rewrite Hp].
  - intros Hpr hs Hp.
    assert (Hk' : Forall (λ kv, inherited kv.1 = false) hs) by (by rewrite <- Hp).
    rewrite !passesFilters_parsed; try done.
    + f_equal. symmetry. by apply forallb_Permutation.
    + rewrite <- Hpr. unfold printable_for. symmetry. by apply forallb_Permutation.
Qed.

Lemma filters_commute_and_conjoin_witness :
  Forall (λ kv, inherited kv.1 = false)
    ([(u "gender", [u "male"])] ++ [(u "nationality", [u "malaysian"])])
  ∧ printable_for ([(u "gender", [u "male"])] ++ [(u "nationality", [u "malaysian"])])
      person_P0001 = true
  ∧ passesFilters person_P0001
      [(u "nationality", [u "malaysian"]); (u "gender", [u "male"])]
    = passesFilters person_P0001
        ([(u "gender", [u "male"])] ++ [(u "nationality", [u "malaysian"])]).
Proof.
  assert (H : Forall (λ kv, inherited kv.1 = false)
    ([(u "gender", [u "male"])] ++ [(u "nationality", [u "malaysian"])])).
  { repeat constructor. }
  split_and!; [exact H|reflexivity|].
  apply (proj1 (proj2 (proj2 (proj2 (filters_commute_and_conjoin person_P0001 _ _ H))))
           eq_refl).
  apply Permutation_swap.
Defined.

Lemma some_match_app (ws vs hs : list jstring) :
  some_match (ws ++ vs) hs = some_match ws hs || some_match vs hs.
Proof. unfold some_match. apply existsb_app. Qed.

Lemma elem_of_push_at (k v k' : jstring) (ws' : list jstring)
    (fs : list (jstring * list jstring)) :
  (k', ws') ∈ push_at k v fs →
  (k', ws') ∈ fs ∨ ∃ ws, (k', ws) ∈ fs ∧ ws' = ws ++ [v].
Proof.
  induction fs as [|[k0 ws0] fs IH]; cbn [push_at]; [by left|].
  case_bool_decide as E.
  - intros [[= -> ->]|H]%elem_of_cons.
    + right. exists ws0. split; [left|done].
    + left. by right.
  - intros [[= -> ->]|H]%elem_of_cons.
    + left. left.
    + destruct (IH H) as [H'|(ws & H' & ->)]; [left; by right|].
      right. exists ws. split; [by right|done].
Qed.

(** X9: among filters that the parser can produce, one more value pushed
    under a key that is already there can only add records: a record that
    passed still passes. *)
Theorem another_value_never_removes (o : value) (k v : jstring)
    (fs : list (jstring * list jstring)) :
  Forall (λ kv, inherited kv.1 = false) fs →
  passesFilters o fs = Ok true →
  passesFilters o (push_at k v fs) = Ok true.
Proof.
  intros Hk.
  rewrite (passesFilters_true_iff o fs Hk), (passesFilters_true_iff o (push_at k v fs)).
  - intros H k' ws' paths Hin Hk'.
    apply elem_of_push_at in Hin as [Hin|(ws & Hin & ->)]; [by eapply H|].
    destruct (H k' ws paths Hin Hk') as (hs & Hhs & Hm). exists hs.
    split; [done|]. by rewrite some_match_app, Hm.
  - by apply (push_at_Forall_keys (λ k, inherited k = false)).
Qed.

Lemma another_value_never_removes_witness :
  passesFilters person_P0001 [(u "gender", [u "male"])] = Ok true
  ∧ passesFilters person_P0001
      (push_at (u "gender") (u "x") [(u "gender", [u "male"])]) = Ok true.
Proof.
  split; [reflexivity|].
  apply (another_value_never_removes person_P0001 (u "gender") (u "x")
           [(u "gender", [u "male"])]).
  - repeat constructor.
  - reflexivity.
Defined.

(** ** The case of a query *)

Lemma takeWhile_map (p : N → bool) (f : N → N) (s : jstring) :
  (∀ c, p (f c) = p c) → takeWhile p (map f s) = map f (takeWhile p s).
Proof.
  intros Hp. induction s as [|c s IH]; simpl; [done|].
  rewrite Hp. destruct (p c); simpl; [by rewrite IH|done].
Qed.

Lemma dropWhile_map (p : N → bool) (f : N → N) (s : jstring) :
  (∀ c, p (f c) = p c) → dropWhile p (map f s) = map f (dropWhile p s).
Proof.
  intros Hp. induction s as [|c s IH]; simpl; [done|].
  rewrite Hp. by destruct (p c).
Qed.

Lemma trim_toLowerCase (s : jstring) : trim (toLowerCase s) = toLowerCase (trim s).
Proof.
  unfold trim, trimEnd, trimStart, toLowerCase.
  rewrite (dropWhile_map _ _ _ is_ws_lower), <- map_rev,
    (dropWhile_map _ _ _ is_ws_lower), map_rev. done.
Qed.

(** A code unit that is not a letter is the lower case of itself only. *)
Lemma lower_cu_eqb (c d : N) :
  ¬ (97 ≤ d ≤ 122)%N → ¬ (65 ≤ d ≤ 90)%N → (lower_cu c =? d)%N = (c =? d)%N.
Proof.
  intros H1 H2. destruct (lower_cu_cases c) as [[Hc ->]|[_ ->]]; [|done].
  rewrite (proj2 (N.eqb_neq _ _)) by lia. symmetry. apply N.eqb_neq. lia.
Qed.

Lemma not_quote_lower (c : N) : not_quote (lower_cu c) = not_quote c.
Proof. unfold not_quote, cu_quote. rewrite lower_cu_eqb by lia. done. Qed.

Lemma not_ws_lower (c : N) : not_ws (lower_cu c) = not_ws c.
Proof. unfold not_ws. by rewrite is_ws_lower. Qed.

Lemma is_line_terminator_lower (c : N) :
  is_line_terminator (lower_cu c) = is_line_terminator c.
Proof. unfold is_line_terminator. rewrite !lower_cu_eqb by lia. done. Qed.

Lemma match_quoted_lower (s : jstring) :
  match_quoted (toLowerCase s) = toLowerCase <$> match_quoted s.
Proof.
  destruct s as [|c s]; [done|]. unfold match_quoted, toLowerCase. cbn [map].
  unfold cu_quote. rewrite lower_cu_eqb by lia.
  destruct (c =? 34)%N; [|done].
  rewrite (takeWhile_map _ _ _ not_quote_lower), (dropWhile_map _ _ _ not_quote_lower).
  destruct (takeWhile not_quote s); [done|]. by destruct (dropWhile not_quote s).
Qed.

Lemma match_bare_lower (s : jstring) :
  match_bare (toLowerCase s) = toLowerCase <$> match_bare s.
Proof.
  unfold match_bare, toLowerCase. rewrite (takeWhile_map _ _ _ not_ws_lower).
  by destruct (takeWhile not_ws s).
Qed.

Lemma match_token_lower (s : jstring) :
  match_token (toLowerCase s) = lower_match <$> match_token s.
Proof.
  unfold match_token. rewrite match_quoted_lower, match_bare_lower.
  destruct (match_quoted s); [done|]. by destruct (match_bare s).
Qed.

Lemma matched_text_lower (m : token_kind * jstring) :
  matched_text (lower_match m) = toLowerCase (matched_text m).
Proof.
  destruct m as [[|] b]; [|done]. unfold lower_match, matched_text, toLowerCase.
  cbn [fst snd map]. by rewrite map_app.
Qed.

Lemma scan_lower (s : jstring) (k : nat) :
  scan (toLowerCase s) k = lower_match <$> scan s k.
Proof.
  revert k. induction s as [|c s IH]; intros k; [done|].
  change (toLowerCase (c :: s)) with (lower_cu c :: toLowerCase s).
  cbn [scan]. destruct k as [|k]; [|apply IH].
  change (lower_cu c :: toLowerCase s) with (toLowerCase (c :: s)).
  rewrite match_token_lower. destruct (match_token (c :: s)) as [m|].
  - change (lower_match <$> Some m) with (Some (lower_match m)). cbv beta iota.
    rewrite matched_text_lower, toLowerCase_length, IH. done.
  - change (lower_match <$> None) with (@None (token_kind * jstring)).
    cbv beta iota. apply IH.
Qed.

Lemma tokenize_lower (q : jstring) :
  tokenize (toLowerCase q) = toLowerCase <$> tokenize q.
Proof.
  unfold tokenize. rewrite scan_lower, <- !list_fmap_compose.
  apply list_fmap_ext. intros _ m _. apply matched_text_lower.
Qed.

Lemma strip_leading_quote_lower (t : jstring) :
  strip_leading_quote (toLowerCase t) = toLowerCase (strip_leading_quote t).
Proof.
  destruct t as [|c t]; [done|]. unfold strip_leading_quote, toLowerCase. cbn [map].
  unfold cu_quote. rewrite lower_cu_eqb by lia. by destruct (c =? 34)%N.
Qed.

Lemma stripQuotes_lower (t : jstring) :
  stripQuotes (toLowerCase t) = toLowerCase (stripQuotes t).
Proof.
  unfold stripQuotes, strip_trailing_quote.
  rewrite strip_leading_quote_lower. unfold toLowerCase at 1.
  rewrite <- map_rev. fold (toLowerCase (rev (strip_leading_quote t))).
  rewrite strip_leading_quote_lower. unfold toLowerCase. by rewrite map_rev.
Qed.

Lemma norm_str_lower (s : jstring) : norm_str (toLowerCase s) = norm_str s.
Proof.
  unfold norm_str, norm. cbn [is_nullish js_String]. by rewrite toLowerCase_idemp.
Qed.

Lemma forallb_not_terminator_lower (val : jstring) :
  forallb (λ x, negb (is_line_terminator x)) (map lower_cu val)
  = forallb (λ x, negb (is_line_terminator x)) val.
Proof.
  induction val as [|x val IH]; simpl; [done|].
  by rewrite is_line_terminator_lower, IH.
Qed.

Lemma classify_lower (t : jstring) : classify (toLowerCase t) = classify t.
Proof.
  unfold classify. rewrite stripQuotes_lower. set (s := stripQuotes t).
  unfold matchKV, toLowerCase.
  rewrite (takeWhile_map _ _ _ is_key_char_lower), (dropWhile_map _ _ _ is_key_char_lower).
  fold (toLowerCase s).
  destruct (takeWhile is_key_char s) as [|a key] eqn:Ek; cbn [map].
  { by rewrite norm_str_lower. }
  destruct (dropWhile is_key_char s) as [|c [|d val]] eqn:Ed; cbn [map];
    try (by rewrite norm_str_lower).
  unfold cu_colon. rewrite lower_cu_eqb by lia.
  change (lower_cu d :: map lower_cu val) with (map lower_cu (d :: val)).
  rewrite forallb_not_terminator_lower.
  destruct (_ && _); [|by rewrite norm_str_lower].
  change (lower_cu a :: map lower_cu key) with (toLowerCase (a :: key)).
  fold (toLowerCase (d :: val)).
  by rewrite stripQuotes_lower, !norm_str_lower.
Qed.

Lemma parse_tokens_lower (acc : parsed) (ts : list jstring) :
  parse_tokens acc (toLowerCase <$> ts) = parse_tokens acc ts.
Proof.
  revert acc. induction ts as [|t ts IH]; intros acc; [done|].
  rewrite fmap_cons. cbn [parse_tokens].
  assert (E : parse_step acc (toLowerCase t) = parse_step acc t)
    by (unfold parse_step; by rewrite classify_lower).
  rewrite E. destruct (parse_step acc t); cbn [obind]; [apply IH|done].
Qed.

Lemma parseQuery_lower (input : jstring) :
  parseQuery (toLowerCase input) = parseQuery input.
Proof.
  unfold parseQuery. rewrite trim_toLowerCase, tokenize_lower, parse_tokens_lower.
  by destruct (trim input).
Qed.

(** X10: two ASCII queries that differ only in the case of their letters
    are parsed to the same terms and filters, and so return the same
    result on every collection. *)
Theorem queries_are_case_insensitive (a b : jstring) :
  ascii_only a = true → ascii_only b = true →
  toLowerCase a = toLowerCase b →
  parseQuery a = parseQuery b
  ∧ ∀ arr, searchCollection arr a = searchCollection arr b.
Proof.
  intros _ _ Hab.
  assert (E : parseQuery a = parseQuery b).
  { by rewrite <- (parseQuery_lower a), <- (parseQuery_lower b), Hab. }
  split; [exact E|]. intros arr. unfold searchCollection. by rewrite E.
Qed.

Lemma queries_are_case_insensitive_witness :
  ascii_only (u "Nationality:MALAYSIAN Tan") = true
  ∧ ascii_only (u "nationality:malaysian tan") = true
  ∧ toLowerCase (u "Nationality:MALAYSIAN Tan") = toLowerCase (u "nationality:malaysian tan")
  ∧ parseQuery (u "Nationality:MALAYSIAN Tan") = parseQuery (u "nationality:malaysian tan").
Proof.
  split_and!; [reflexivity..|].
  apply (queries_are_case_insensitive (u "Nationality:MALAYSIAN Tan")
           (u "nationality:malaysian tan")); reflexivity.
Defined.

(** ** The tokens of a document query *)

Lemma foldl_set_add_NoDup (l acc : list jstring) :
  NoDup acc → NoDup (foldl (λ s y, set_add y s) acc l).
Proof.
  revert acc. induction l as [|y l IH]; intros acc Hacc; simpl; [done|].
  apply IH. by apply set_add_NoDup.
Qed.

Lemma uniq_NoDup (l : list jstring) : NoDup (uniq l).
Proof. apply foldl_set_add_NoDup, NoDup_nil_2. Qed.

Lemma foldl_set_add_elem_2 (x : jstring) (l acc : list jstring) :
  x ∈ acc ∨ x ∈ l → x ∈ foldl (λ s y, set_add y s) acc l.
Proof.
  revert acc. induction l as [|y l IH]; intros acc; simpl.
  - intros [?|H]; [done|]. by apply elem_of_nil in H.
  - intros [H|H]; apply IH.
    + left. apply set_add_iff. by left.
    + apply elem_of_cons in H as [->|H]; [|by right].
      left. apply set_add_iff. by right.
Qed.

Lemma uniq_elem_iff (x : jstring) (l : list jstring) : x ∈ uniq l ↔ x ∈ l.
Proof.
  split; [apply uniq_elem|]. intros H. apply foldl_set_add_elem_2. by right.
Qed.

Lemma parseQueryTokens_NoDup (q : jstring) : NoDup (parseQueryTokens q).
Proof.
  unfold parseQueryTokens. destruct (nonempty (trim q)); [apply uniq_NoDup|constructor].
Qed.

Lemma parseQueryTokens_fmap_trim (q : jstring) :
  trim <$> parseQueryTokens q = parseQueryTokens q.
Proof.
  rewrite <- (list_fmap_id (parseQueryTokens q)) at 2.
  apply list_fmap_ext. intros i t Ht.
  apply (parseQueryTokens_trimmed q). by eapply list_elem_of_lookup_2.
Qed.

(** X11: the tokens of a document query are distinct, not empty and
    trimmed; every match of the token expression is one of them, and with
    a match that has a colon inside come its two sides, when they are not
    blank; a query without any token - an empty or blank one among them -
    finds no document, whatever the index. *)
Theorem document_query_tokens (q : jstring) :
  NoDup (parseQueryTokens q)
  ∧ (∀ t, t ∈ parseQueryTokens q → t ≠ [] ∧ trim t = t)
  ∧ (∀ r, r ∈ raw_tokens (trim q) →
       r ∈ parseQueryTokens q
       ∧ ∀ i, indexOf r [cu_colon] = Some i → 0 < i → i < length r - 1 →
           (trim (take i r) ≠ [] → trim (take i r) ∈ parseQueryTokens q)
           ∧ (trim (drop (S i) r) ≠ [] → trim (drop (S i) r) ∈ parseQueryTokens q))
  ∧ (trim q = [] → parseQueryTokens q = [])
  ∧ (∀ (score : Type) (toFixed4 : score → score) (idx : doc_index score) limit,
       parseQueryTokens q = [] → searchDocuments toFixed4 idx q limit = []).
Proof.
  split_and!.
  - apply parseQueryTokens_NoDup.
  - intros t Ht. split; [|by eapply parseQueryTokens_trimmed].
    unfold parseQueryTokens in Ht. destruct (nonempty (trim q)).
    + apply uniq_elem, list_elem_of_filter in Ht as [Hne _]. by destruct t.
    + by apply elem_of_nil in Ht.
  - intros r Hr.
    assert (Hq : nonempty (trim q) = true).
    { destruct (trim q) eqn:E; [|done]. by apply elem_of_nil in Hr. }
    assert (Hin : ∀ y, y ∈ expand r → trim y ≠ [] → trim y ∈ parseQueryTokens q).
    { intros y Hy Hne. unfold parseQueryTokens. rewrite Hq.
      apply uniq_elem_iff, list_elem_of_filter. split.
      - by destruct (trim y).
      - apply list_elem_of_fmap. exists y. split; [done|].
        apply list_elem_of_In, in_flat_map. exists r.
        by rewrite <- !list_elem_of_In. }
    assert (Hr' : r ≠ [] ∧ trim r = r).
    { unfold raw_tokens in Hr. apply list_elem_of_filter in Hr as [Hne Hr].
      split; [by destruct r|].
      apply list_elem_of_fmap in Hr as (m & -> & _). apply trim_idemp. }
    destruct Hr' as [Hne Htr]. split.
    + rewrite <- Htr. apply Hin; [|by rewrite Htr].
      unfold expand. destruct (indexOf r [cu_colon]); [|by left].
      destruct (_ && _); by left.
    + intros i Hi H0 H1.
      assert (Hexp : expand r = [r; take i r; drop (S i) r]).
      { unfold expand. rewrite Hi.
        rewrite (proj2 (Nat.ltb_lt 0 i)), (proj2 (Nat.ltb_lt i (length r - 1))) by done.
        done. }
      split; intros Hside; apply Hin; try done; rewrite Hexp.
      * right. by left.
      * right. right. by left.
  - intros Hq. unfold parseQueryTokens. by rewrite Hq.
  - intros score toFixed4 idx limit Hq. unfold searchDocuments. rewrite Hq.
    by destruct (docs idx).
Qed.

Lemma document_query_tokens_witness :
  u "nationality:malaysian" ∈ raw_tokens (trim (u " nationality:malaysian "))
  ∧ u "nationality:malaysian" ∈ parseQueryTokens (u " nationality:malaysian ")
  ∧ parseQueryTokens (u " nationality:malaysian ")
    = [u "nationality:malaysian"; u "nationality"; u "malaysian"].
Proof.
  assert (H : u "nationality:malaysian" ∈ raw_tokens (trim (u " nationality:malaysian "))).
  { apply (bool_decide_unpack _). vm_compute. exact I. }
  split_and!; [exact H| |reflexivity].
  exact (proj1 (proj1 (proj2 (proj2 (document_query_tokens (u " nationality:malaysian "))))
                  (u "nationality:malaysian") H)).
Defined.

(** ** What the index holds *)

Lemma includes_app_l (a b p : jstring) : includes a p = true → includes (a ++ b) p = true.
Proof.
  rewrite !includes_iff. intros (x & y & ->). exists x, (y ++ b).
  by rewrite <- !app_assoc.
Qed.

Lemma includes_app_r (a b p : jstring) : includes b p = true → includes (a ++ b) p = true.
Proof.
  rewrite !includes_iff. intros (x & y & ->). exists (a ++ x), y.
  by rewrite <- !app_assoc.
Qed.

Lemma includes_refl (s : jstring) : includes s s = true.
Proof. apply includes_iff. exists [], []. by rewrite app_nil_r. Qed.

Lemma includes_trans (s m p : jstring) :
  includes s m = true → includes m p = true → includes s p = true.
Proof.
  rewrite !includes_iff. intros (a & b & ->) (c & d & ->).
  exists (a ++ c), (d ++ b). by rewrite <- !app_assoc.
Qed.

Lemma omap_filter_names {A} (f : jstring → option A) (name : A → jstring)
    (P : jstring → Prop) `{∀ x, Decision (P x)} (l : list jstring) :
  (∀ x d, f x = Some d → name d = x) →
  (∀ x, P x ↔ is_Some (f x)) →
  name <$> omap f l = filter P l.
Proof.
  intros Hname HP. induction l as [|x l IH]; [done|].
  rewrite filter_cons. csimpl. destruct (f x) as [d|] eqn:E; csimpl.
  - rewrite decide_True by (apply HP; rewrite E; eauto).
    rewrite IH. f_equal. by apply Hname.
  - rewrite decide_False; [exact IH|]. rewrite HP, E. by intros [? ?].
Qed.

Lemma matched_terms_of_tokens (d : doc) (q : jstring) :
  matched_terms_of d (parseQueryTokens q)
  = take 12 (filter (reportable (search_blob d)) (parseQueryTokens q)).
Proof.
  unfold matched_terms_of. rewrite parseQueryTokens_fmap_trim, list_filter_filter.
  f_equal. apply list_filter_iff. intros t. unfold reportable. tauto.
Qed.

(** X12: the matched terms of a result are distinct; when at most twelve
    tokens of the query are reportable for a document, its matched terms
    are exactly those tokens, in the order of the query. *)
Theorem matched_terms_are_the_reportable_tokens (d : doc) (q : jstring) :
  NoDup (matched_terms_of d (parseQueryTokens q))
  ∧ matched_terms_of d (parseQueryTokens q)
    = take 12 (filter (reportable (search_blob d)) (parseQueryTokens q))
  ∧ (length (filter (reportable (search_blob d)) (parseQueryTokens q)) ≤ 12 →
     ∀ t, t ∈ matched_terms_of d (parseQueryTokens q) ↔
          t ∈ parseQueryTokens q ∧ reportable (search_blob d) t).
Proof.
  split_and!; [|apply matched_terms_of_tokens|].
  - rewrite matched_terms_of_tokens.
    eapply sublist_NoDup; [|apply sublist_take].
    apply NoDup_filter, parseQueryTokens_NoDup.
  - intros Hle t. rewrite matched_terms_of_tokens, take_ge by done.
    rewrite list_elem_of_filter. tauto.
Qed.

Section IndexContents.

Context {score : Type}.
Variable JSON_stringify : value → jstring.
Variable encodeURIComponent : jstring → option jstring.
Variable now : jstring.
Variable Fuse : list doc → jstring → list (fuse_hit score).

Lemma index_file_Some (dir : docs_dir) (data : dataset) (f : jstring) (d : doc) :
  index_file JSON_stringify encodeURIComponent dir data f = Some d →
  doc_id d = f ∧ filename d = f ∧ title d = f
  ∧ pdf_text dir f = Some (text d)
  ∧ (∃ enc, encodeURIComponent f = Some enc ∧ public_path d = u "/docs/" ++ enc)
  ∧ ∃ metaText,
      search_blob d
      = toLowerCase (f ++ [cu_newline] ++ metaText ++ [cu_newline] ++ text d).
Proof.
  unfold index_file. destruct (pdf_text dir f) as [txt|]; [|done]. csimpl.
  destruct (encodeURIComponent f) as [enc|]; [|done]. csimpl.
  intros [= <-]. cbn. split_and!; try done; eauto.
Qed.

(** X13: the index holds one document for each file of the listing whose
    name ends in [.pdf], whatever the case, and whose text and path could
    be produced - in the order of the listing, the other files being
    passed over; a document is named after its file and holds its text,
    and its search blob is in lower case and contains the file name and
    the text, lower-cased. *)
Theorem index_holds_the_readable_pdfs (dir : docs_dir) (data : dataset) :
  filename <$> docs (buildDocIndex JSON_stringify encodeURIComponent now Fuse dir data)
  = filter (indexable encodeURIComponent dir) (default [] (listing dir))
  ∧ ∀ d, d ∈ docs (buildDocIndex JSON_stringify encodeURIComponent now Fuse dir data) →
      doc_id d = filename d ∧ title d = filename d
      ∧ pdf_text dir (filename d) = Some (text d)
      ∧ lowered (search_blob d)
      ∧ includes (search_blob d) (toLowerCase (filename d)) = true
      ∧ includes (search_blob d) (toLowerCase (text d)) = true.
Proof.
  unfold buildDocIndex. cbn [docs]. split.
  - set (files := default [] (listing dir)).
    rewrite (omap_filter_names _ filename
               (λ f, is_Some (pdf_text dir f) ∧ is_Some (encodeURIComponent f))).
    + unfold indexable. rewrite list_filter_filter. apply list_filter_iff.
      intros f. tauto.
    + intros f d Hd. by apply index_file_Some in Hd as (_ & ? & _).
    + intros f. unfold index_file.
      destruct (pdf_text dir f); csimpl; [|split; [by intros [[? ?] _]|by intros [? ?]]].
      destruct (encodeURIComponent f); csimpl; split; eauto.
      * by intros [_ [? ?]].
      * by intros [? ?].
  - intros d Hd. apply list_elem_of_omap in Hd as (f & _ & Hd).
    apply index_file_Some in Hd as (H1 & H2 & H3 & H4 & _ & (mt & Hb)).
    rewrite H1, H2, H3, Hb. split_and!; try done.
    + apply lowered_toLowerCase.
    + rewrite toLowerCase_app. apply includes_app_l, includes_refl.
    + rewrite !toLowerCase_app. do 4 apply includes_app_r. apply includes_refl.
Qed.

(** X14: a token of two code units or more that occurs, up to case, in the
    text of an indexed document is reported among the matched terms of
    that document, as long as the query has at most twelve tokens. *)
Theorem token_in_text_is_reported (dir : docs_dir) (data : dataset)
    (d : doc) (q t : jstring) :
  d ∈ docs (buildDocIndex JSON_stringify encodeURIComponent now Fuse dir data) →
  t ∈ parseQueryTokens q → 2 ≤ length t → ci_substring t (text d) →
  length (parseQueryTokens q) ≤ 12 →
  t ∈ matched_terms_of d (parseQueryTokens q).
Proof.
  intros Hd Ht Hlen (a & b & Hci) Hq.
  rewrite matched_terms_of_tokens, take_ge.
  2:{ etrans; [apply length_filter|done]. }
  apply list_elem_of_filter. split; [|done]. split; [done|].
  apply Is_true_true.
  apply list_elem_of_omap in Hd as (f & _ & Hd).
  apply index_file_Some in Hd as (_ & _ & _ & _ & _ & (mt & ->)).
  rewrite !toLowerCase_app. do 4 apply includes_app_r.
  apply includes_iff. by exists a, b.
Qed.

End IndexContents.

Lemma index_holds_the_readable_pdfs_witness :
  filename <$> docs index_three
  = [u "persons_P-0001.pdf"; u "vehicles_V-001.pdf"; u "cases_SC-TOB-1.pdf"]
  ∧ filename <$> docs (buildDocIndex no_metadata Some [] Fuse_all dir_unreadable no_data)
    = [].
Proof.
  split.
  - reflexivity.
  - rewrite (proj1 (index_holds_the_readable_pdfs no_metadata Some [] Fuse_all
                      dir_unreadable no_data)).
    reflexivity.
Defined.

Lemma matched_terms_are_the_reportable_tokens_witness :
  Forall (λ d,
    length (filter (reportable (search_blob d)) (parseQueryTokens (u "tan xyz"))) ≤ 12
    ∧ (u "tan" ∈ matched_terms_of d (parseQueryTokens (u "tan xyz")) ↔
       u "tan" ∈ parseQueryTokens (u "tan xyz") ∧ reportable (search_blob d) (u "tan")))
    (docs index_three).
Proof.
  apply Forall_forall. intros d _.
  assert (H : length (filter (reportable (search_blob d))
                        (parseQueryTokens (u "tan xyz"))) ≤ 12).
  { etrans; [apply length_filter|]. vm_compute. lia. }
  split; [exact H|].
  exact (proj2 (proj2 (matched_terms_are_the_reportable_tokens d (u "tan xyz")))
           H (u "tan")).
Defined.

Lemma token_in_text_is_reported_witness :
  Forall (λ d, u "pelepas" ∈ matched_terms_of d (parseQueryTokens (u "Tanjung pelepas")))
    (docs index_three).
Proof.
  apply Forall_forall. intros d Hd.
  apply (token_in_text_is_reported no_metadata Some [] Fuse_all dir_three no_data
           d (u "Tanjung pelepas") (u "pelepas") Hd).
  - apply (bool_decide_unpack _). vm_compute. exact I.
  - vm_compute. lia.
  - unfold index_three, buildDocIndex in Hd. cbn [docs] in Hd.
    apply list_elem_of_omap in Hd as (f & _ & Hd).
    unfold index_file in Hd. cbn in Hd. injection Hd as <-. cbn [text].
    exists (u "tan wei ming arrived at tanjung "), []. reflexivity.
  - vm_compute. lia.
Defined.

(** ** File names *)

Lemma indexOf_first (a r : jstring) (c : N) :
  c ∉ a → indexOf (a ++ c :: r) [c] = Some (length a).
Proof.
  intros Hc. induction a as [|x a IH]; simpl.
  - by rewrite N.eqb_refl.
  - apply not_elem_of_cons in Hc as [Hx Ha].
    rewrite (proj2 (N.eqb_neq c x)) by done. simpl. by rewrite IH.
Qed.

Lemma indexOf_absent (a : jstring) (c : N) : c ∉ a → indexOf a [c] = None.
Proof.
  intros Hc. induction a as [|x a IH]; simpl; [done|].
  apply not_elem_of_cons in Hc as [Hx Ha].
  rewrite (proj2 (N.eqb_neq c x)) by done. simpl. by rewrite IH.
Qed.

Lemma split_on_first (a r : jstring) (c : N) :
  c ∉ a → split_on c (a ++ c :: r) = a :: split_on c r.
Proof.
  intros Hc. induction a as [|x a IH]; simpl.
  - by rewrite N.eqb_refl.
  - apply not_elem_of_cons in Hc as [Hx Ha].
    rewrite (proj2 (N.eqb_neq x c)) by done. by rewrite IH.
Qed.

Lemma split_on_absent (a : jstring) (c : N) : c ∉ a → split_on c a = [a].
Proof.
  intros Hc. induction a as [|x a IH]; simpl; [done|].
  apply not_elem_of_cons in Hc as [Hx Ha].
  rewrite (proj2 (N.eqb_neq x c)) by done. by rewrite IH.
Qed.

Lemma endsWith_ci_app (s suffix : jstring) :
  lowered suffix → endsWith_ci (s ++ suffix) suffix = true.
Proof.
  intros Hl. unfold endsWith_ci. rewrite toLowerCase_app, (lowered_id suffix Hl).
  rewrite rev_app_distr. apply startsWith_app.
Qed.

Lemma lowered_pdf : lowered (u ".pdf").
Proof. by repeat constructor. Qed.

Lemma take_app_exact {A} (a b : list A) : take (length (a ++ b) - length b) (a ++ b) = a.
Proof.
  rewrite length_app. replace (length a + length b - length b) with (length a) by lia.
  apply take_app_length.
Qed.

(** X15: the older index recognises a file [prefix_id.pdf] for the prefixes
    [persons], [vehicles], [cases] and [trips], and gives back the id,
    underscores included; it recognises no file of the form
    [first_info_reports_....pdf], because the name is cut at its first
    underscore, and no file without an underscore. *)
Theorem parseDocFilename_round_trip (id : jstring) :
  parseDocFilename (u "persons_" ++ id ++ u ".pdf") = Some (Entity (u "person"), id)
  ∧ parseDocFilename (u "vehicles_" ++ id ++ u ".pdf") = Some (Entity (u "vehicle"), id)
  ∧ parseDocFilename (u "cases_" ++ id ++ u ".pdf") = Some (Entity (u "case"), id)
  ∧ parseDocFilename (u "trips_" ++ id ++ u ".pdf") = Some (Entity (u "trip"), id)
  ∧ parseDocFilename (u "first_info_reports_" ++ id ++ u ".pdf") = None
  ∧ (cu_underscore ∉ id → parseDocFilename (id ++ u ".pdf") = None).
Proof.
  assert (Hgen : ∀ p rest, cu_underscore ∉ p →
    parseDocFilename (p ++ cu_underscore :: rest ++ u ".pdf")
    = match entity_of_prefix p with
      | Some ty => Some (ty, rest)
      | None => None
      end).
  { intros p rest Hp. unfold parseDocFilename.
    replace (p ++ cu_underscore :: rest ++ u ".pdf")
      with ((p ++ cu_underscore :: rest) ++ u ".pdf") by (by rewrite <- app_assoc).
    rewrite endsWith_ci_app by apply lowered_pdf.
    change 4 with (length (u ".pdf")). rewrite take_app_exact.
    rewrite indexOf_first by done. rewrite take_app_length.
    replace (S (length p)) with (length (p ++ [cu_underscore]))
      by (rewrite length_app; simpl; lia).
    rewrite (cons_middle cu_underscore p rest), app_assoc.
    by rewrite drop_app_length. }
  assert (Hno : ∀ s : string, cu_underscore ∉ (u s) ↔ forallb (λ c, negb (c =? cu_underscore)%N) (u s) = true).
  { intros s. rewrite forallb_elem_of. split.
    - intros H c Hc. apply negb_true_iff, N.eqb_neq. by intros ->.
    - intros H Hin. specialize (H _ Hin). by rewrite N.eqb_refl in H. }
  split_and!.
  - apply (Hgen (u "persons") id). by apply Hno.
  - apply (Hgen (u "vehicles") id). by apply Hno.
  - apply (Hgen (u "cases") id). by apply Hno.
  - apply (Hgen (u "trips") id). by apply Hno.
  - apply (Hgen (u "first") (u "info_reports_" ++ id)). by apply Hno.
  - intros Hid. unfold parseDocFilename.
    rewrite endsWith_ci_app by apply lowered_pdf.
    change 4 with (length (u ".pdf")). rewrite take_app_exact.
    by rewrite indexOf_absent.
Qed.

Lemma parseDocFilename_round_trip_witness :
  (cu_underscore ∉ (u "readme"))
  ∧ parseDocFilename (u "readme" ++ u ".pdf") = None
  ∧ parseDocFilename (u "cases_" ++ u "SC-TOB-2025-00112" ++ u ".pdf")
    = Some (Entity (u "case"), u "SC-TOB-2025-00112").
Proof.
  assert (H : cu_underscore ∉ (u "readme")).
  { apply (bool_decide_unpack _). vm_compute. exact I. }
  split_and!; [exact H| |].
  - exact (proj2 (proj2 (proj2 (proj2 (proj2
             (parseDocFilename_round_trip (u "readme")))))) H).
  - exact (proj1 (proj2 (proj2 (parseDocFilename_round_trip (u "SC-TOB-2025-00112"))))).
Defined.

(** X16: the snippet of the older index is never longer than the window
    size it is given, whatever the text and the tokens. *)
Theorem legacy_snippet_fits_the_window (t : jstring) (tokens : list jstring)
    (windowSize : nat) :
  length (buildSnippet_legacy t tokens windowSize) ≤ windowSize.
Proof.
  unfold buildSnippet_legacy.
  destruct (foldl _ None tokens) as [b|].
  - cbv zeta. set (start := b - windowSize / 3).
    pose proof (trim_length (collapse (slice start (length t `min` (start + windowSize)) t))).
    pose proof (collapse_from_length false
                  (slice start (length t `min` (start + windowSize)) t)).
    pose proof (slice_length start (length t `min` (start + windowSize)) t).
    unfold collapse in *. lia.
  - pose proof (trim_length (collapse (take windowSize t))).
    pose proof (collapse_from_length false (take windowSize t)).
    pose proof (length_take_le t windowSize).
    unfold collapse in *. rewrite length_take in *. lia.
Qed.

(** ** Metadata of a file name *)

Lemma toUpperCase_take (n : nat) (s : jstring) :
  toUpperCase (take n s) = take n (toUpperCase s).
Proof. unfold toUpperCase. by rewrite fmap_take. Qed.

Lemma upper_head (n : nat) (id p : jstring) (c : N) :
  toUpperCase (take (S n) id) = c :: p → head (toUpperCase id) = Some c.
Proof.
  rewrite toUpperCase_take. destruct (toUpperCase id); simpl; [done|].
  by intros [= -> _].
Qed.

Lemma is_person_id_head (id : jstring) :
  is_person_id id = true → head (toUpperCase id) = Some 80%N.
Proof.
  unfold is_person_id. rewrite !andb_true_iff, !bool_decide_eq_true.
  intros [[H _] _]. by apply (upper_head 1 id _ _ H).
Qed.

Lemma is_vehicle_id_head (id : jstring) :
  is_vehicle_id id = true → head (toUpperCase id) = Some 86%N.
Proof.
  unfold is_vehicle_id. rewrite !andb_true_iff, !bool_decide_eq_true.
  intros [[H _] _]. by apply (upper_head 1 id _ _ H).
Qed.

Lemma is_case_id_head (id : jstring) :
  is_case_id id = true → head (toUpperCase id) = Some 83%N.
Proof.
  unfold is_case_id. rewrite bool_decide_eq_true.
  intros H. by apply (upper_head 2 id _ _ H).
Qed.

Lemma is_first_info_id_head (id : jstring) :
  is_first_info_id id = true → head (toUpperCase id) = Some 70%N.
Proof.
  unfold is_first_info_id. rewrite !andb_true_iff, !bool_decide_eq_true.
  intros [[[[H _] _] _] _]. by apply (upper_head 2 id _ _ H).
Qed.

(** X17: of the four record ids in the metadata of a file name at most one
    is set; one that is set is the upper-cased [entity_id] (for an ASCII
    file name, where the upper-casing is JavaScript's); and [trip_id] is
    set only together with [person_id], for the prefix [trips]. *)
Theorem at_most_one_record_id (f : jstring) :
  length (filter (λ k, is_set (meta_field f k)) record_id_fields) ≤ 1
  ∧ (∀ k, ascii_only f = true → k ∈ record_id_fields →
       is_set (meta_field f k) →
       ∃ id, meta_field f (u "entity_id") = JStr id
             ∧ meta_field f k = JStr (toUpperCase id))
  ∧ (is_set (meta_field f (u "trip_id")) →
       meta_field f (u "entity_type") = JStr (u "trips")
       ∧ is_set (meta_field f (u "person_id"))).
Proof.
  unfold meta_field, inferDocMetaFromFilename, record_id_fields. cbv zeta.
  set (base := strip_extension f).
  set (pieces := split_on cu_underscore base).
  destruct (pieces !! 1) as [id|] eqn:Hrest; cbn [default from_option Datatypes.id].
  - pose proof (is_person_id_head id) as Hp.
    pose proof (is_vehicle_id_head id) as Hv.
    pose proof (is_case_id_head id) as Hc.
    pose proof (is_first_info_id_head id) as Hf.
    split_and!.
    + destruct (is_person_id id), (is_vehicle_id id), (is_case_id id),
        (is_first_info_id id);
        try (specialize (Hp eq_refl)); try (specialize (Hv eq_refl));
        try (specialize (Hc eq_refl)); try (specialize (Hf eq_refl));
        try congruence; vm_compute; lia.
    + intros k _ Hk Hset. exists id. split; [done|].
      rewrite !elem_of_cons, elem_of_nil in Hk.
      destruct (is_person_id id), (is_vehicle_id id), (is_case_id id),
        (is_first_info_id id);
        destruct Hk as [->|[->|[->|[->|[]]]]];
        first [reflexivity | by vm_compute in Hset].
    + intros Hset.
      change (is_set (str_or_null (bool_decide (default [] (pieces !! 0) = u "trips")
                && is_person_id id) base)) in Hset.
      change (JStr (default [] (pieces !! 0)) = JStr (u "trips")
              ∧ is_set (str_or_null (is_person_id id) (toUpperCase id))).
      case_bool_decide as Hpre; [|done].
      destruct (is_person_id id); [|done]. by rewrite Hpre.
  - split_and!.
    + vm_compute. lia.
    + intros k _ Hk Hset. exfalso.
      rewrite !elem_of_cons, elem_of_nil in Hk.
      destruct Hk as [->|[->|[->|[->|[]]]]]; by vm_compute in Hset.
    + intros Hset. exfalso.
      change (is_set (str_or_null (bool_decide (default [] (pieces !! 0) = u "trips")
                && is_person_id []) base)) in Hset.
      by rewrite andb_false_r in Hset.
Qed.

Lemma at_most_one_record_id_witness :
  ascii_only (u "trips_p-0006.pdf") = true
  ∧ u "person_id" ∈ record_id_fields
  ∧ is_set (meta_field (u "trips_p-0006.pdf") (u "person_id"))
  ∧ is_set (meta_field (u "trips_p-0006.pdf") (u "trip_id"))
  ∧ (∃ id, meta_field (u "trips_p-0006.pdf") (u "entity_id") = JStr id
           ∧ meta_field (u "trips_p-0006.pdf") (u "person_id")
             = JStr (toUpperCase id))
  ∧ meta_field (u "trips_p-0006.pdf") (u "entity_type") = JStr (u "trips").
Proof.
  assert (H1 : u "person_id" ∈ record_id_fields) by (vm_compute; left).
  assert (H2 : is_set (meta_field (u "trips_p-0006.pdf") (u "person_id")))
    by (vm_compute; reflexivity).
  assert (H3 : is_set (meta_field (u "trips_p-0006.pdf") (u "trip_id")))
    by (vm_compute; reflexivity).
  pose proof (at_most_one_record_id (u "trips_p-0006.pdf")) as (_ & Hid & Htrip).
  split_and!;
    [reflexivity|exact H1|exact H2|exact H3|exact (Hid _ eq_refl H1 H2)
    |exact (proj1 (Htrip H3))].
Defined.

Lemma strip_extension_app (a b : jstring) :
  5 ≤ length b → ∃ b', strip_extension (a ++ b) = a ++ b'.
Proof.
  intros Hb. unfold strip_extension.
  assert (Hcut : ∀ k, k ≤ 5 →
    take (length (a ++ b) - k) (a ++ b) = a ++ take (length b - k) b).
  { intros k Hk. rewrite length_app, take_app.
    rewrite take_ge by lia. f_equal. f_equal. lia. }
  destruct (endsWith_ci _ (u ".pdf")); [rewrite (Hcut 4) by lia; eauto|].
  destruct (endsWith_ci _ (u ".docx")); [rewrite (Hcut 5) by lia; eauto|].
  eauto.
Qed.

Lemma attach_nothing (m : list (jstring * value)) (data : dataset) :
  Forall (λ k, truthy (default JUndef (assoc k m)) = false) record_id_fields →
  attachJsonMetadata (JObj m) data = JObj m.
Proof.
  unfold record_id_fields. rewrite !Forall_cons.
  intros (Hp & Hv & Hc & Hf & _).
  unfold attachJsonMetadata, lookup_json_meta. cbn [getProp spread].
  by rewrite Hp, Hv, Hc, Hf.
Qed.

(** X18: a file named after the scheme [first_info_reports_<id>.pdf] gets
    the entity type [first] and the entity id [info], no record id, and
    no record of the dataset attached: the name is split at every
    underscore and only its first two pieces are read. *)
Theorem first_info_report_files_are_not_linked (rest : jstring) (data : dataset) :
  let f := u "first_info_reports_" ++ rest in
  meta_field f (u "entity_type") = JStr (u "first")
  ∧ meta_field f (u "entity_id") = JStr (u "info")
  ∧ (∀ k, k ∈ u "trip_id" :: record_id_fields → meta_field f k = JNull)
  ∧ attachJsonMetadata (inferDocMetaFromFilename f) data
    = inferDocMetaFromFilename f.
Proof.
  intros f.
  destruct (strip_extension_app (u "first_info_") (u "reports_" ++ rest))
    as [b' Hb]; [rewrite length_app; simpl; lia|].
  assert (Hpieces : split_on cu_underscore (strip_extension f)
                    = u "first" :: u "info" :: split_on cu_underscore b').
  { unfold f. change (u "first_info_reports_" ++ rest)
      with (u "first_info_" ++ u "reports_" ++ rest).
    rewrite Hb.
    change (u "first_info_" ++ b')
      with (u "first" ++ cu_underscore :: u "info" ++ cu_underscore :: b').
    rewrite split_on_first by (apply (bool_decide_unpack _); vm_compute; exact I).
    by rewrite split_on_first by (apply (bool_decide_unpack _); vm_compute; exact I). }
  assert (Hm : inferDocMetaFromFilename f
    = JObj [ (u "filename", JStr f);
             (u "entity_type", JStr (u "first"));
             (u "entity_id", JStr (u "info"));
             (u "person_id", JNull); (u "case_id", JNull);
             (u "vehicle_id", JNull); (u "first_info_id", JNull);
             (u "trip_id", JNull) ]).
  { unfold inferDocMetaFromFilename. cbv zeta. rewrite Hpieces.
    cbn [lookup list_lookup default from_option Datatypes.id]. reflexivity. }
  unfold meta_field. rewrite Hm. split_and!; [reflexivity..| |].
  - intros k Hk. unfold record_id_fields in Hk.
    rewrite !elem_of_cons, elem_of_nil in Hk.
    destruct Hk as [->|[->|[->|[->|[->|[]]]]]]; reflexivity.
  - apply attach_nothing. unfold record_id_fields.
    repeat (apply Forall_cons; split; [reflexivity|]). apply Forall_nil_2.
Qed.

Lemma first_info_report_files_are_not_linked_witness :
  meta_field (u "first_info_reports_FI-2025-0719.pdf") (u "first_info_id") = JNull.
Proof.
  refine (proj1 (proj2 (proj2
            (first_info_report_files_are_not_linked (u "FI-2025-0719.pdf")
               {| persons := []; vehicles := []; first_info_reports := [];
                  cases := []; trips := [] |})))
            (u "first_info_id") _).
  apply (bool_decide_unpack _). vm_compute. exact I.
Defined.

(** ** attachJsonMetadata *)

Lemma find_by_Some (key id : jstring) (xs : list value) (x : value) :
  find_by key id xs = Ok (Some x) → x ∈ xs ∧ getProp x key = JStr id.
Proof.
  induction xs as [|y xs IH]; cbn [find_by]; [done|].
  destruct (is_nullish y); [done|].
  destruct (getProp y key) as [| | | |s| |] eqn:E;
    try (intros H; apply IH in H as [? ?]; split; [by right|done]).
  case_bool_decide as Hs.
  - intros [= <-]. split; [left|by rewrite E, Hs].
  - intros H; apply IH in H as [? ?]; split; [by right|done].
Qed.

Lemma find_by_finds (key id : jstring) (xs : list value) (x : value) :
  Forall (λ v, is_nullish v = false) xs →
  x ∈ xs → getProp x key = JStr id →
  ∃ y, find_by key id xs = Ok (Some y).
Proof.
  intros Hok Hx Hid. induction Hok as [|y xs Hy Hok IH]; [by apply elem_of_nil in Hx|].
  cbn [find_by]. rewrite Hy.
  apply elem_of_cons in Hx as [->|Hx].
  - rewrite Hid, bool_decide_eq_true_2 by done. eauto.
  - destruct (getProp y key) as [| | | |s| |]; try by apply IH.
    case_bool_decide as Hs; [eauto|by apply IH].
Qed.

Lemma infer_fields (f : jstring) :
  ∃ ty id bp bc bv bf bt sp sc sv sf st,
    inferDocMetaFromFilename f
    = JObj [ (u "filename", JStr f);
             (u "entity_type", JStr ty);
             (u "entity_id", JStr id);
             (u "person_id", str_or_null bp sp);
             (u "case_id", str_or_null bc sc);
             (u "vehicle_id", str_or_null bv sv);
             (u "first_info_id", str_or_null bf sf);
             (u "trip_id", str_or_null bt st) ].
Proof. unfold inferDocMetaFromFilename. cbv zeta. by repeat eexists. Qed.

Lemma str_or_null_truthy (b : bool) (s : jstring) :
  truthy (str_or_null b s) = true →
  is_set (str_or_null b s) ∧ JStr (js_String (str_or_null b s)) = str_or_null b s.
Proof. by destruct b. Qed.

(** X19: attaching the dataset keeps every property of the metadata of a
    file name, and the record it adds as [json_meta], if any, is a record
    of the collection of the id that is set, carrying that id. *)
Theorem attached_record_carries_the_id (f : jstring) (data : dataset) :
  let m := inferDocMetaFromFilename f in
  let r := attachJsonMetadata m data in
  (∀ k, k ≠ u "json_meta" → getProp r k = getProp m k)
  ∧ (getProp r (u "json_meta") = JUndef
     ∨ ∃ k coll, (k, coll) ∈ record_links data
         ∧ is_set (getProp m k)
         ∧ getProp r (u "json_meta") ∈ coll
         ∧ getProp (getProp r (u "json_meta")) k = getProp m k).
Proof.
  cbv zeta.
  destruct (infer_fields f)
    as (ty & id & bp & bc & bv & bf & bt & sp & sc & sv & sf & st & ->).
  unfold attachJsonMetadata.
  destruct (lookup_json_meta _ data) as [[p|]|] eqn:Hl; cbn [spread];
    [|split; [done|by left]..].
  split.
  - intros k Hk. cbn [getProp]. by rewrite assoc_set_prop_ne.
  - right. cbn [getProp]. rewrite assoc_set_prop_eq. cbn [default from_option Datatypes.id].
    unfold lookup_json_meta in Hl. unfold record_links.
    change (getProp (JObj ?kvs) (u "person_id")) with (str_or_null bp sp) in Hl.
    change (getProp (JObj ?kvs) (u "vehicle_id")) with (str_or_null bv sv) in Hl.
    change (getProp (JObj ?kvs) (u "case_id")) with (str_or_null bc sc) in Hl.
    change (getProp (JObj ?kvs) (u "first_info_id")) with (str_or_null bf sf) in Hl.
    destruct (truthy (str_or_null bp sp)) eqn:Tp.
    { apply str_or_null_truthy in Tp as [Hs Hj]. apply find_by_Some in Hl as [Hin Hid].
      exists (u "person_id"), (persons data).
      split_and!; [set_solver|exact Hs|exact Hin|by rewrite Hid, Hj]. }
    destruct (truthy (str_or_null bv sv)) eqn:Tv.
    { apply str_or_null_truthy in Tv as [Hs Hj]. apply find_by_Some in Hl as [Hin Hid].
      exists (u "vehicle_id"), (vehicles data).
      split_and!; [set_solver|exact Hs|exact Hin|by rewrite Hid, Hj]. }
    destruct (truthy (str_or_null bc sc)) eqn:Tc.
    { apply str_or_null_truthy in Tc as [Hs Hj]. apply find_by_Some in Hl as [Hin Hid].
      exists (u "case_id"), (cases data).
      split_and!; [set_solver|exact Hs|exact Hin|by rewrite Hid, Hj]. }
    destruct (truthy (str_or_null bf sf)) eqn:Tf; [|done].
    apply str_or_null_truthy in Tf as [Hs Hj]. apply find_by_Some in Hl as [Hin Hid].
    exists (u "first_info_id"), (first_info_reports data).
    split_and!; [set_solver|exact Hs|exact Hin|by rewrite Hid, Hj].
Qed.

Lemma attached_record_carries_the_id_witness :
  let data := {| persons := [JObj [(u "person_id", JStr (u "P-0006"))]];
                 vehicles := []; first_info_reports := []; cases := [];
                 trips := [] |} in
  getProp (attachJsonMetadata (inferDocMetaFromFilename (u "persons_P-0006.pdf")) data)
    (u "entity_id")
  = JStr (u "P-0006").
Proof.
  intros data.
  rewrite (proj1 (attached_record_carries_the_id (u "persons_P-0006.pdf") data)
             (u "entity_id")).
  - reflexivity.
  - vm_compute. discriminate.
Defined.

Lemma infer_shape (f : jstring) :
  ∃ ty eid id bt st,
    inferDocMetaFromFilename f
    = JObj [ (u "filename", JStr f);
             (u "entity_type", JStr ty);
             (u "entity_id", JStr eid);
             (u "person_id", str_or_null (is_person_id id) (toUpperCase id));
             (u "case_id", str_or_null (is_case_id id) (toUpperCase id));
             (u "vehicle_id", str_or_null (is_vehicle_id id) (toUpperCase id));
             (u "first_info_id", str_or_null (is_first_info_id id) (toUpperCase id));
             (u "trip_id", str_or_null bt st) ].
Proof. unfold inferDocMetaFromFilename. cbv zeta. by repeat eexists. Qed.

Lemma head_nonempty (s : jstring) (c : N) : head s = Some c → nonempty s = true.
Proof. by destruct s. Qed.

(** X20: when the file name sets a record id and the collection of that id
    holds a record carrying it (and no [null] entry), a record carrying
    the id is attached as [json_meta], whatever the prefix of the file
    name: a file [trips_P-0006.pdf] gets the person, not the trip. *)
Theorem named_record_is_attached (f k : jstring) (coll : list value)
    (x : value) (data : dataset) :
  (k, coll) ∈ record_links data →
  is_set (meta_field f k) →
  Forall (λ v, is_nullish v = false) coll →
  x ∈ coll → getProp x k = meta_field f k →
  let p := getProp (attachJsonMetadata (inferDocMetaFromFilename f) data)
             (u "json_meta") in
  p ∈ coll ∧ getProp p k = meta_field f k.
Proof.
  intros Hk Hset Hcoll Hx Hid. cbv zeta. revert Hset Hid. unfold meta_field.
  destruct (infer_shape f) as (ty & eid & id & bt & st & ->).
  pose proof (is_person_id_head id) as Hp.
  pose proof (is_vehicle_id_head id) as Hv.
  pose proof (is_case_id_head id) as Hc.
  pose proof (is_first_info_id_head id) as Hf.
  assert (Hfound : ∀ b, str_or_null b (toUpperCase id) ≠ JNull →
            b = true).
  { by intros []. }
  unfold record_links in Hk. rewrite !elem_of_cons, elem_of_nil in Hk.
  unfold attachJsonMetadata, lookup_json_meta.
  change (getProp (JObj ?kvs) (u "person_id"))
    with (str_or_null (is_person_id id) (toUpperCase id)).
  change (getProp (JObj ?kvs) (u "vehicle_id"))
    with (str_or_null (is_vehicle_id id) (toUpperCase id)).
  change (getProp (JObj ?kvs) (u "case_id"))
    with (str_or_null (is_case_id id) (toUpperCase id)).
  change (getProp (JObj ?kvs) (u "first_info_id"))
    with (str_or_null (is_first_info_id id) (toUpperCase id)).
  destruct Hk as [[= -> ->]|[[= -> ->]|[[= -> ->]|[[= -> ->]|[]]]]];
    match goal with
    | |- is_set (getProp _ ?k) → _ =>
        change (getProp (JObj ?kvs) k) with (str_or_null (is_person_id id) (toUpperCase id))
        || change (getProp (JObj ?kvs) k) with (str_or_null (is_vehicle_id id) (toUpperCase id))
        || change (getProp (JObj ?kvs) k) with (str_or_null (is_case_id id) (toUpperCase id))
        || change (getProp (JObj ?kvs) k) with (str_or_null (is_first_info_id id) (toUpperCase id))
    end;
    destruct (is_person_id id), (is_vehicle_id id), (is_case_id id),
      (is_first_info_id id);
    try (specialize (Hp eq_refl)); try (specialize (Hv eq_refl));
    try (specialize (Hc eq_refl)); try (specialize (Hf eq_refl));
    try congruence; try (by intros [=]);
    intros _ Hid; cbn [str_or_null truthy js_String] in *;
    first [rewrite (head_nonempty _ _ Hp) | rewrite (head_nonempty _ _ Hv)
          | rewrite (head_nonempty _ _ Hc) | rewrite (head_nonempty _ _ Hf)];
    destruct (find_by_finds _ _ _ _ Hcoll Hx Hid) as [y Hy]; rewrite Hy;
    apply find_by_Some in Hy as [Hin Hy];
    cbn [spread getProp]; rewrite assoc_set_prop_eq; done.
Qed.

Lemma named_record_is_attached_witness :
  let ahmad := JObj [ (u "person_id", JStr (u "P-0006"));
                      (u "name", JStr (u "Ahmad")) ] in
  let data := {| persons := [ahmad]; vehicles := []; first_info_reports := [];
                 cases := []; trips := [] |} in
  getProp (attachJsonMetadata (inferDocMetaFromFilename (u "trips_p-0006.pdf")) data)
    (u "json_meta") ∈ [ahmad].
Proof.
  intros ahmad data.
  refine (proj1 (named_record_is_attached (u "trips_p-0006.pdf") (u "person_id")
                   [ahmad] ahmad data _ _ _ _ _)).
  - vm_compute. left.
  - reflexivity.
  - by repeat constructor.
  - left.
  - reflexivity.
Defined.

(** ** Matched fields and the term stage *)

Lemma leaf_value_in_flattened (p t : jstring) (v : value) :
  trimmed t → is_nullish v = false →
  includes (norm v) t = true →
  includes (norm_str (p ++ u "=" ++ js_String v)) t = true.
Proof.
  intros Ht Hv. destruct t as [|c t'] eqn:E; [by rewrite !includes_nil|].
  rewrite <- E in *. assert (Hne : t ≠ []) by (by rewrite E).
  unfold norm_str, norm. rewrite Hv. cbn [is_nullish js_String].
  rewrite !includes_trim_iff by done. rewrite !includes_iff.
  intros (a & b & Hab). rewrite !toLowerCase_app, Hab.
  exists (toLowerCase p ++ toLowerCase (u "=") ++ a), b.
  by rewrite <- !app_assoc.
Qed.

Lemma matched_field_passes (o : value) (t p : jstring) :
  trimmed t → p ∈ collectMatchedFields o [t] → passesTerms o [t] = true.
Proof.
  intros Ht Hp. unfold collectMatchedFields in Hp.
  rewrite walk_leaves, visit_iff in Hp.
  destruct Hp as [Hp|(v & Hv & Hm)]; [by apply elem_of_nil in Hp|].
  unfold leaf_matches in Hm. cbn [existsb] in Hm. rewrite orb_false_r in Hm.
  apply passesTerms_iff. intros t' Ht'. apply list_elem_of_singleton in Ht' as ->.
  exists (render_leaf (p, v)). split.
  - rewrite flatten_leaves. apply list_elem_of_fmap. by exists (p, v).
  - apply leaf_value_in_flattened; [done| |done].
    pose proof (leaves_scalar _ _ _ _ Hv). by destruct v.
Qed.

(** X21: a matched field is evidence for a term: when the terms are
    trimmed, as those of a parsed query are, every path among the matched
    fields comes from a term that the record passes, and a record that
    has a matched field for each term passes the term stage.  *)
Theorem matched_fields_witness_terms (o : value) (ts : list jstring) :
  Forall trimmed ts →
  (∀ p, p ∈ collectMatchedFields o ts →
        ∃ t, t ∈ ts ∧ p ∈ collectMatchedFields o [t] ∧ passesTerms o [t] = true)
  ∧ ((∀ t, t ∈ ts → collectMatchedFields o [t] ≠ []) → passesTerms o ts = true).
Proof.
  intros Hts. split.
  - intros p Hp. unfold collectMatchedFields in Hp.
    rewrite walk_leaves, visit_iff in Hp.
    destruct Hp as [Hp|(v & Hv & Hm)]; [by apply elem_of_nil in Hp|].
    apply existsb_elem_of in Hm as (t & Ht & Hinc). exists t.
    assert (Hp : p ∈ collectMatchedFields o [t]).
    { unfold collectMatchedFields. rewrite walk_leaves, visit_iff. right.
      exists v. split; [done|]. unfold leaf_matches. cbn [existsb].
      by rewrite Hinc. }
    split_and!; [done|done|]. apply (matched_field_passes o t p); [|done].
    by apply (proj1 (Forall_forall _ _) Hts).
  - intros Hall. apply passesTerms_iff. intros t Ht.
    specialize (Hall t Ht).
    destruct (collectMatchedFields o [t]) as [|p ps] eqn:E; [done|].
    assert (Hp : p ∈ collectMatchedFields o [t]) by (rewrite E; left).
    pose proof (matched_field_passes o t p
                  (proj1 (Forall_forall _ _) Hts t Ht) Hp) as Hpass.
    apply (proj1 (passesTerms_iff o [t]) Hpass). left.
Qed.

Lemma matched_fields_witness_terms_witness :
  passesTerms person_P0001 [u "tan"; u "male"] = true.
Proof.
  refine (proj2 (matched_fields_witness_terms person_P0001 [u "tan"; u "male"] _) _).
  - repeat constructor.
  - intros t Ht. rewrite !elem_of_cons, elem_of_nil in Ht.
    destruct Ht as [->|[->|[]]]; vm_compute; discriminate.
Defined.

(** ** The router *)

Lemma is_upper_range (c : N) : is_upper c = true ↔ (65 ≤ c ≤ 90)%N.
Proof. unfold is_upper. rewrite andb_true_iff, !N.leb_le. done. Qed.

Lemma is_digit_range (c : N) : is_digit c = true ↔ (48 ≤ c ≤ 57)%N.
Proof. unfold is_digit. rewrite andb_true_iff, !N.leb_le. done. Qed.

Lemma upper_not_digit (c : N) : is_digit c = true → is_upper c = false.
Proof.
  intros Hd%is_digit_range. destruct (is_upper c) eqn:E; [|done].
  apply is_upper_range in E. lia.
Qed.

Lemma upper_not_ws (c : N) : is_ws c = true → is_upper c = false.
Proof.
  intros Hw. destruct (is_upper c) eqn:E; [|done].
  apply is_upper_range in E. rewrite is_ws_printable in Hw by lia. done.
Qed.

Lemma digit_not_ws (c : N) : is_digit c = true → is_ws c = false.
Proof. intros Hd%is_digit_range. apply is_ws_printable. lia. Qed.

Lemma digit_not_upper (c : N) : is_upper c = true → is_digit c = false.
Proof.
  intros Hu. destruct (is_digit c) eqn:E; [|done].
  apply upper_not_digit in E. congruence.
Qed.

Lemma takeWhile_all (p : N → bool) (a : jstring) :
  Forall (λ c, p c = true) a → takeWhile p a = a ∧ dropWhile p a = [].
Proof.
  induction 1 as [|c a Hc _ [IH1 IH2]]; simpl; [done|]. by rewrite Hc, IH1, IH2.
Qed.

Lemma forallb_Forall_true (p : N → bool) (s : jstring) :
  forallb p s = true ↔ Forall (λ c, p c = true) s.
Proof.
  rewrite forallb_elem_of, Forall_forall. done.
Qed.

Lemma test_passport_iff (q : jstring) :
  test_passport q = true ↔ plate_like q 1 2 0 6 9 0.
Proof.
  unfold test_passport, plate_like. cbv zeta.
  rewrite !andb_true_iff, !Nat.leb_le. unfold all_digits.
  rewrite forallb_Forall_true. split.
  - intros ((((H1 & H2) & Hd) & H3) & H4).
    exists (takeWhile is_upper q), [], (dropWhile is_upper q), [].
    rewrite app_nil_r. cbn [app length].
    split_and!; try done; try lia.
    + by rewrite takeWhile_dropWhile.
    + apply takeWhile_Forall.
  - intros (L & S & D & T & -> & HL & HlL & _ & HS & HD & HlD & _ & HT).
    destruct S; [|simpl in HS; lia]. destruct T; [|simpl in HT; lia].
    rewrite app_nil_r. cbn [app].
    destruct D as [|d D]; [simpl in HlD; lia|].
    destruct (takeWhile_app_stop is_upper L D d HL) as [-> ->].
    { apply upper_not_digit. by apply Forall_cons in HD as [? _]. }
    split_and!; try done; lia.
Qed.

Lemma skip_one_space_split (rest : jstring) :
  ∃ S, rest = S ++ skip_one_space rest
       ∧ Forall (λ c, is_ws c = true) S ∧ length S ≤ 1.
Proof.
  destruct rest as [|c r]; cbn [skip_one_space].
  - exists []. split_and!; [done|constructor|simpl; lia].
  - destruct (is_ws c) eqn:E.
    + exists [c]. split_and!; [done|by repeat constructor|simpl; lia].
    + exists []. split_and!; [done|constructor|simpl; lia].
Qed.

Lemma test_vehicle_iff (q : jstring) :
  test_vehicle q = true ↔ plate_like q 1 3 1 3 4 1.
Proof.
  unfold test_vehicle, plate_like. cbv zeta.
  rewrite !andb_true_iff, !Nat.leb_le. split.
  - intros ((((H1 & H2) & H3) & H4) & Ht).
    destruct (skip_one_space_split (dropWhile is_upper q)) as (S & Hr1 & Hr2 & Hr3).
    exists (takeWhile is_upper q), S,
      (takeWhile is_digit (skip_one_space (dropWhile is_upper q))),
      (dropWhile is_digit (skip_one_space (dropWhile is_upper q))).
    split_and!; try done; try lia.
    + by rewrite takeWhile_dropWhile, <- Hr1, takeWhile_dropWhile.
    + apply takeWhile_Forall.
    + apply takeWhile_Forall.
    + destruct (dropWhile is_digit _) as [|c [|c' r]]; [constructor| |done].
      by repeat constructor.
    + destruct (dropWhile is_digit _) as [|c [|c' r]]; [simpl; lia|simpl; lia|done].
  - intros (L & S & D & T & -> & HL & HlL & HS & HlS & HD & HlD & HT & HlT).
    destruct D as [|d D]; [simpl in HlD; lia|].
    assert (Hd : is_digit d = true) by (by apply Forall_cons in HD as [? _]).
    assert (Hrun : takeWhile is_upper (L ++ S ++ (d :: D) ++ T) = L
                   ∧ skip_one_space (dropWhile is_upper (L ++ S ++ (d :: D) ++ T))
                     = (d :: D) ++ T).
    { destruct S as [|s [|s' S]]; [| |simpl in HlS; lia].
      - cbn [app].
        destruct (takeWhile_app_stop is_upper L (D ++ T) d HL) as [-> ->];
          [by apply upper_not_digit|].
        split; [done|]. cbn [skip_one_space]. by rewrite digit_not_ws.
      - apply Forall_cons in HS as [Hs _]. cbn [app].
        destruct (takeWhile_app_stop is_upper L (d :: D ++ T) s HL) as [-> ->];
          [by apply upper_not_ws|].
        split; [done|]. cbn [skip_one_space]. by rewrite Hs. }
    destruct Hrun as [-> ->].
    assert (Hdig : takeWhile is_digit ((d :: D) ++ T) = d :: D
                   ∧ dropWhile is_digit ((d :: D) ++ T) = T).
    { destruct T as [|t [|t' T]]; [| |simpl in HlT; lia].
      - rewrite app_nil_r. by apply takeWhile_all.
      - apply Forall_cons in HT as [Ht _].
        apply takeWhile_app_stop; [done|by apply digit_not_upper]. }
    destruct Hdig as [-> ->].
    split_and!; try lia.
    destruct T as [|t [|t' T]]; [done| |simpl in HlT; lia].
    by apply Forall_cons in HT as [Ht _].
Qed.

Lemma plate_like_digits (q : jstring) (l1 l2 s2 d1 d2 t2 : nat) :
  plate_like q l1 l2 s2 d1 d2 t2 →
  d1 ≤ length (filter (λ c, is_digit c = true) q) ≤ d2.
Proof.
  intros (L & S & D & T & -> & HL & _ & HS & _ & HD & HlD & HT & _).
  rewrite !filter_app, !length_app.
  assert (Hnone : ∀ X : jstring, Forall (λ c, is_digit c = false) X →
            length (filter (λ c, is_digit c = true) X) = 0).
  { induction 1 as [|c X Hc _ IH]; [done|].
    rewrite filter_cons_False by (by rewrite Hc). done. }
  rewrite (Hnone L), (Hnone S), (Hnone T).
  - assert (E : filter (λ c, is_digit c = true) D = D).
    { clear HlD. induction HD as [|c D Hc _ IH]; [done|].
      by rewrite filter_cons_True, IH by done. }
    rewrite E. lia.
  - eapply Forall_impl; [exact HT|]. apply digit_not_upper.
  - eapply Forall_impl; [exact HS|]. intros c Hc.
    destruct (is_digit c) eqn:E; [|done]. apply digit_not_ws in E. congruence.
  - eapply Forall_impl; [exact HL|]. apply digit_not_upper.
Qed.

Lemma lower_not_upper (c : N) : is_upper (lower_cu c) = false.
Proof.
  destruct (is_upper (lower_cu c)) eqn:E; [|done]. apply is_upper_range in E.
  destruct (lower_cu_cases c) as [[Hc Hl]|[Hc Hl]]; rewrite Hl in E; lia.
Qed.

(** X22: the router calls a query a passport exactly when, trimmed, it is
    one or two capital letters and six to nine digits; a vehicle exactly
    when it is one to three capital letters, at most one white space,
    three or four digits and at most one capital letter; no query is
    both, so the order of the two tests is immaterial; and a query
    without a capital letter is always a name. *)
Theorem router_classes (input : jstring) :
  (detectQueryType input = Passport ↔ plate_like (trim input) 1 2 0 6 9 0)
  ∧ (detectQueryType input = Vehicle ↔ plate_like (trim input) 1 3 1 3 4 1)
  ∧ ¬ (plate_like (trim input) 1 2 0 6 9 0 ∧ plate_like (trim input) 1 3 1 3 4 1)
  ∧ detectQueryType (toLowerCase input) = Name.
Proof.
  assert (Hex : ¬ (plate_like (trim input) 1 2 0 6 9 0
                   ∧ plate_like (trim input) 1 3 1 3 4 1)).
  { intros [Hp Hv]. apply plate_like_digits in Hp, Hv. lia. }
  unfold detectQueryType. cbv zeta.
  pose proof (test_passport_iff (trim input)) as Hp.
  pose proof (test_vehicle_iff (trim input)) as Hv.
  split_and!; [| |exact Hex|].
  - destruct (test_passport (trim input)); [by split; [intros _; apply Hp|]|].
    split; [by destruct (test_vehicle _)|]. intros H. apply Hp in H. done.
  - destruct (test_passport (trim input)) eqn:Ep.
    + split; [done|]. intros H. exfalso. apply Hex. split; [by apply Hp|done].
    + destruct (test_vehicle (trim input)); [by split; [intros _; apply Hv|]|].
      split; [done|]. intros H. apply Hv in H. done.
  - rewrite trim_toLowerCase.
    assert (Hl : takeWhile is_upper (toLowerCase (trim input)) = []).
    { destruct (trim input) as [|c r]; [done|]. cbn. by rewrite lower_not_upper. }
    unfold test_passport, test_vehicle. cbv zeta. rewrite Hl. done.
Qed.

Lemma router_classes_witness :
  detectQueryType (u " SJA 1234X ") = Vehicle.
Proof.
  apply (proj2 (proj1 (proj2 (router_classes (u " SJA 1234X "))))).
  exists (u "SJA"), (u " "), (u "1234"), (u "X").
  split_and!; try (by repeat constructor); try (simpl; lia).
Defined.

(** ** Looking an entity up *)

Lemma find_entity_Some (key id : jstring) (xs : list value) (x : value) :
  find_entity key id xs = Some x → x ∈ xs ∧ getProp x key = JStr id.
Proof.
  induction xs as [|y xs IH]; cbn [find_entity]; [done|].
  unfold opt_prop. destruct (is_nullish y) eqn:En.
  { intros H. apply IH in H as [? ?]. split; [by right|done]. }
  destruct (getProp y key) as [| | | |s| |] eqn:E;
    try (intros H; apply IH in H as [? ?]; split; [by right|done]).
  case_bool_decide as Hs.
  - intros [= <-]. split; [left|by rewrite E, Hs].
  - intros H; apply IH in H as [? ?]; split; [by right|done].
Qed.

Lemma find_entity_unique (key id : jstring) (xs : list value) (x : value) :
  x ∈ xs → getProp x key = JStr id →
  (∀ y, y ∈ xs → getProp y key = JStr id → y = x) →
  find_entity key id xs = Some x.
Proof.
  intros Hx Hid Huniq. induction xs as [|y xs IH]; [by apply elem_of_nil in Hx|].
  cbn [find_entity]. unfold opt_prop.
  destruct (is_nullish y) eqn:En.
  { apply elem_of_cons in Hx as [Hxy|Hx].
    - subst y. by destruct x.
    - apply IH; [done|]. intros w Hw. apply Huniq. by right. }
  destruct (getProp y key) as [| | | |s| |] eqn:E.
  all: try (apply elem_of_cons in Hx as [Hxy|Hx]; [subst y; congruence|];
            apply IH; [done|]; intros w Hw; apply Huniq; by right).
  cbv beta iota. case_bool_decide as Hs.
  - f_equal. apply Huniq; [left|by rewrite E, Hs].
  - apply elem_of_cons in Hx as [Hxy|Hx]; [subst y; congruence|].
    apply IH; [done|]. intros w Hw. apply Huniq. by right.
Qed.

Lemma find_by_find_entity (key id : jstring) (xs : list value) (r : option value) :
  find_by key id xs = Ok r → find_entity key id xs = r.
Proof.
  induction xs as [|y xs IH]; cbn [find_by find_entity]; [by intros [= <-]|].
  unfold opt_prop. destruct (is_nullish y); [done|].
  destruct (getProp y key) as [| | | |s| |]; try done.
  case_bool_decide; [by intros [= <-]|done].
Qed.

Lemma assoc_Some_elem {A} (k : jstring) (v : A) (l : list (jstring * A)) :
  assoc k l = Some v → (k, v) ∈ l.
Proof.
  induction l as [|[k' v'] l IH]; cbn [assoc]; [done|].
  case_bool_decide as Hk; [intros [= ->]; subst; left|intros H; right; auto].
Qed.

Lemma elem_assoc_Some {A} (k : jstring) (v : A) (l : list (jstring * A)) :
  NoDup l.*1 → (k, v) ∈ l → assoc k l = Some v.
Proof.
  induction l as [|[k' v'] l IH]; intros Hnd Hin; [by apply elem_of_nil in Hin|].
  apply NoDup_cons in Hnd as [Hk' Hnd]. cbn [assoc].
  apply elem_of_cons in Hin as [[= -> ->]|Hin].
  - by rewrite bool_decide_eq_true_2.
  - rewrite bool_decide_eq_false_2; [by apply IH|].
    intros ->. apply Hk'. apply list_elem_of_fmap. by exists (k', v).
Qed.

Lemma entity_types_NoDup (data : dataset) : NoDup (entity_collections data).*1.
Proof. apply (bool_decide_unpack _). vm_compute. exact I. Qed.

Lemma entity_keys_NoDup : NoDup entity_keys.*1.
Proof. apply (bool_decide_unpack _). vm_compute. exact I. Qed.

Lemma entity_tables_agree (data : dataset) (type : jstring) (arr : list value) :
  assoc type (entity_collections data) = Some arr →
  ∃ key, assoc type entity_keys = Some key.
Proof.
  unfold entity_collections, entity_keys. cbn [assoc].
  repeat (case_bool_decide; [eauto|]). done.
Qed.

(** X23: [getEntityById] raises exactly for the types every object
    inherits ([constructor], [__proto__], [toString], ...); a record it
    returns belongs to the collection of the type and carries the id
    under the key of the type; a type outside the five gives [null]; and
    the lookup of the document index, when it does not raise, finds the
    same record. *)
Theorem entity_lookup (data : dataset) (type id : jstring) :
  (getEntityById data type id = Throw ↔ inherited type = true)
  ∧ (∀ x, getEntityById data type id = Ok (Some x) →
       ∃ key coll, (type, coll) ∈ entity_collections data
         ∧ (type, key) ∈ entity_keys
         ∧ x ∈ coll ∧ getProp x key = JStr id)
  ∧ (assoc type entity_keys = None → inherited type = false →
       getEntityById data type id = Ok None)
  ∧ (∀ key coll r, (key, coll) ∈ record_links data →
       find_by key id coll = Ok r →
       ∃ ty, (ty, key) ∈ entity_keys ∧ getEntityById data ty id = Ok r).
Proof.
  split_and!.
  - unfold getEntityById.
    destruct (assoc type (entity_collections data)) as [arr|] eqn:E.
    + split; [done|]. intros Hi. exfalso. revert E. unfold inherited in Hi.
      apply bool_decide_eq_true in Hi. unfold objectPrototypeKeys in Hi.
      rewrite !elem_of_cons, elem_of_nil in Hi.
      destruct Hi as [->|[->|[->|[->|[->|[->|[->|[->|[->|[->|[->|[->|[]]]]]]]]]]]]];
        vm_compute; discriminate.
    + by destruct (inherited type).
  - intros x. unfold getEntityById.
    destruct (assoc type (entity_collections data)) as [arr|] eqn:E;
      [|by destruct (inherited type)].
    destruct (entity_tables_agree data type arr E) as (key & Hk).
    rewrite Hk. cbn [default from_option Datatypes.id].
    intros [= H]. apply find_entity_Some in H as [Hin Hid].
    exists key, arr. split_and!; [by apply assoc_Some_elem..|done|done].
  - intros Hk Hi. unfold getEntityById.
    assert (E : assoc type (entity_collections data) = None).
    { revert Hk. unfold entity_keys, entity_collections. cbn [assoc].
      by repeat case_bool_decide. }
    by rewrite E, Hi.
  - intros key coll r Hl Hf. unfold record_links in Hl.
    rewrite !elem_of_cons, elem_of_nil in Hl.
    destruct Hl as [[= -> ->]|[[= -> ->]|[[= -> ->]|[[= -> ->]|[]]]]];
      apply find_by_find_entity in Hf.
    + exists (u "person"). split; [set_solver|]. by rewrite <- Hf.
    + exists (u "vehicle"). split; [set_solver|]. by rewrite <- Hf.
    + exists (u "case"). split; [set_solver|]. by rewrite <- Hf.
    + exists (u "fi"). split; [set_solver|]. by rewrite <- Hf.
Qed.

Lemma entity_lookup_witness :
  inherited (u "constructor") = true
  ∧ ∀ data id, getEntityById data (u "constructor") id = Throw.
Proof.
  split; [reflexivity|]. intros data id.
  exact (proj2 (proj1 (entity_lookup data (u "constructor") id)) eq_refl).
Defined.

(** X24: with ids that name one record each, looking up the id of a record
    of a collection, under the type of the collection, gives the record
    back. *)
Theorem entity_lookup_round_trip (data : dataset) (type key id : jstring)
    (coll : list value) (x : value) :
  (type, coll) ∈ entity_collections data → (type, key) ∈ entity_keys →
  x ∈ coll → getProp x key = JStr id →
  (∀ y, y ∈ coll → getProp y key = JStr id → y = x) →
  getEntityById data type id = Ok (Some x).
Proof.
  intros Hc Hk Hx Hid Huniq. unfold getEntityById.
  rewrite (elem_assoc_Some _ _ _ (entity_types_NoDup data) Hc).
  rewrite (elem_assoc_Some _ _ _ entity_keys_NoDup Hk).
  cbn [default from_option Datatypes.id]. f_equal. by apply find_entity_unique.
Qed.

Lemma entity_lookup_round_trip_witness :
  let ahmad := JObj [ (u "person_id", JStr (u "P-0006")) ] in
  let siti := JObj [ (u "person_id", JStr (u "P-0007")) ] in
  let data := {| persons := [ahmad; siti]; vehicles := [];
                 first_info_reports := []; cases := []; trips := [] |} in
  getEntityById data (u "person") (u "P-0007") = Ok (Some siti).
Proof.
  intros ahmad siti data.
  apply (entity_lookup_round_trip data (u "person") (u "person_id") (u "P-0007")
           [ahmad; siti] siti).
  - left.
  - left.
  - right. left.
  - reflexivity.
  - intros y Hy Hid. rewrite !elem_of_cons, elem_of_nil in Hy.
    destruct Hy as [->|[->|[]]]; [by vm_compute in Hid|done].
Defined.

(** ** Looking a person up by name *)

Lemma includes_empty_hay (n : jstring) : nonempty n = true → includes [] n = false.
Proof. by destruct n. Qed.

Lemma some_match_hay (n : jstring) (vs : list value) :
  nonempty n = true →
  some_match [n] (filter (λ h, Is_true (nonempty h)) (norm <$> vs))
  = existsb (λ v, includes (norm v) n) vs.
Proof.
  intros Hn. unfold some_match. cbn [existsb]. rewrite orb_false_r.
  induction vs as [|v vs IH]; [done|]. csimpl. rewrite filter_cons.
  destruct (decide (Is_true (nonempty (norm v)))) as [H|H]; cbn [existsb].
  - by rewrite IH.
  - rewrite IH. destruct (norm v); [|by destruct H].
    by rewrite includes_empty_hay.
Qed.

Lemma name_paths_split :
  split_on cu_dot (u "name.primary_name") = [u "name"; u "primary_name"]
  ∧ split_on cu_dot (u "name.aliases") = [u "name"; u "aliases"].
Proof. by vm_compute. Qed.

Lemma getByPath_name_field (kvs : list (jstring * value)) (field : jstring) :
  match getProp (JObj kvs) (u "name") with JArr _ => False | _ => True end →
  getByPath_from (JObj kvs) [u "name"; field]
  = match opt_prop (getProp (JObj kvs) (u "name")) field with
    | JUndef | JNull => []
    | JArr xs => xs
    | v => [v]
    end.
Proof.
  cbn [getByPath_from]. unfold opt_prop.
  destruct (getProp (JObj kvs) (u "name")) as [| |b|z|s|xs|nm]; try done;
    intros _; cbn [getByPath_from is_nullish];
    by destruct (getProp _ field).
Qed.

Lemma existsb_norm (n : jstring) (xs : list value) :
  existsb (λ a, includes a n) (norm <$> xs) = existsb (λ v, includes (norm v) n) xs.
Proof. induction xs as [|x xs IH]; csimpl; [done|]. by rewrite IH. Qed.

Lemma name_matches_filter_stage (n : jstring) (p : value) :
  nonempty n = true → plain_name p = true →
  name_matches n p = passesFilters p [(u "name", [n])].
Proof.
  intros Hn Hp.
  change (passesFilters p [(u "name", [n])])
    with (hs ←! hay p [u "name.primary_name"; u "name.aliases"];
          if some_match [n] hs then Ok true else Ok false).
  rewrite hay_spec. unfold hay_strings, resolved. cbn [flat_map].
  rewrite app_nil_r. unfold getByPath.
  destruct name_paths_split as [-> ->].
  destruct p as [| | | | | |kvs]; try done.
  unfold name_matches, plain_name in *. cbv zeta in *.
  assert (Hname : match getProp (JObj kvs) (u "name") with
                  | JArr _ => False | _ => True end).
  { by destruct (getProp (JObj kvs) (u "name")). }
  rewrite !getByPath_name_field by done.
  replace (opt_prop (JObj kvs) (u "name")) with (getProp (JObj kvs) (u "name"))
    by done.
  remember (getProp (JObj kvs) (u "name")) as name eqn:En.
  remember (opt_prop name (u "primary_name")) as pv eqn:Epv.
  remember (opt_prop name (u "aliases")) as av eqn:Eav.
  assert (Hshape : match pv, av with
                   | JArr _, _ => false
                   | _, (JUndef | JNull | JArr _) => true
                   | _, _ => false
                   end = true).
  { by destruct name. }
  clear Hp Hname En Epv Eav.
  assert (Hsome : ∀ vs, (if some_match [n]
                              (filter (λ h, Is_true (nonempty h)) (norm <$> vs))
                         then Ok true else Ok false)
                        = Ok (existsb (λ v, includes (norm v) n) vs)).
  { intros vs. rewrite some_match_hay by done. by destruct (existsb _ vs). }
  destruct pv as [| |b|z|s|xs|o]; destruct av as [| |b'|z'|s'|xs'|o'];
    try done; unfold call_norm; cbn [String_raises map_norm obind app forallb negb andb];
    try (destruct (bool_decide (u "toString" ∈ o.*1)); cbn [obind negb andb]; [done|]);
    rewrite ?map_call_norm;
    try (destruct (forallb (λ v, negb (String_raises v)) xs'); cbn [obind]; [|done]);
    rewrite Hsome; cbn [obind existsb]; rewrite ?existsb_norm, ?orb_false_r;
    try done; by rewrite includes_empty_hay.
Qed.

(** X25: the server's lookup of persons by name is the filter stage of the
    engine with the single filter [name] and the normalised name as its
    only value, when the names of the dataset have their plain shape: it
    keeps the same persons, and raises on the same data; a blank name
    finds nobody. *)
Theorem name_lookup_is_the_name_filter (data : dataset) (name : jstring) :
  Forall (λ p, plain_name p = true) (persons data) →
  findPersonMatchesByName data name
  = if nonempty (norm_str name)
    then filter_outcome (λ p, passesFilters p [(u "name", [norm_str name])])
           (persons data)
    else Ok [].
Proof.
  intros Hwf. unfold findPersonMatchesByName. cbv zeta.
  destruct (nonempty (norm_str name)) eqn:Hn; [|done].
  induction Hwf as [|p ps Hp _ IH]; [done|].
  cbn [filter_outcome]. by rewrite (name_matches_filter_stage _ _ Hn Hp), IH.
Qed.

Lemma name_lookup_is_the_name_filter_witness :
  let data := {| persons := [person_P0001]; vehicles := [];
                 first_info_reports := []; cases := []; trips := [] |} in
  findPersonMatchesByName data (u " TAN ") = Ok [person_P0001].
Proof.
  intros data.
  rewrite (name_lookup_is_the_name_filter data (u " TAN ")).
  - reflexivity.
  - by repeat constructor.
Defined.

(** ** searchAll *)

Lemma searchCollection_Ok (arr : list value) (input : jstring) (pq : parsed)
    (rs : list value) :
  parseQuery input = Ok pq → searchCollection arr input = Ok rs → rs = hits pq arr.
Proof.
  intros Hp. unfold searchCollection, searchParsed, hits. rewrite Hp. cbn [obind].
  destruct (map_outcome (search_one pq) arr) as [os|] eqn:E; cbn [obind]; [|done].
  apply map_outcome_search_Ok in E as ->.
  - intros [= <-]. by rewrite omap_filter_decorate.
  - apply parseQuery_parsed in Hp. eapply Forall_impl; [exact Hp|]. by intros kv [? _].
Qed.

Lemma searchCollection_parsed (arr : list value) (input : jstring) (pq : parsed) :
  parseQuery input = Ok pq →
  Forall (λ o, printable_for (filters pq) o = true) arr →
  searchCollection arr input = Ok (hits pq arr).
Proof.
  intros Hp Hpr. unfold searchCollection, searchParsed, hits. rewrite Hp. cbn [obind].
  rewrite map_outcome_filter; [|apply parseQuery_parsed in Hp|done].
  - cbn [obind]. by rewrite omap_filter_decorate.
  - eapply Forall_impl; [exact Hp|]. by intros kv [? _].
Qed.

(** X26: on a dataset that holds its five collections, the search over the
    whole dataset raises when the query does not parse; for a query that
    parses, a search that returns holds, per collection, the decorated
    records that pass both stages, each collection being searched on its
    own; and it returns whenever [String] returns on the values that the
    filters resolve in every record of every collection. *)
Theorem searchAll_searches_each_collection (data : dataset) (input : jstring) :
  (parseQuery input = Throw → searchAll data input = Throw)
  ∧ ∀ pq, parseQuery input = Ok pq →
      (∀ r, searchAll data input = Ok r →
         r = {| persons := hits pq (persons data);
                vehicles := hits pq (vehicles data);
                first_info_reports := hits pq (first_info_reports data);
                cases := hits pq (cases data);
                trips := hits pq (trips data) |})
      ∧ (Forall (Forall (λ o, printable_for (filters pq) o = true)) (collections data) →
         searchAll data input
         = Ok {| persons := hits pq (persons data);
                 vehicles := hits pq (vehicles data);
                 first_info_reports := hits pq (first_info_reports data);
                 cases := hits pq (cases data);
                 trips := hits pq (trips data) |}).
Proof.
  split.
  - intros Hp. unfold searchAll, searchCollection. by rewrite Hp.
  - intros pq Hp. split.
    + intros r. unfold searchAll.
      destruct (searchCollection (persons data) input) as [ps|] eqn:E1; [|done].
      destruct (searchCollection (vehicles data) input) as [vs|] eqn:E2; [|done].
      destruct (searchCollection (first_info_reports data) input) as [fis|] eqn:E3;
        [|done].
      destruct (searchCollection (cases data) input) as [cs|] eqn:E4; [|done].
      destruct (searchCollection (trips data) input) as [ts|] eqn:E5; [|done].
      cbn [obind]. intros [= <-].
      by rewrite (searchCollection_Ok _ _ _ _ Hp E1), (searchCollection_Ok _ _ _ _ Hp E2),
        (searchCollection_Ok _ _ _ _ Hp E3), (searchCollection_Ok _ _ _ _ Hp E4),
        (searchCollection_Ok _ _ _ _ Hp E5).
    + unfold collections. rewrite !Forall_cons.
      intros (H1 & H2 & H3 & H4 & H5 & _). unfold searchAll.
      by rewrite !(searchCollection_parsed _ input pq Hp) by done.
Qed.

Lemma searchAll_searches_each_collection_witness :
  parseQuery (u "Constructor:x tan") = Throw
  ∧ searchAll no_data (u "Constructor:x tan") = Throw.
Proof.
  split; [reflexivity|].
  apply (proj1 (searchAll_searches_each_collection no_data (u "Constructor:x tan"))).
  reflexivity.
Defined.
